(** * The CPU parallel hash table of samgraph (cpu_parallel_hashtable.cc)

    A shallow embedding of [samgraph::common::cpu::ParallelHashTable] and the
    verification of its compaction properties.

    The table owns two arrays of [_capacity] buckets.  [_o2n_table] is
    indexed by a global id and holds the id tag and the local index given to
    it; [_n2o_table] is indexed by a local index and holds the global id that
    owns it.  [Populate] claims a slot with a compare-and-swap on the tag and
    reserves the next local index with a fetch-and-add on [_num_items].

    Integers are [N].  Arrays are lists, read with [!!] and written with
    [<[_:=_]>]; an access outside an array is undefined behaviour in C++ and
    is the outcome [Undef] here, a failed [CHECK_*] is the outcome [Fatal]. *)

From Stdlib Require Import NArith Lia.
From stdpp Require Import base tactics option list numbers sets.

Local Open Scope N_scope.

(** ** Outcomes of a call *)

Inductive outcome (A : Type) : Type :=
  | Done (a : A)   (* the call returned *)
  | Fatal          (* a CHECK_LT / CHECK_LE failed: the process aborts *)
  | Undef.         (* an array was accessed out of its bounds *)
Arguments Done {A} a.
Arguments Fatal {A}.
Arguments Undef {A}.

#[global] Instance outcome_bind : MBind outcome := fun A B k m =>
  match m with
  | Done a => k a
  | Fatal => Fatal
  | Undef => Undef
  end.
#[global] Instance outcome_ret : MRet outcome := fun A a => Done a.

(** [#pragma omp parallel for] over the iterations [idxs], run one after the
    other in the order of the list. *)
Fixpoint for_each {S : Type} (body : nat -> S -> outcome S) (idxs : list nat) (s : S)
  : outcome S :=
  match idxs with
  | [] => Done s
  | i :: rest => s' ← body i s; for_each body rest s'
  end.

(** [for (size_t i = 0; i < n; i++) body] in index order. *)
Definition for_loop {S : Type} (n : N) (body : nat -> S -> outcome S) (s : S)
  : outcome S :=
  for_each body (seq 0 (N.to_nat n)) s.

(** ** Data model *)

Abbreviation IdType := N (only parsing).

(** The two bucket types, with the names of the header (the first one is
    spelled as the source spells it). *)
Record BukcetO2N := { id : IdType; local : IdType }.
Record BucketN2O := { global : IdType }.

Record ParallelHashTable := {
  _o2n_table : list BukcetO2N;
  _n2o_table : list BucketN2O;
  _num_items : IdType;
  _capacity : N
}.

Definition set_o2n_table (t : ParallelHashTable) (o : list BukcetO2N) :=
  {| _o2n_table := o; _n2o_table := _n2o_table t;
     _num_items := _num_items t; _capacity := _capacity t |}.
Definition set_n2o_table (t : ParallelHashTable) (n : list BucketN2O) :=
  {| _o2n_table := _o2n_table t; _n2o_table := n;
     _num_items := _num_items t; _capacity := _capacity t |}.
Definition set_num_items (t : ParallelHashTable) (k : IdType) :=
  {| _o2n_table := _o2n_table t; _n2o_table := _n2o_table t;
     _num_items := k; _capacity := _capacity t |}.

(** *** The constructor

    [Device::Get(CPU())->AllocDataSpace(CPU(), nbytes)] belongs to the device
    layer of samgraph (device.h).  The development takes its answers as a
    parameter: for each of the two calls of the constructor and a request of
    [nbytes] bytes, the block the call hands back, seen through the
    [static_cast] of the constructor as an array of buckets with whatever
    contents it has, or the failure of the call. *)
Record Device := {
  AllocDataSpace_o2n : N -> outcome (list BukcetO2N);
  AllocDataSpace_n2o : N -> outcome (list BucketN2O)
}.

Section Constructor.

(** [sizeof(IdType)] in bytes, and the number of values of [size_t]. *)
Variable sizeof_IdType : N.
Variable size_t_modulus : N.

(** The buckets are structs of two and of one [IdType]. *)
Definition sizeof_BukcetO2N : N := 2 * sizeof_IdType.
Definition sizeof_BucketN2O : N := sizeof_IdType.

(** [sz * sizeof(T)], a product in [size_t]: it wraps at [size_t_modulus]. *)
Definition alloc_bytes (sz size : N) : N := (sz * size) mod size_t_modulus.

(** Lines 16-24.  The constructor asks for the two blocks, the origin array
    first, stores the pointers, zeroes the counter and records the capacity;
    it writes no bucket.  A failure of the device layer ends it. *)
Definition new_ParallelHashTable (dev : Device) (sz : N)
  : outcome ParallelHashTable :=
  o2n_mem ← AllocDataSpace_o2n dev (alloc_bytes sz sizeof_BukcetO2N);
  n2o_mem ← AllocDataSpace_n2o dev (alloc_bytes sz sizeof_BucketN2O);
  Done {| _o2n_table := o2n_mem; _n2o_table := n2o_mem;
          _num_items := 0; _capacity := sz |}.

(** The device layer hands back what it was asked for: a block of [nbytes]
    bytes, which holds [nbytes / sizeof(T)] buckets. *)
Definition allocates_request (dev : Device) : Prop :=
  (forall nbytes block, AllocDataSpace_o2n dev nbytes = Done block ->
     length block = N.to_nat (nbytes / sizeof_BukcetO2N)) /\
  (forall nbytes block, AllocDataSpace_n2o dev nbytes = Done block ->
     length block = N.to_nat (nbytes / sizeof_BucketN2O)).

End Constructor.

(** Both arrays hold [_capacity] buckets, and the counter has not run past
    them. *)
Definition well_formed (t : ParallelHashTable) : Prop :=
  length (_o2n_table t) = N.to_nat (_capacity t) /\
  length (_n2o_table t) = N.to_nat (_capacity t) /\
  _num_items t <= _capacity t.

Section Table.

(** [Constant::kEmptyKey] and [IdType] are declared in other headers of
    samgraph (constant.h, common.h); the development takes the empty key and
    the number of values of [IdType] as parameters.  [IdType] has the values
    [0 .. IdType_modulus - 1], and [_num_items], which line 39 fetches into
    an [IdType], counts modulo [IdType_modulus]. *)
Variable kEmptyKey : IdType.
Variable IdType_modulus : N.

(** *** Memory operations of [Populate] *)

(** [__sync_val_compare_and_swap(&_o2n_table[x].id, oldval, newval)]:
    returns the tag it found, and stores [newval] if that was [oldval]. *)
Definition sync_val_compare_and_swap_id (t : ParallelHashTable) (x : IdType)
    (oldval newval : IdType) : outcome (ParallelHashTable * IdType) :=
  match _o2n_table t !! N.to_nat x with
  | None => Undef
  | Some b =>
      if id b =? oldval
      then Done (set_o2n_table t
                   (<[N.to_nat x := {| id := newval; local := local b |}]>
                      (_o2n_table t)), id b)
      else Done (t, id b)
  end.

(** [__sync_fetch_and_add(&_num_items, 1)]: returns the old counter. *)
Definition sync_fetch_and_add_num_items (t : ParallelHashTable)
  : ParallelHashTable * IdType :=
  (set_num_items t ((_num_items t + 1) mod IdType_modulus), _num_items t).

(** [_o2n_table[x].local = l] *)
Definition store_local (t : ParallelHashTable) (x l : IdType)
  : outcome ParallelHashTable :=
  match _o2n_table t !! N.to_nat x with
  | None => Undef
  | Some b =>
      Done (set_o2n_table t
              (<[N.to_nat x := {| id := id b; local := l |}]> (_o2n_table t)))
  end.

(** [_n2o_table[l].global = x] *)
Definition store_global (t : ParallelHashTable) (l x : IdType)
  : outcome ParallelHashTable :=
  if decide (N.to_nat l < length (_n2o_table t))%nat
  then Done (set_n2o_table t (<[N.to_nat l := {| global := x |}]> (_n2o_table t)))
  else Undef.

(** *** Populate, one iteration after the other *)

(** The body of the loop of [Populate] for the index [i]. *)
Definition Populate_body (input : list IdType) (i : nat) (t : ParallelHashTable)
  : outcome ParallelHashTable :=
  match input !! i with
  | None => Undef
  | Some x =>
      if x <? _capacity t then
        '(t1, key) ← sync_val_compare_and_swap_id t x kEmptyKey x;
        if key =? kEmptyKey then
          let '(t2, l) := sync_fetch_and_add_num_items t1 in
          t3 ← store_local t2 x l;
          store_global t3 l x
        else Done t1
      else Fatal
  end.

Definition Populate (t : ParallelHashTable) (input : list IdType) (num_input : N)
  : outcome ParallelHashTable :=
  for_loop num_input (Populate_body input) t.

(** *** MapNodes *)

Definition MapNodes_body (t : ParallelHashTable) (i : nat) (output : list IdType)
  : outcome (list IdType) :=
  match _n2o_table t !! i with
  | None => Undef
  | Some b =>
      if decide (i < length output)%nat
      then Done (<[i := global b]> output)
      else Undef
  end.

(** The table is handed back next to the output array: the call may only
    change what it returns. *)
Definition MapNodes (t : ParallelHashTable) (output : list IdType) (num_ouput : N)
  : outcome (ParallelHashTable * list IdType) :=
  if num_ouput <=? _num_items t then
    out ← for_loop num_ouput (MapNodes_body t) output;
    Done (t, out)
  else Fatal.

(** *** MapEdges *)

Definition MapEdges_body (t : ParallelHashTable) (src dst : list IdType) (i : nat)
    (out : list IdType * list IdType) : outcome (list IdType * list IdType) :=
  match src !! i with
  | None => Undef
  | Some s =>
      if s <? _capacity t then
        match dst !! i with
        | None => Undef
        | Some d =>
            if d <? _capacity t then
              match _o2n_table t !! N.to_nat s, _o2n_table t !! N.to_nat d with
              | Some bucket0, Some bucket1 =>
                  if decide (i < length (fst out) /\ i < length (snd out))%nat
                  then Done (<[i := local bucket0]> (fst out),
                             <[i := local bucket1]> (snd out))
                  else Undef
              | _, _ => Undef
              end
            else Fatal
        end
      else Fatal
  end.

Definition MapEdges (t : ParallelHashTable) (src dst : list IdType) (len : N)
    (new_src new_dst : list IdType)
  : outcome (ParallelHashTable * (list IdType * list IdType)) :=
  out ← for_loop len (MapEdges_body t src dst) (new_src, new_dst);
  Done (t, out).

(** *** Reset *)

Definition Reset_body (i : nat) (t : ParallelHashTable) : outcome ParallelHashTable :=
  match _o2n_table t !! i with
  | None => Undef
  | Some b =>
      Done (set_o2n_table t
              (<[i := {| id := kEmptyKey; local := local b |}]> (_o2n_table t)))
  end.

Definition Reset (t : ParallelHashTable) : outcome ParallelHashTable :=
  for_loop (_capacity t) Reset_body (set_num_items t 0).

(** *** Populate, as the parallel loop runs it

    Every iteration of the loop is a thread of its own; it goes through the
    statements of the body one memory operation at a time.  A schedule is the
    list of the iterations that move, in the order in which they move, so
    the schedules cover every way a team of any size can interleave the
    iterations.  The two [__sync] builtins are atomic and full barriers, and
    the two plain stores go to buckets no other iteration touches. *)

Inductive pc : Type :=
  | AtStart (i : nat)            (* line 34: about to read input[i] *)
  | AtCas (x : IdType)           (* line 36: the check has passed *)
  | AtFetchAdd (x : IdType)      (* line 39: this iteration won the slot *)
  | AtStoreLocal (x l : IdType)  (* line 40 *)
  | AtStoreGlobal (x l : IdType) (* line 41 *)
  | AtEnd.

Definition thread_step (input : list IdType) (t : ParallelHashTable) (p : pc)
  : outcome (ParallelHashTable * pc) :=
  match p with
  | AtStart i =>
      match input !! i with
      | None => Undef
      | Some x => if x <? _capacity t then Done (t, AtCas x) else Fatal
      end
  | AtCas x =>
      '(t1, key) ← sync_val_compare_and_swap_id t x kEmptyKey x;
      Done (t1, if key =? kEmptyKey then AtFetchAdd x else AtEnd)
  | AtFetchAdd x =>
      let '(t2, l) := sync_fetch_and_add_num_items t in
      Done (t2, AtStoreLocal x l)
  | AtStoreLocal x l =>
      t3 ← store_local t x l; Done (t3, AtStoreGlobal x l)
  | AtStoreGlobal x l =>
      t4 ← store_global t l x; Done (t4, AtEnd)
  | AtEnd => Done (t, AtEnd)
  end.

(** The table and the program points of the iterations. *)
Definition config : Type := ParallelHashTable * list pc.

(** The iteration [i] makes its next step. *)
Definition sched_step (input : list IdType) (i : nat) (c : config) : outcome config :=
  match snd c !! i with
  | None => Done c
  | Some p => '(t', p') ← thread_step input (fst c) p; Done (t', <[i := p']> (snd c))
  end.

Definition run (input : list IdType) (sched : list nat) (c : config) : outcome config :=
  for_each (sched_step input) sched c.

Definition Populate_start (t : ParallelHashTable) (num_input : N) : config :=
  (t, AtStart <$> seq 0 (N.to_nat num_input)).

Definition all_ended (ps : list pc) : Prop := Forall (fun p => p = AtEnd) ps.

(** [Populate t input num_input] can return with the table [t']: some
    schedule takes every iteration to its end. *)
Definition Populate_returns (t : ParallelHashTable) (input : list IdType)
    (num_input : N) (t' : ParallelHashTable) : Prop :=
  exists sched ps,
    run input sched (Populate_start t num_input) = Done (t', ps) /\ all_ended ps.

(** The schedule that runs the iterations one after the other. *)
Definition in_order (num_input : N) : list nat :=
  flat_map (fun i => replicate 5 i) (seq 0 (N.to_nat num_input)).

(** *** Calls in sequence *)

(** A sequence of [Populate] calls, one array of ids per call; every call
    returns before the next one starts. *)
Inductive Populate_calls
  : ParallelHashTable -> list (list IdType) -> ParallelHashTable -> Prop :=
  | calls_nil t : Populate_calls t [] t
  | calls_cons t input t1 rest t2 :
      Populate_returns t input (N.of_nat (length input)) t1 ->
      Populate_calls t1 rest t2 ->
      Populate_calls t (input :: rest) t2.

(** The same calls with every loop run in index order. *)
Fixpoint Populate_all (t : ParallelHashTable) (batches : list (list IdType))
  : outcome ParallelHashTable :=
  match batches with
  | [] => Done t
  | input :: rest =>
      t1 ← Populate t input (N.of_nat (length input)); Populate_all t1 rest
  end.

(** ** Predicates on tables and configurations *)

Definition o2n_at (t : ParallelHashTable) (x : IdType) : option BukcetO2N :=
  _o2n_table t !! N.to_nat x.
Definition n2o_at (t : ParallelHashTable) (l : IdType) : option BucketN2O :=
  _n2o_table t !! N.to_nat l.

(** A slot is claimed when its tag is not the empty key. *)
Definition claimed (b : BukcetO2N) : Prop := id b <> kEmptyKey.

#[global] Instance claimed_dec (b : BukcetO2N) : Decision (claimed b).
Proof. unfold claimed. apply _. Defined.

(** The number of origin slots whose tag is not the empty key. *)
Definition num_claimed (t : ParallelHashTable) : N :=
  N.of_nat (length (filter claimed (_o2n_table t))).

(** A bucket with its tag set to the empty key, as [Reset] leaves it. *)
Definition emptied (b : BukcetO2N) : BukcetO2N :=
  {| id := kEmptyKey; local := local b |}.

(** The state right after [Reset]: no slot is claimed, nothing is counted. *)
Definition is_reset (t : ParallelHashTable) : Prop :=
  length (_o2n_table t) = N.to_nat (_capacity t) /\
  length (_n2o_table t) = N.to_nat (_capacity t) /\
  _num_items t = 0 /\
  Forall (fun b => id b = kEmptyKey) (_o2n_table t).

(** The iterations that have won a slot and not yet taken an index. *)
Definition pending (p : pc) : option IdType :=
  match p with
  | AtFetchAdd x => Some x
  | _ => None
  end.
Definition winners (ps : list pc) : list IdType := omap pending ps.

Definition thread_ok (input : list IdType) (t : ParallelHashTable) (p : pc) : Prop :=
  match p with
  | AtStart i => (i < length input)%nat
  | AtCas x => x < _capacity t
  | AtFetchAdd x => x < _capacity t
  | AtStoreLocal x l => x < _capacity t /\ l < _num_items t
  | AtStoreGlobal x l => l < _num_items t
  | AtEnd => True
  end.

(** The number of steps an iteration has left at most. *)
Definition remaining (p : pc) : nat :=
  match p with
  | AtStart _ => 5
  | AtCas _ => 4
  | AtFetchAdd _ => 3
  | AtStoreLocal _ _ => 2
  | AtStoreGlobal _ _ => 1
  | AtEnd => 0
  end.

(** The counting invariant of a running loop.  [g] slots hold a tag that no
    [Populate] since the last [Reset] has put there (what the allocator
    left behind, when [Reset] was never called). *)
Definition safe (input : list IdType) (g : N) (c : config) : Prop :=
  length (_o2n_table (fst c)) = N.to_nat (_capacity (fst c)) /\
  length (_n2o_table (fst c)) = N.to_nat (_capacity (fst c)) /\
  num_claimed (fst c) = _num_items (fst c) + N.of_nat (length (winners (snd c))) + g /\
  Forall (thread_ok input (fst c)) (snd c).

(** The same between two calls. *)
Definition counted (g : N) (t : ParallelHashTable) : Prop :=
  length (_o2n_table t) = N.to_nat (_capacity t) /\
  length (_n2o_table t) = N.to_nat (_capacity t) /\
  num_claimed t = _num_items t + g.

(** [alloc] lists the ids in the order in which they took their local
    indices: [alloc !! l = Some x] when the fetch-and-add of the winner of
    [x] returned [l]. *)
Definition tracked (alloc : list IdType) (c : config) : Prop :=
  _num_items (fst c) = N.of_nat (length alloc) /\
  NoDup (winners (snd c) ++ alloc) /\
  (forall x b, o2n_at (fst c) x = Some b ->
     (claimed b <-> x ∈ winners (snd c) ++ alloc)) /\
  (forall x b, o2n_at (fst c) x = Some b -> claimed b -> id b = x) /\
  (forall l x, alloc !! l = Some x ->
     (o2n_at (fst c) x = Some {| id := x; local := N.of_nat l |} \/
      AtStoreLocal x (N.of_nat l) ∈ snd c) /\
     (_n2o_table (fst c) !! l = Some {| global := x |} \/
      AtStoreLocal x (N.of_nat l) ∈ snd c \/
      AtStoreGlobal x (N.of_nat l) ∈ snd c)) /\
  (forall x l, AtStoreLocal x l ∈ snd c \/ AtStoreGlobal x l ∈ snd c ->
     alloc !! N.to_nat l = Some x).

(** Every id of [alloc0] keeps its place, and what was added comes from the
    input of the call. *)
Definition sourced (input : list IdType) (alloc0 alloc : list IdType) (c : config)
  : Prop :=
  alloc0 `prefix_of` alloc /\
  (forall x, x ∈ winners (snd c) ++ alloc -> x ∈ alloc0 \/ x ∈ input) /\
  (forall x, AtCas x ∈ snd c -> x ∈ input).

(** An iteration that is past its compare-and-swap leaves its id claimed. *)
Definition served (input : list IdType) (c : config) : Prop :=
  forall i p x, snd c !! i = Some p -> input !! i = Some x ->
    p = AtStart i \/ p = AtCas x \/
    exists b, o2n_at (fst c) x = Some b /\ claimed b.

(** What holds at every point of a call of [Populate] on a table whose
    slots were claimed in the order [alloc0] before the call. *)
Definition populating (input : list IdType) (alloc0 : list IdType) (c : config)
  : Prop :=
  safe input 0 c /\
  (exists alloc, tracked alloc c /\ sourced input alloc0 alloc c) /\
  served input c /\
  length (snd c) = length input.

(** Two tables that run the same loop agree: same counter, same tags, and
    the same bucket wherever a slot is claimed and its winner has stored the
    local index. *)
Definition agree (ps : list pc) (t1 t2 : ParallelHashTable) : Prop :=
  _capacity t1 = _capacity t2 /\
  length (_o2n_table t1) = length (_o2n_table t2) /\
  length (_n2o_table t1) = length (_n2o_table t2) /\
  _num_items t1 = _num_items t2 /\
  (forall x, id <$> o2n_at t1 x = id <$> o2n_at t2 x) /\
  (forall x b, o2n_at t1 x = Some b -> claimed b ->
     o2n_at t2 x = Some b \/ AtFetchAdd x ∈ ps \/ exists l, AtStoreLocal x l ∈ ps).

(** The table between two calls: the two arrays are inverse to each other
    on [alloc], the list of the ids populated since the last [Reset] in the
    order of their local indices. *)
Definition compacted (alloc : list IdType) (t : ParallelHashTable) : Prop :=
  counted 0 t /\
  _num_items t = N.of_nat (length alloc) /\
  NoDup alloc /\
  (forall x b, o2n_at t x = Some b -> (claimed b <-> x ∈ alloc)) /\
  (forall l x, alloc !! l = Some x ->
     o2n_at t x = Some {| id := x; local := N.of_nat l |} /\
     _n2o_table t !! l = Some {| global := x |}).

(** What an iteration of a call on the table [t0] may still store to in the
    origin array: the slot of an id of [input], and once the iteration has
    won the slot, a slot that was empty in [t0]. *)
Definition thread_framed (input : list IdType) (t0 : ParallelHashTable) (p : pc)
  : Prop :=
  match p with
  | AtCas x => x ∈ input
  | AtFetchAdd x | AtStoreLocal x _ =>
      x ∈ input /\ forall b, o2n_at t0 x = Some b -> id b = kEmptyKey
  | AtStart _ | AtStoreGlobal _ _ | AtEnd => True
  end.

(** The local index an iteration holds was reserved during the call on
    [t0]. *)
Definition thread_reserved (t0 : ParallelHashTable) (p : pc) : Prop :=
  match p with
  | AtStoreLocal _ l | AtStoreGlobal _ l => _num_items t0 <= l
  | _ => True
  end.

(** The origin array during a call against the one the call started with:
    the slots of other ids and the slots that were claimed are as they
    were. *)
Definition o2n_framed (input : list IdType) (t0 t : ParallelHashTable) : Prop :=
  _capacity t = _capacity t0 /\
  length (_o2n_table t) = length (_o2n_table t0) /\
  (forall y, y ∉ input -> o2n_at t y = o2n_at t0 y) /\
  (forall y b, o2n_at t0 y = Some b -> claimed b -> o2n_at t y = Some b).

(** The same for the local array: the entries below the counter the call
    started with and the entries from the current counter on are as they
    were. *)
Definition n2o_framed (t0 t : ParallelHashTable) : Prop :=
  length (_n2o_table t) = length (_n2o_table t0) /\
  forall l, l < _num_items t0 \/ _num_items t <= l -> n2o_at t l = n2o_at t0 l.

(** The program point of an iteration of a call on [b], seen as an iteration
    of the call on [a ++ b] with [n] the length of [a]: it reads its id [n]
    places further on. *)
Definition shift_pc (n : nat) (p : pc) : pc :=
  match p with
  | AtStart i => AtStart (n + i)
  | _ => p
  end.

(** The ids of [input] that are not in [seen], each once, in the order in
    which they first occur. *)
Fixpoint first_occurrences (seen input : list IdType) : list IdType :=
  match input with
  | [] => []
  | x :: rest =>
      if decide (x ∈ seen) then first_occurrences seen rest
      else x :: first_occurrences (seen ++ [x]) rest
  end.

End Table.

(** ** Instances used in the examples *)

(** The constants as the 32-bit build has them. *)
Definition kEmptyKey32 : IdType := 4294967295.
Definition modulus32 : N := 4294967296.

Definition garbage_o2n (n : nat) : list BukcetO2N :=
  replicate n {| id := 5; local := 77 |}.
Definition garbage_n2o (n : nat) : list BucketN2O :=
  replicate n {| global := 99 |}.

(** The build with 32-bit ids and a 64-bit [size_t]. *)
Definition sizeof_IdType32 : N := 4.
Definition size_t_modulus64 : N := 18446744073709551616.

(** A device layer whose blocks are full of leftovers, and one whose blocks
    are zeroed. *)
Definition garbage_device : Device :=
  {| AllocDataSpace_o2n nbytes :=
       Done (garbage_o2n (N.to_nat (nbytes / sizeof_BukcetO2N sizeof_IdType32)));
     AllocDataSpace_n2o nbytes :=
       Done (garbage_n2o (N.to_nat (nbytes / sizeof_BucketN2O sizeof_IdType32))) |}.
Definition zero_device : Device :=
  {| AllocDataSpace_o2n nbytes :=
       Done (replicate (N.to_nat (nbytes / sizeof_BukcetO2N sizeof_IdType32))
               {| id := 0; local := 0 |});
     AllocDataSpace_n2o nbytes :=
       Done (replicate (N.to_nat (nbytes / sizeof_BucketN2O sizeof_IdType32))
               {| global := 0 |}) |}.

(** The table the constructor returns for the capacity [sz] on
    [garbage_device]. *)
Definition constructed (sz : N) : ParallelHashTable :=
  {| _o2n_table := garbage_o2n (N.to_nat sz);
     _n2o_table := garbage_n2o (N.to_nat sz);
     _num_items := 0;
     _capacity := sz |}.

(** A table of capacity 10, constructed and reset. *)
Definition fresh10 : outcome ParallelHashTable :=
  t ← new_ParallelHashTable sizeof_IdType32 size_t_modulus64 garbage_device 10;
  Reset kEmptyKey32 t.

Definition reset10 : ParallelHashTable :=
  {| _o2n_table := replicate 10 {| id := kEmptyKey32; local := 77 |};
     _n2o_table := garbage_n2o 10;
     _num_items := 0;
     _capacity := 10 |}.

(** capacity=10; Populate([3,7,3,9]) *)
Definition table10 : outcome ParallelHashTable :=
  t ← fresh10; Populate kEmptyKey32 modulus32 t [3; 7; 3; 9] 4.

Definition populated10 : ParallelHashTable :=
  {| _o2n_table :=
       <[9%nat := {| id := 9; local := 2 |}]>
         (<[7%nat := {| id := 7; local := 1 |}]>
            (<[3%nat := {| id := 3; local := 0 |}]> (_o2n_table reset10)));
     _n2o_table :=
       [{| global := 3 |}; {| global := 7 |}; {| global := 9 |}]
       ++ garbage_n2o 7;
     _num_items := 3;
     _capacity := 10 |}.

(** [populated10] after a further Populate([3,5]). *)
Definition populated10_again : ParallelHashTable :=
  Eval vm_compute in
    match Populate kEmptyKey32 modulus32 populated10 [3; 5] 2 with
    | Done t => t
    | _ => populated10
    end.

(** The reset table after Populate([3,7,3,9]) under a schedule that lets the
    last iteration take its index first: 9 gets 0, 3 gets 1 and 7 gets 2. *)
Definition interleaved_schedule : list nat :=
  [3; 3; 3; 0; 2; 0; 2; 1; 0; 1; 1; 3; 0; 1; 3; 0; 1]%nat.
Definition interleaved10 : ParallelHashTable :=
  Eval vm_compute in
    match run kEmptyKey32 modulus32 [3; 7; 3; 9] interleaved_schedule
            (Populate_start reset10 4) with
    | Done (t, _) => t
    | _ => reset10
    end.

(** A table as large as the id space of the 32-bit build, right after
    [Reset]: the empty key 4294967295 is below its capacity. *)
Definition wide_o2n (b : BukcetO2N) : list BukcetO2N :=
  replicate (N.to_nat 4294967296) b.
Definition wide_n2o : list BucketN2O :=
  replicate (N.to_nat 4294967296) {| global := 0 |}.
Definition wide_reset : ParallelHashTable :=
  {| _o2n_table := wide_o2n {| id := kEmptyKey32; local := 0 |};
     _n2o_table := wide_n2o;
     _num_items := 0;
     _capacity := 4294967296 |}.

(** The empty key presented [n] times. *)
Definition empty_keys (n : N) : list IdType := replicate (N.to_nat n) kEmptyKey32.

(** ** Proof steps *)

(** Closes a goal on the configuration [(t', p' :: rest)] with a lemma [H]
    that is stated for any table and program point. *)
Ltac use_fin H :=
  lazymatch goal with
  | |- _ (?t', ?p' :: _) /\ _ => apply (H t' p')
  end.

(** * Proofs *)

(** ** Lists and loops *)

Lemma for_each_app {S : Type} (body : nat -> S -> outcome S) (xs ys : list nat) (s : S) :
  for_each body (xs ++ ys) s = (s' ← for_each body xs s; for_each body ys s').
Proof.
  revert s. induction xs as [|i xs IH]; intros s; simpl; [done|].
  destruct (body i s); simpl; auto.
Qed.

Lemma length_filter_insert {A : Type} (P : A -> Prop) `{!forall x, Decision (P x)}
    (l : list A) (i : nat) (x y : A) :
  l !! i = Some x ->
  (length (filter P (<[i:=y]> l)) + (if decide (P x) then 1 else 0)
   = length (filter P l) + (if decide (P y) then 1 else 0))%nat.
Proof.
  revert i. induction l as [|a l IH]; intros [|i] Hi; simplify_eq/=.
  - rewrite !filter_cons. repeat case_decide; simpl; lia.
  - specialize (IH _ Hi). rewrite !filter_cons. repeat case_decide; simpl in *; lia.
Qed.

Lemma insert_Permutation {A : Type} (l : list A) (i : nat) (x : A) :
  l !! i = Some x ->
  exists rest, l ≡ₚ x :: rest /\ forall y, <[i:=y]> l ≡ₚ y :: rest.
Proof.
  revert i. induction l as [|a l IH]; intros [|i] Hi; simplify_eq/=.
  - by exists l.
  - destruct (IH _ Hi) as (rest & H1 & H2). exists (a :: rest). split.
    + rewrite H1. apply perm_swap.
    + intros y. rewrite H2. apply perm_swap.
Qed.

Section Proofs.

Context (kEmptyKey : IdType) (IdType_modulus : N).

Local Abbreviation Populate := (Populate kEmptyKey IdType_modulus).
Local Abbreviation Populate_body := (Populate_body kEmptyKey IdType_modulus).
Local Abbreviation Populate_all := (Populate_all kEmptyKey IdType_modulus).
Local Abbreviation Populate_returns := (Populate_returns kEmptyKey IdType_modulus).
Local Abbreviation Populate_calls := (Populate_calls kEmptyKey IdType_modulus).
Local Abbreviation Reset := (Reset kEmptyKey).
Local Abbreviation Reset_body := (Reset_body kEmptyKey).
Local Abbreviation thread_step := (thread_step kEmptyKey IdType_modulus).
Local Abbreviation sched_step := (sched_step kEmptyKey IdType_modulus).
Local Abbreviation run := (run kEmptyKey IdType_modulus).
Local Abbreviation claimed := (claimed kEmptyKey).
Local Abbreviation num_claimed := (num_claimed kEmptyKey).
Local Abbreviation is_reset := (is_reset kEmptyKey).
Local Abbreviation safe := (safe kEmptyKey).
Local Abbreviation counted := (counted kEmptyKey).
Local Abbreviation tracked := (tracked kEmptyKey).
Local Abbreviation served := (served kEmptyKey).
Local Abbreviation compacted := (compacted kEmptyKey).
Local Abbreviation agree := (agree kEmptyKey).
Local Abbreviation emptied := (emptied kEmptyKey).
Local Abbreviation populating := (populating kEmptyKey).
Local Abbreviation thread_framed := (thread_framed kEmptyKey).
Local Abbreviation o2n_framed := (o2n_framed kEmptyKey).

(** ** The fields after a store *)

Lemma o2n_at_insert (t : ParallelHashTable) (x y : IdType) (b : BukcetO2N) :
  o2n_at (set_o2n_table t (<[N.to_nat x := b]> (_o2n_table t))) y
  = if decide (x = y) then (if decide (N.to_nat x < length (_o2n_table t))%nat
                             then Some b else None)
    else o2n_at t y.
Proof.
  unfold o2n_at; simpl. case_decide as Hxy.
  - subst y. case_decide.
    + by apply list_lookup_insert_eq.
    + rewrite list_insert_ge; [|lia]. apply lookup_ge_None. lia.
  - apply list_lookup_insert_ne. lia.
Qed.

Lemma num_claimed_insert (t : ParallelHashTable) (x : IdType) (b b' : BukcetO2N) :
  o2n_at t x = Some b ->
  num_claimed (set_o2n_table t (<[N.to_nat x := b']> (_o2n_table t)))
    + (if decide (claimed b) then 1 else 0)
  = num_claimed t + (if decide (claimed b') then 1 else 0).
Proof.
  intros Hb. unfold num_claimed; simpl.
  pose proof (length_filter_insert claimed _ _ b b' Hb).
  do 2 case_decide; lia.
Qed.

Lemma num_claimed_le (t : ParallelHashTable) :
  num_claimed t <= N.of_nat (length (_o2n_table t)).
Proof. unfold num_claimed. pose proof (length_filter claimed (_o2n_table t)). lia. Qed.

Lemma thread_ok_mono (input : list IdType) (t t' : ParallelHashTable) (p : pc) :
  _capacity t' = _capacity t -> _num_items t <= _num_items t' ->
  thread_ok input t p -> thread_ok input t' p.
Proof. intros Hc Hn. destruct p; simpl; rewrite ?Hc; lia. Qed.

(** ** The counting invariant *)

Lemma num_claimed_set_num_items (t : ParallelHashTable) (n : N) :
  num_claimed (set_num_items t n) = num_claimed t.
Proof. reflexivity. Qed.

Lemma num_claimed_set_n2o_table (t : ParallelHashTable) (l : list BucketN2O) :
  num_claimed (set_n2o_table t l) = num_claimed t.
Proof. reflexivity. Qed.

Lemma safe_focus (input : list IdType) (g : N) (t : ParallelHashTable) (p : pc)
    (rest : list pc) :
  kEmptyKey < IdType_modulus -> _capacity t <= kEmptyKey ->
  Forall (fun x => x < _capacity t) input ->
  safe input g (t, p :: rest) ->
  match thread_step input t p with
  | Done (t', p') =>
      safe input g (t', p' :: rest) /\
      _capacity t' = _capacity t /\ _num_items t <= _num_items t'
  | _ => False
  end.
Proof.
  intros HkM Hck Hin (Ho & Hn & Hcnt & Hok). cbn [fst snd] in *.
  apply Forall_cons_iff in Hok as [Hp Hrest].
  pose proof (num_claimed_le t) as Hle.
  assert (Hfin : forall t' p',
    length (_o2n_table t') = N.to_nat (_capacity t') ->
    length (_n2o_table t') = N.to_nat (_capacity t') ->
    num_claimed t' = _num_items t' + N.of_nat (length (winners (p' :: rest))) + g ->
    thread_ok input t' p' ->
    _capacity t' = _capacity t -> _num_items t <= _num_items t' ->
    safe input g (t', p' :: rest) /\
    _capacity t' = _capacity t /\ _num_items t <= _num_items t').
  { intros t' p' ? ? ? ? ? ?. repeat split; auto.
    apply Forall_cons_iff; split; [done|].
    eapply Forall_impl; [exact Hrest|]. intros q. by apply thread_ok_mono. }
  unfold winners in *.
  destruct p as [i|x|x|x l|x l|]; cbn [thread_step thread_ok omap list_omap pending length] in *.
  - destruct (lookup_lt_is_Some_2 input i Hp) as [x Hx]. rewrite Hx.
    pose proof (Forall_lookup_1 _ _ _ _ Hin Hx) as Hxc.
    simpl in Hxc. rewrite (proj2 (N.ltb_lt _ _) Hxc).
    use_fin Hfin; rewrite ?num_claimed_set_num_items, ?num_claimed_set_n2o_table; simpl; auto; lia.
  - unfold sync_val_compare_and_swap_id.
    destruct (lookup_lt_is_Some_2 (_o2n_table t) (N.to_nat x)) as [b Hb]; [lia|].
    rewrite Hb. cbn.
    destruct (id b =? kEmptyKey) eqn:Hkey; cbn; rewrite Hkey;
      [apply N.eqb_eq in Hkey as Hid | apply N.eqb_neq in Hkey as Hid].
    + pose proof (num_claimed_insert t x b {| id := x; local := local b |} Hb) as Hins.
      rewrite decide_False in Hins by (unfold claimed; tauto).
      rewrite decide_True in Hins by (unfold claimed; simpl; lia).
      use_fin Hfin; rewrite ?num_claimed_set_num_items, ?num_claimed_set_n2o_table; simpl; rewrite ?length_insert; auto; lia.
    + use_fin Hfin; rewrite ?num_claimed_set_num_items, ?num_claimed_set_n2o_table; simpl; auto; lia.
  - assert (Hmod : (_num_items t + 1) mod IdType_modulus = _num_items t + 1)
      by (apply N.mod_small; lia).
    unfold sync_fetch_and_add_num_items. rewrite Hmod.
    use_fin Hfin; rewrite ?num_claimed_set_num_items, ?num_claimed_set_n2o_table; simpl; auto; lia.
  - unfold store_local.
    destruct (lookup_lt_is_Some_2 (_o2n_table t) (N.to_nat x)) as [b Hb]; [lia|].
    rewrite Hb. cbn.
    pose proof (num_claimed_insert t x b {| id := id b; local := l |} Hb) as Hins.
    assert (Hsame : (if decide (claimed {| id := id b; local := l |}) then 1 else 0)
                    = (if decide (claimed b) then 1 else 0))
      by (unfold claimed; simpl; repeat case_decide; tauto).
    rewrite Hsame in Hins.
    use_fin Hfin; rewrite ?num_claimed_set_num_items, ?num_claimed_set_n2o_table; simpl; rewrite ?length_insert; auto; lia.
  - unfold store_global. rewrite decide_True by lia. cbn.
    use_fin Hfin; rewrite ?num_claimed_set_num_items, ?num_claimed_set_n2o_table; simpl; rewrite ?length_insert; auto; lia.
  - use_fin Hfin; rewrite ?num_claimed_set_num_items, ?num_claimed_set_n2o_table; simpl; auto; lia.
Qed.

Lemma winners_Permutation (ps ps' : list pc) : ps ≡ₚ ps' -> winners ps ≡ₚ winners ps'.
Proof. intros H. unfold winners. by rewrite H. Qed.

Lemma safe_Permutation (input : list IdType) (g : N) (t : ParallelHashTable)
    (ps ps' : list pc) :
  ps ≡ₚ ps' -> safe input g (t, ps) -> safe input g (t, ps').
Proof.
  intros H (Ho & Hn & Hcnt & Hok). cbn [fst snd] in *.
  repeat split; cbn [fst snd]; auto.
  - by rewrite <- (Permutation_length (winners_Permutation _ _ H)).
  - by rewrite <- H.
Qed.

(** Every step of every iteration keeps the counting invariant, and none
    fails. *)
Lemma safe_sched_step (input : list IdType) (g : N) (c : config) (i : nat) :
  kEmptyKey < IdType_modulus -> _capacity (fst c) <= kEmptyKey ->
  Forall (fun x => x < _capacity (fst c)) input ->
  safe input g c ->
  match sched_step input i c with
  | Done c' =>
      safe input g c' /\
      _capacity (fst c') = _capacity (fst c) /\ _num_items (fst c) <= _num_items (fst c')
  | _ => False
  end.
Proof.
  destruct c as [t ps]. cbn [fst snd]. intros HkM Hck Hin Hs.
  unfold sched_step. cbn [fst snd].
  destruct (ps !! i) as [p|] eqn:Hp; [|cbn [fst snd]; split; [exact Hs|split; [done|lia]]].
  destruct (insert_Permutation ps i p Hp) as (rest & H1 & H2).
  pose proof (safe_focus input g t p rest HkM Hck Hin (safe_Permutation _ _ _ _ _ H1 Hs)) as Hf.
  destruct (thread_step input t p) as [[t' p']| |]; try done. cbn.
  destruct Hf as (Hs' & Hc & Hn). split; [|by split].
  eapply safe_Permutation; [|exact Hs']. symmetry. apply H2.
Qed.

Lemma safe_run (input : list IdType) (g : N) (sched : list nat) (c : config) :
  kEmptyKey < IdType_modulus -> _capacity (fst c) <= kEmptyKey ->
  Forall (fun x => x < _capacity (fst c)) input ->
  safe input g c ->
  match run input sched c with
  | Done c' =>
      safe input g c' /\
      _capacity (fst c') = _capacity (fst c) /\ _num_items (fst c) <= _num_items (fst c')
  | _ => False
  end.
Proof.
  intros HkM. revert c. induction sched as [|i sched IH]; intros c Hck Hin Hs.
  - cbn. split; [exact Hs|split; [done|lia]].
  - unfold run in *. cbn [for_each].
    pose proof (safe_sched_step input g c i HkM Hck Hin Hs) as H1.
    destruct (sched_step input i c) as [c1| |]; try done. cbn.
    destruct H1 as (Hs1 & Hc1 & Hn1).
    specialize (IH c1). rewrite Hc1 in IH. specialize (IH Hck Hin Hs1).
    destruct (for_each _ sched c1) as [c2| |]; try done.
    destruct IH as (Hs2 & Hc2 & Hn2). split; [exact Hs2|split; [congruence|lia]].
Qed.

(** ** The allocation order *)

Lemma tracked_focus (input : list IdType) (g : N) (alloc0 alloc : list IdType)
    (t : ParallelHashTable) (p : pc) (rest : list pc) :
  kEmptyKey < IdType_modulus -> _capacity t <= kEmptyKey ->
  safe input g (t, p :: rest) ->
  tracked alloc (t, p :: rest) ->
  sourced input alloc0 alloc (t, p :: rest) ->
  forall t' p', thread_step input t p = Done (t', p') ->
  exists alloc',
    tracked alloc' (t', p' :: rest) /\ sourced input alloc0 alloc' (t', p' :: rest).
Proof.
  intros HkM Hck (Ho & Hn & Hcnt & Hok) (Hnum & Hnd & Hcl & Hid & Hal & Hth)
    (Hpre & Hsrc & Hcas) t' p' Hstep.
  unfold winners in *. cbn [fst snd] in *.
  apply Forall_cons_iff in Hok as [Hp Hrest].
  destruct p as [i|x|x|x l|x l|];
    cbn [thread_step thread_ok omap list_omap pending length] in *.
  - (* the check *)
    destruct (input !! i) as [x|] eqn:Hx; [|done].
    destruct (x <? _capacity t); [|done]. simplify_eq.
    exists alloc. split; [|split; [done|split; [done|]]].
    + unfold tracked, winners. split_and!; cbn [fst snd pending omap list_omap]; auto.
      * intros l y Hy. destruct (Hal l y Hy) as [H1 H2]. split; set_solver.
      * intros y l Hy. apply Hth. set_solver.
    + cbn [snd]. intros y Hy. apply elem_of_cons in Hy as [Hy|Hy].
      * simplify_eq. by eapply list_elem_of_lookup_2.
      * apply Hcas. set_solver.
  - (* the compare-and-swap *)
    unfold sync_val_compare_and_swap_id in Hstep.
    destruct (_o2n_table t !! N.to_nat x) as [b|] eqn:Hb; [|done].
    cbn in Hstep.
    destruct (id b =? kEmptyKey) eqn:Hkey; cbn in Hstep; rewrite Hkey in Hstep;
      [apply N.eqb_eq in Hkey as Hidb | apply N.eqb_neq in Hkey as Hidb];
      simplify_eq.
    + (* won *)
      assert (Hx : x ∉ omap pending rest ++ alloc).
      { intros Hx. apply (Hcl x b Hb) in Hx. by apply Hx. }
      exists alloc. split.
      * unfold tracked, winners. split_and!; cbn [fst snd pending omap list_omap]; auto.
        -- by apply NoDup_cons_2.
        -- intros y b'. rewrite o2n_at_insert. case_decide as Hxy.
           ++ subst y. rewrite decide_True by lia. intros [= <-].
              split; [set_solver|]. intros _. unfold claimed; simpl. lia.
           ++ intros Hy. rewrite (Hcl y b' Hy). set_solver.
        -- intros y b'. rewrite o2n_at_insert. case_decide as Hxy.
           ++ subst y. rewrite decide_True by lia. by intros [= <-].
           ++ apply Hid.
        -- intros l y Hy. destruct (Hal l y Hy) as [H1 H2].
           assert (x <> y) by (intros ->; apply Hx; apply elem_of_app; right;
                                by eapply list_elem_of_lookup_2).
           rewrite o2n_at_insert, decide_False by done. split; set_solver.
        -- intros y l Hy. apply Hth. set_solver.
      * split; [done|]. cbn [fst snd pending omap list_omap]. split.
        -- intros y Hy. apply elem_of_cons in Hy as [->|Hy]; [|by apply Hsrc].
           right. apply Hcas. set_solver.
        -- intros y Hy. apply Hcas. set_solver.
    + (* lost *)
      exists alloc. split.
      * unfold tracked, winners. split_and!; cbn [fst snd pending omap list_omap]; auto.
        -- intros l y Hy. destruct (Hal l y Hy) as [H1 H2]. split; set_solver.
        -- intros y l Hy. apply Hth. set_solver.
      * split; [done|]. cbn [fst snd pending omap list_omap]. split; [done|].
        intros y Hy. apply Hcas. set_solver.
  - (* the fetch-and-add *)
    pose proof (num_claimed_le t) as Hle.
    assert (Hmod : (_num_items t + 1) mod IdType_modulus = _num_items t + 1)
      by (apply N.mod_small; lia).
    unfold sync_fetch_and_add_num_items in Hstep. rewrite Hmod in Hstep.
    simplify_eq. rewrite Hnum in *.
    assert (Hperm : omap pending rest ++ alloc ++ [x]
                    ≡ₚ (x :: omap pending rest) ++ alloc).
    { rewrite app_assoc, <- Permutation_cons_append. done. }
    exists (alloc ++ [x]). split.
    + unfold tracked, winners. split_and!; cbn [fst snd pending omap list_omap].
      * rewrite length_app. simpl. lia.
      * by rewrite Hperm.
      * intros y b Hy. rewrite Hperm. by apply Hcl.
      * apply Hid.
      * intros l y Hy. apply lookup_app_Some in Hy as [Hy|[Hlen Hy]].
        -- destruct (Hal l y Hy) as [H1 H2]. split; set_solver.
        -- destruct (l - length alloc)%nat as [|n] eqn:Hl; [|done]. simplify_eq/=.
           assert (l = length alloc) as -> by lia. split; set_solver.
      * intros y l [Hy|Hy]; apply elem_of_cons in Hy as [Hy|Hy]; simplify_eq.
        -- rewrite Nat2N.id. rewrite lookup_app_r by lia.
           by rewrite Nat.sub_diag.
        -- apply lookup_app_l_Some. apply Hth. left. set_solver.
        -- apply lookup_app_l_Some. apply Hth. right. set_solver.
    + split_and!; cbn [fst snd pending omap list_omap].
      * by apply prefix_app_r.
      * intros y Hy. apply Hsrc. by rewrite <- Hperm.
      * intros y Hy. apply Hcas. set_solver.
  - (* the store of the local index *)
    unfold store_local in Hstep.
    destruct (_o2n_table t !! N.to_nat x) as [b|] eqn:Hb; [|done].
    cbn in Hstep. simplify_eq.
    assert (Hxl : alloc !! N.to_nat l = Some x) by (apply Hth; left; set_solver).
    assert (Hbx : claimed b /\ id b = x).
    { assert (claimed b) as Hc.
      { apply (Hcl x b Hb), elem_of_app. right. by eapply list_elem_of_lookup_2. }
      split; [done|]. by apply (Hid x b Hb). }
    destruct Hbx as [Hbc Hbx]. rewrite Hbx.
    exists alloc. split.
    + unfold tracked, winners. split_and!; cbn [fst snd pending omap list_omap]; auto.
      * intros y b'. rewrite o2n_at_insert. case_decide as Hxy.
        -- subst y. rewrite decide_True by lia. intros [= <-].
           rewrite <- (Hcl x b Hb). unfold claimed in *; simpl. by rewrite <- Hbx.
        -- apply Hcl.
      * intros y b'. rewrite o2n_at_insert. case_decide as Hxy.
        -- subst y. rewrite decide_True by lia. by intros [= <-].
        -- apply Hid.
      * intros l' y Hy. destruct (Hal l' y Hy) as [H1 H2].
        rewrite o2n_at_insert. case_decide as Hxy.
        -- subst y. rewrite decide_True by lia.
           assert (N.to_nat l = l') as <-.
           { eapply NoDup_lookup; [|exact Hxl|exact Hy].
             by apply NoDup_app in Hnd as (_ & _ & ?). }
           rewrite N2Nat.id. split; [by left|]. right. right. set_solver.
        -- split; set_solver.
      * intros y l' [Hy|Hy]; apply elem_of_cons in Hy as [Hy|Hy]; simplify_eq; auto.
        -- apply Hth. left. set_solver.
        -- apply Hth. right. set_solver.
    + split_and!; cbn [fst snd pending omap list_omap]; auto.
      intros y Hy. apply Hcas. set_solver.
  - (* the store of the global id *)
    unfold store_global in Hstep. case_decide as Hl; [|done].
    cbn in Hstep. simplify_eq.
    assert (Hxl : alloc !! N.to_nat l = Some x) by (apply Hth; right; set_solver).
    exists alloc. split.
    + unfold tracked, winners. split_and!; cbn [fst snd pending omap list_omap]; auto.
      * intros l' y Hy. destruct (Hal l' y Hy) as [H1 H2]. split; [set_solver|].
        cbn [set_n2o_table _n2o_table].
        destruct (decide (l' = N.to_nat l)) as [->|Hne].
        -- left. simplify_eq. by apply list_lookup_insert_eq.
        -- rewrite list_lookup_insert_ne by done.
           destruct H2 as [H2|[H2|H2]]; [by left|right; left; set_solver|].
           apply elem_of_cons in H2 as [H2|H2]; [|right; right; set_solver].
           simplify_eq. lia.
      * intros y l' Hy. apply Hth. set_solver.
    + split_and!; cbn [fst snd pending omap list_omap]; auto.
      intros y Hy. apply Hcas. set_solver.
  - (* the end *)
    simplify_eq. by exists alloc.
Qed.

Lemma tracked_Permutation (alloc : list IdType) (t : ParallelHashTable)
    (ps ps' : list pc) :
  ps ≡ₚ ps' -> tracked alloc (t, ps) -> tracked alloc (t, ps').
Proof.
  intros H (Hnum & Hnd & Hcl & Hid & Hal & Hth). cbn [fst snd] in *.
  pose proof (winners_Permutation _ _ H) as Hw.
  unfold tracked. split_and!; cbn [fst snd]; auto.
  - by rewrite <- Hw.
  - intros x b Hb. rewrite <- Hw. by apply Hcl.
  - intros l x Hx. rewrite <- !H. by apply Hal.
  - intros x l Hx. apply Hth. by rewrite !H.
Qed.

Lemma sourced_Permutation (input alloc0 alloc : list IdType) (t : ParallelHashTable)
    (ps ps' : list pc) :
  ps ≡ₚ ps' -> sourced input alloc0 alloc (t, ps) -> sourced input alloc0 alloc (t, ps').
Proof.
  intros H (Hpre & Hsrc & Hcas). cbn [fst snd] in *.
  pose proof (winners_Permutation _ _ H) as Hw.
  unfold sourced. split_and!; cbn [fst snd]; auto.
  - intros x Hx. apply Hsrc. by rewrite Hw.
  - intros x Hx. apply Hcas. by rewrite H.
Qed.

(** A claimed slot stays claimed. *)
Lemma claimed_thread_step (input : list IdType) (t t' : ParallelHashTable) (p p' : pc)
    (y : IdType) (b : BukcetO2N) :
  thread_step input t p = Done (t', p') ->
  o2n_at t y = Some b -> claimed b ->
  exists b', o2n_at t' y = Some b' /\ claimed b'.
Proof.
  intros Hstep Hy Hb.
  destruct p as [i|x|x|x l|x l|]; cbn [thread_step] in Hstep.
  - destruct (input !! i) as [x|]; [|done].
    destruct (x <? _capacity t); [|done]. simplify_eq. eauto.
  - unfold sync_val_compare_and_swap_id in Hstep.
    destruct (_o2n_table t !! N.to_nat x) as [bx|] eqn:Hbx; [|done].
    cbn in Hstep.
    destruct (id bx =? kEmptyKey) eqn:Hkey; cbn in Hstep; simplify_eq; eauto.
    apply N.eqb_eq in Hkey. rewrite o2n_at_insert. case_decide as Hxy; eauto.
    subst y. unfold o2n_at in Hy. simplify_eq. done.
  - unfold sync_fetch_and_add_num_items in Hstep. simplify_eq. eauto.
  - unfold store_local in Hstep.
    destruct (_o2n_table t !! N.to_nat x) as [bx|] eqn:Hbx; [|done].
    cbn in Hstep. simplify_eq. rewrite o2n_at_insert. case_decide as Hxy; eauto.
    subst y. unfold o2n_at in Hy. simplify_eq.
    rewrite decide_True by (by eapply lookup_lt_Some). eauto.
  - unfold store_global in Hstep. case_decide; [|done]. cbn in Hstep.
    simplify_eq. eauto.
  - simplify_eq. eauto.
Qed.

Lemma served_sched_step (input : list IdType) (c c' : config) (i : nat) :
  _capacity (fst c) <= kEmptyKey ->
  Forall (thread_ok input (fst c)) (snd c) ->
  served input c -> sched_step input i c = Done c' -> served input c'.
Proof.
  destruct c as [t ps]. cbn [fst snd]. intros Hck Hok Hs Hstep.
  unfold sched_step in Hstep. cbn [fst snd] in Hstep.
  destruct (ps !! i) as [p|] eqn:Hp; [|by simplify_eq].
  destruct (thread_step input t p) as [[t' p']| |] eqn:Hts; try done.
  cbn in Hstep. simplify_eq.
  intros j q x Hq Hx. cbn [fst snd] in *.
  destruct (decide (i = j)) as [<-|Hij].
  - rewrite list_lookup_insert_eq in Hq by (by eapply lookup_lt_Some). simplify_eq.
    destruct (Hs i p x Hp Hx) as [->|[->|(b & Hb & Hcl)]].
    + cbn [thread_step] in Hts. rewrite Hx in Hts.
      destruct (x <? _capacity t); simplify_eq. auto.
    + right. right. pose proof (Forall_lookup_1 _ _ _ _ Hok Hp) as Hxc.
      cbn [thread_ok] in Hxc. cbn [thread_step] in Hts.
      unfold sync_val_compare_and_swap_id in Hts.
      destruct (_o2n_table t !! N.to_nat x) as [b|] eqn:Hb; [|done].
      cbn in Hts.
      destruct (id b =? kEmptyKey) eqn:Hkey; cbn in Hts; simplify_eq.
      * rewrite o2n_at_insert, decide_True, decide_True
          by (done || by eapply lookup_lt_Some).
        eexists; split; [done|]. unfold claimed; simpl. lia.
      * apply N.eqb_neq in Hkey. eauto.
    + right. right. by eapply claimed_thread_step.
  - rewrite list_lookup_insert_ne in Hq by done.
    destruct (Hs j q x Hq Hx) as [->|[->|(b & Hb & Hcl)]]; auto.
    right. right. by eapply claimed_thread_step.
Qed.

(** ** One call of Populate *)

Lemma populating_sched_step (input alloc0 : list IdType) (c : config) (i : nat) :
  kEmptyKey < IdType_modulus -> _capacity (fst c) <= kEmptyKey ->
  Forall (fun x => x < _capacity (fst c)) input ->
  populating input alloc0 c ->
  match sched_step input i c with
  | Done c' => populating input alloc0 c' /\ _capacity (fst c') = _capacity (fst c)
  | _ => False
  end.
Proof.
  intros HkM Hck Hin (Hsafe & (alloc & Htr & Hsrc) & Hsv & Hlen).
  pose proof (safe_sched_step input 0 c i HkM Hck Hin Hsafe) as H1.
  destruct (sched_step input i c) as [c'| |] eqn:Hstep; try done.
  destruct H1 as (Hsafe' & Hcap & _). split; [|done].
  assert (Hsv' : served input c').
  { eapply served_sched_step; eauto. by destruct Hsafe as (_ & _ & _ & ?). }
  destruct c as [t ps]. unfold sched_step in Hstep. cbn [fst snd] in *.
  destruct (ps !! i) as [p|] eqn:Hp.
  - destruct (thread_step input t p) as [[t' p']| |] eqn:Hts; try done.
    cbn in Hstep. simplify_eq.
    destruct (insert_Permutation ps i p Hp) as (rest & Hp1 & Hp2).
    destruct (tracked_focus input 0 alloc0 alloc t p rest HkM Hck
                (safe_Permutation _ _ _ _ _ Hp1 Hsafe)
                (tracked_Permutation _ _ _ _ Hp1 Htr)
                (sourced_Permutation _ _ _ _ _ _ Hp1 Hsrc) t' p' Hts)
      as (alloc' & Htr' & Hsrc').
    split_and!; auto.
    + exists alloc'. split.
      * eapply tracked_Permutation; [|exact Htr']. symmetry. apply Hp2.
      * eapply sourced_Permutation; [|exact Hsrc']. symmetry. apply Hp2.
    + cbn [snd]. by rewrite length_insert.
  - simplify_eq. split_and!; eauto.
Qed.

Lemma populating_run (input alloc0 : list IdType) (sched : list nat) (c : config) :
  kEmptyKey < IdType_modulus -> _capacity (fst c) <= kEmptyKey ->
  Forall (fun x => x < _capacity (fst c)) input ->
  populating input alloc0 c ->
  match run input sched c with
  | Done c' => populating input alloc0 c' /\ _capacity (fst c') = _capacity (fst c)
  | _ => False
  end.
Proof.
  intros HkM. revert c. induction sched as [|i sched IH]; intros c Hck Hin Hp.
  - cbn. by split.
  - unfold run in *. cbn [for_each].
    pose proof (populating_sched_step input alloc0 c i HkM Hck Hin Hp) as H1.
    destruct (sched_step input i c) as [c1| |]; try done. cbn.
    destruct H1 as (Hp1 & Hc1).
    specialize (IH c1). rewrite Hc1 in IH. specialize (IH Hck Hin Hp1).
    destruct (for_each _ sched c1) as [c2| |]; [|done..].
    destruct IH as (Hp2 & Hc2). split; [done|congruence].
Qed.

Lemma winners_start (n : nat) (k : nat) : winners (AtStart <$> seq k n) = [].
Proof. revert k. induction n as [|n IH]; intros k; simpl; auto. Qed.

Lemma winners_ended (ps : list pc) : all_ended ps -> winners ps = [].
Proof. induction 1 as [|p ps -> _ IH]; simpl; auto. Qed.

Lemma populating_start (input alloc0 : list IdType) (t : ParallelHashTable) :
  compacted alloc0 t ->
  populating input alloc0 (Populate_start t (N.of_nat (length input))).
Proof.
  intros ((Ho & Hn & Hcnt) & Hnum & Hnd & Hcl & Hal).
  unfold Populate_start. rewrite Nat2N.id.
  assert (Hno : forall p, p ∈ AtStart <$> seq 0 (length input) -> exists i, p = AtStart i).
  { intros p Hp. apply list_elem_of_fmap in Hp as (i & -> & _). eauto. }
  unfold populating. split_and!; cbn [fst snd].
  - unfold safe. cbn [fst snd]. rewrite winners_start. split_and!; auto.
    + simpl. lia.
    + apply Forall_fmap, Forall_forall. intros i Hi. simpl.
      apply elem_of_seq in Hi. lia.
  - exists alloc0. split.
    + unfold tracked. cbn [fst snd]. rewrite winners_start. split_and!; auto.
      * intros x b Hb Hc. apply (Hcl x b Hb) in Hc.
        apply list_elem_of_lookup_1 in Hc as [l Hl].
        destruct (Hal l x Hl) as [H1 _]. by simplify_eq.
      * intros l x Hx. destruct (Hal l x Hx). auto.
      * intros x l [Hx|Hx]; apply Hno in Hx as [? ?]; done.
    + unfold sourced. cbn [fst snd]. rewrite winners_start. split_and!; auto.
      intros x Hx. apply Hno in Hx as [? ?]. done.
  - intros i p x Hp Hx. cbn [fst snd] in *. left.
    apply list_lookup_fmap_Some in Hp as (j & -> & Hj).
    apply lookup_seq in Hj as [-> _]. done.
  - by rewrite length_fmap, length_seq.
Qed.

Lemma populating_end (input alloc0 : list IdType) (t : ParallelHashTable)
    (ps : list pc) :
  _capacity t <= kEmptyKey ->
  populating input alloc0 (t, ps) -> all_ended ps ->
  exists alloc,
    compacted alloc t /\ alloc0 `prefix_of` alloc /\
    (forall x, x ∈ alloc <-> x ∈ alloc0 \/ x ∈ input).
Proof.
  intros Hck ((Ho & Hn & Hcnt & Hok) & (alloc & Htr & Hsrc) & Hsv & Hlen) Hend.
  destruct Htr as (Hnum & Hnd & Hcl & Hid & Hal & Hth).
  destruct Hsrc as (Hpre & Hsrc & _).
  cbn [fst snd] in *. rewrite (winners_ended ps Hend) in *. cbn [app length] in *.
  assert (Hno : forall p, p ∈ ps -> p = AtEnd).
  { intros p Hp. by apply (proj1 (Forall_forall _ _) Hend). }
  exists alloc. split_and!; auto.
  - unfold compacted, counted. split_and!; auto.
    + lia.
    + intros l x Hx. destruct (Hal l x Hx) as [[H1|H1] [H2|[H2|H2]]];
        try (apply Hno in H1; done); try (apply Hno in H2; done). auto.
  - intros x. split; [apply Hsrc|]. intros [Hx|Hx].
    + destruct Hpre as [k ->]. apply elem_of_app. auto.
    + apply list_elem_of_lookup_1 in Hx as [i Hi].
      destruct (lookup_lt_is_Some_2 ps i) as [p Hp].
      { rewrite Hlen. by eapply lookup_lt_Some. }
      pose proof (Hno p (list_elem_of_lookup_2 _ _ _ Hp)) as ->.
      destruct (Hsv i AtEnd x Hp Hi) as [?|[?|(b & Hb & Hc)]]; try done.
      by apply (Hcl x b Hb).
Qed.

(** ** The loop in index order is one of the schedules *)

Lemma sched_step_at (input : list IdType) (t : ParallelHashTable) (ps : list pc)
    (i : nat) (p : pc) :
  ps !! i = Some p ->
  sched_step input i (t, ps)
  = ('(t', p') ← thread_step input t p; Done (t', <[i:=p']> ps)).
Proof. intros Hp. unfold sched_step. cbn [fst snd]. by rewrite Hp. Qed.

Lemma sched_step_none (input : list IdType) (t : ParallelHashTable) (ps : list pc)
    (i : nat) :
  ps !! i = None -> sched_step input i (t, ps) = Done (t, ps).
Proof. intros Hp. unfold sched_step. cbn [fst snd]. by rewrite Hp. Qed.

Lemma Populate_body_run (input : list IdType) (t : ParallelHashTable) (ps : list pc)
    (i : nat) :
  ps !! i = Some (AtStart i) ->
  run input (replicate 5 i) (t, ps)
  = (t' ← Populate_body input i t; Done (t', <[i:=AtEnd]> ps)).
Proof.
  intros Hp. pose proof (lookup_lt_Some _ _ _ Hp) as Hlt.
  assert (Hat : forall (q : pc) qs, length qs = length ps -> <[i:=q]> qs !! i = Some q).
  { intros q qs Hq. apply list_lookup_insert_eq. lia. }
  unfold run, Populate_body. cbn [replicate for_each].
  rewrite (sched_step_at _ _ _ _ _ Hp). cbn [thread_step].
  destruct (input !! i) as [x|]; [|done].
  destruct (x <? _capacity t); [|done]. cbn.
  rewrite (sched_step_at _ _ _ _ _ (Hat _ _ eq_refl)). cbn [thread_step].
  destruct (sync_val_compare_and_swap_id t x kEmptyKey x) as [[t1 key]| |]; [|done..].
  cbn. rewrite list_insert_insert_eq.
  destruct (key =? kEmptyKey).
  - rewrite (sched_step_at _ _ _ _ _ (Hat _ _ eq_refl)). cbn [thread_step].
    unfold sync_fetch_and_add_num_items. cbn. rewrite list_insert_insert_eq.
    rewrite (sched_step_at _ _ _ _ _ (Hat _ _ eq_refl)). cbn [thread_step].
    destruct (store_local _ x (_num_items t1)) as [t3| |]; [|done..].
    cbn. rewrite list_insert_insert_eq.
    rewrite (sched_step_at _ _ _ _ _ (Hat _ _ eq_refl)). cbn [thread_step].
    destruct (store_global t3 (_num_items t1) x) as [t4| |]; [|done..].
    cbn. by rewrite list_insert_insert_eq.
  - do 3 (rewrite (sched_step_at _ _ _ _ _ (Hat _ _ eq_refl)); cbn;
          rewrite list_insert_insert_eq).
    done.
Qed.

Lemma in_order_run (input : list IdType) (m k : nat) (t : ParallelHashTable) :
  run input (flat_map (fun i => replicate 5 i) (seq k m))
    (t, replicate k AtEnd ++ (AtStart <$> seq k m))
  = (t' ← for_each (Populate_body input) (seq k m) t;
     Done (t', replicate (k + m) AtEnd)).
Proof.
  revert k t. induction m as [|m IH]; intros k t.
  - cbn. by rewrite Nat.add_0_r, app_nil_r.
  - cbn [seq flat_map fmap list_fmap for_each]. unfold run in *.
    rewrite for_each_app.
    pose proof (Populate_body_run input t
                  (replicate k AtEnd ++ AtStart k :: (AtStart <$> seq (S k) m)) k) as Hb.
    unfold run in Hb. rewrite Hb.
    2:{ rewrite lookup_app_r; rewrite length_replicate; [|lia].
        by rewrite Nat.sub_diag. }
    destruct (Populate_body input k t) as [t1| |]; [|done..]. cbn.
    assert (<[k:=AtEnd]> (replicate k AtEnd ++ AtStart k :: (AtStart <$> seq (S k) m))
            = replicate (S k) AtEnd ++ (AtStart <$> seq (S k) m)) as ->.
    { rewrite insert_app_r_alt; rewrite length_replicate; [|lia].
      rewrite Nat.sub_diag, replicate_S_end, <- app_assoc. reflexivity. }
    rewrite IH. by rewrite Nat.add_succ_r.
Qed.

(** The loop in index order is the schedule [in_order]. *)
Lemma Populate_in_order (t : ParallelHashTable) (input : list IdType) (num_input : N) :
  run input (in_order num_input) (Populate_start t num_input)
  = (t' ← Populate t input num_input;
     Done (t', replicate (N.to_nat num_input) AtEnd)).
Proof. apply (in_order_run input (N.to_nat num_input) 0 t). Qed.

Lemma Populate_Done_returns (t t' : ParallelHashTable) (input : list IdType)
    (num_input : N) :
  Populate t input num_input = Done t' -> Populate_returns t input num_input t'.
Proof.
  intros H. exists (in_order num_input), (replicate (N.to_nat num_input) AtEnd).
  rewrite Populate_in_order, H. split; [done|].
  apply Forall_replicate. done.
Qed.

(** ** Calls of Populate on a compacted table *)

Lemma filter_claimed_reset (l : list BukcetO2N) :
  Forall (fun b => id b = kEmptyKey) l -> filter claimed l = [].
Proof.
  induction 1 as [|b l Hb _ IH]; [done|].
  rewrite filter_cons, decide_False by (unfold claimed; tauto). done.
Qed.

Lemma is_reset_compacted (t : ParallelHashTable) : is_reset t -> compacted [] t.
Proof.
  intros (Ho & Hn & Hnum & Hall). unfold compacted, counted. split_and!; auto.
  - unfold num_claimed. rewrite (filter_claimed_reset _ Hall). simpl. lia.
  - apply NoDup_nil_2.
  - intros x b Hb. split; [|by intros ?%elem_of_nil].
    intros Hc. exfalso. apply Hc.
    by apply (Forall_lookup_1 _ _ _ _ Hall Hb).
  - intros l x Hx. done.
Qed.

Lemma Populate_returns_compacted (alloc0 : list IdType) (t t' : ParallelHashTable)
    (input : list IdType) :
  kEmptyKey < IdType_modulus -> _capacity t <= kEmptyKey ->
  Forall (fun x => x < _capacity t) input ->
  compacted alloc0 t ->
  Populate_returns t input (N.of_nat (length input)) t' ->
  exists alloc,
    compacted alloc t' /\ alloc0 `prefix_of` alloc /\
    (forall x, x ∈ alloc <-> x ∈ alloc0 \/ x ∈ input) /\
    _capacity t' = _capacity t.
Proof.
  intros HkM Hck Hin Hc (sched & ps & Hrun & Hend).
  pose proof (populating_run input alloc0 sched
                (Populate_start t (N.of_nat (length input))) HkM Hck Hin
                (populating_start input alloc0 t Hc)) as H.
  rewrite Hrun in H. destruct H as [Hp Hcap]. cbn [fst] in Hcap.
  destruct (populating_end input alloc0 t' ps) as (alloc & H1 & H2 & H3); auto.
  { by rewrite Hcap. }
  exists alloc. auto.
Qed.

Lemma Populate_total (alloc0 : list IdType) (t : ParallelHashTable)
    (input : list IdType) :
  kEmptyKey < IdType_modulus -> _capacity t <= kEmptyKey ->
  Forall (fun x => x < _capacity t) input ->
  compacted alloc0 t ->
  exists t', Populate t input (N.of_nat (length input)) = Done t'.
Proof.
  intros HkM Hck Hin Hc.
  pose proof (populating_run input alloc0 (in_order (N.of_nat (length input)))
                (Populate_start t (N.of_nat (length input)))
                HkM Hck Hin (populating_start input alloc0 t Hc)) as H.
  rewrite Populate_in_order in H.
  destruct (Populate t input (N.of_nat (length input))) as [t'| |]; [|done..].
  by exists t'.
Qed.

Lemma Populate_calls_compacted (alloc0 : list IdType) (t t' : ParallelHashTable)
    (batches : list (list IdType)) :
  kEmptyKey < IdType_modulus -> _capacity t <= kEmptyKey ->
  Forall (Forall (fun x => x < _capacity t)) batches ->
  compacted alloc0 t ->
  Populate_calls t batches t' ->
  exists alloc,
    compacted alloc t' /\ alloc0 `prefix_of` alloc /\
    (forall x, x ∈ alloc <-> x ∈ alloc0 \/ x ∈ concat batches) /\
    _capacity t' = _capacity t.
Proof.
  intros HkM Hck Hin Hc Hcalls. revert alloc0 Hck Hin Hc.
  induction Hcalls as [t|t input t1 rest t2 Hret _ IH]; intros alloc0 Hck Hin Hc.
  - exists alloc0. split_and!; auto. cbn. set_solver.
  - apply Forall_cons_iff in Hin as [Hin1 Hin2].
    destruct (Populate_returns_compacted alloc0 t t1 input HkM Hck Hin1 Hc Hret)
      as (alloc1 & Hc1 & Hpre1 & Hmem1 & Hcap1).
    rewrite <- Hcap1 in Hck, Hin2.
    destruct (IH alloc1 Hck Hin2 Hc1) as (alloc2 & Hc2 & Hpre2 & Hmem2 & Hcap2).
    exists alloc2. split_and!; auto.
    + by etrans.
    + intros x. rewrite Hmem2, Hmem1. cbn [concat]. rewrite elem_of_app. tauto.
    + congruence.
Qed.

Lemma Populate_all_total (alloc0 : list IdType) (t : ParallelHashTable)
    (batches : list (list IdType)) :
  kEmptyKey < IdType_modulus -> _capacity t <= kEmptyKey ->
  Forall (Forall (fun x => x < _capacity t)) batches ->
  compacted alloc0 t ->
  exists t', Populate_all t batches = Done t' /\ Populate_calls t batches t'.
Proof.
  intros HkM. revert alloc0 t.
  induction batches as [|input rest IH]; intros alloc0 t Hck Hin Hc.
  - exists t. split; [done|constructor].
  - apply Forall_cons_iff in Hin as [Hin1 Hin2].
    destruct (Populate_total alloc0 t input HkM Hck Hin1 Hc) as [t1 Ht1].
    pose proof (Populate_Done_returns _ _ _ _ Ht1) as Hret.
    destruct (Populate_returns_compacted alloc0 t t1 input HkM Hck Hin1 Hc Hret)
      as (alloc1 & Hc1 & _ & _ & Hcap1).
    rewrite <- Hcap1 in Hck, Hin2.
    destruct (IH alloc1 t1 Hck Hin2 Hc1) as (t2 & Ht2 & Hcalls).
    exists t2. split.
    + cbn [Populate_all]. rewrite Ht1. exact Ht2.
    + econstructor; eauto.
Qed.

(** ** Reset *)

Lemma Reset_body_at (t : ParallelHashTable) (i : nat) (b : BukcetO2N) :
  _o2n_table t !! i = Some b ->
  Reset_body i t = Done (set_o2n_table t (<[i:=emptied b]> (_o2n_table t))).
Proof. intros H. unfold Reset_body. by rewrite H. Qed.

Lemma Reset_loop (t : ParallelHashTable) (done todo : list BukcetO2N) :
  _o2n_table t = done ++ todo ->
  for_each Reset_body (seq (length done) (length todo)) t
  = Done (set_o2n_table t (done ++ (emptied <$> todo))).
Proof.
  revert t done. induction todo as [|b todo IH]; intros t done Ht.
  - cbn. rewrite app_nil_r in *. destruct t; cbn in *. by subst.
  - cbn [length seq for_each]. rewrite (Reset_body_at t (length done) b).
    2:{ rewrite Ht, lookup_app_r, Nat.sub_diag by lia. done. }
    rewrite Ht, insert_app_r_alt, Nat.sub_diag by lia. cbn.
    specialize (IH (set_o2n_table t (done ++ emptied b :: todo)) (done ++ [emptied b])).
    rewrite length_app, Nat.add_1_r in IH. rewrite IH.
    + unfold set_o2n_table; cbn. by rewrite <- app_assoc.
    + cbn. by rewrite <- app_assoc.
Qed.

(** On a table whose origin array has [_capacity] buckets, [Reset] returns:
    the counter is 0 and every tag is empty; nothing else has changed. *)
Lemma Reset_Done (t : ParallelHashTable) :
  length (_o2n_table t) = N.to_nat (_capacity t) ->
  Reset t = Done {| _o2n_table := emptied <$> _o2n_table t;
                    _n2o_table := _n2o_table t;
                    _num_items := 0;
                    _capacity := _capacity t |}.
Proof.
  intros Ho. unfold Reset, for_loop. cbn [set_num_items _capacity].
  rewrite <- Ho.
  exact (Reset_loop (set_num_items t 0) [] (_o2n_table t) eq_refl).
Qed.

Lemma Reset_is_reset (t t' : ParallelHashTable) :
  length (_o2n_table t) = N.to_nat (_capacity t) ->
  length (_n2o_table t) = N.to_nat (_capacity t) ->
  Reset t = Done t' -> is_reset t' /\ _capacity t' = _capacity t.
Proof.
  intros Ho Hn. rewrite (Reset_Done t Ho). intros [= <-].
  unfold is_reset; cbn. split_and!; auto.
  - by rewrite length_fmap.
  - apply Forall_fmap, Forall_forall. done.
Qed.

(** An iteration that finds its slot empty takes the next index. *)
Lemma Populate_body_wins (input : list IdType) (i : nat) (x : IdType)
    (t : ParallelHashTable) (b : BukcetO2N) :
  input !! i = Some x -> x < _capacity t ->
  o2n_at t x = Some b -> id b = kEmptyKey ->
  (N.to_nat (_num_items t) < length (_n2o_table t))%nat ->
  Populate_body input i t
  = Done {| _o2n_table := <[N.to_nat x := {| id := x; local := _num_items t |}]>
                            (_o2n_table t);
            _n2o_table := <[N.to_nat (_num_items t) := {| global := x |}]>
                            (_n2o_table t);
            _num_items := (_num_items t + 1) mod IdType_modulus;
            _capacity := _capacity t |}.
Proof.
  unfold o2n_at. intros Hi Hx Hb Hidb Hnum. unfold Populate_body. rewrite Hi.
  rewrite (proj2 (N.ltb_lt _ _) Hx).
  unfold sync_val_compare_and_swap_id. rewrite Hb, Hidb, N.eqb_refl. cbn.
  rewrite N.eqb_refl. unfold sync_fetch_and_add_num_items, store_local. cbn.
  rewrite list_lookup_insert_eq by (by eapply lookup_lt_Some). cbn.
  unfold store_global. cbn.
  rewrite decide_True by lia. cbn. unfold set_n2o_table, set_o2n_table; cbn.
  by rewrite list_insert_insert_eq.
Qed.

(** ** Populating the empty key itself

    When [_capacity] is larger than [kEmptyKey], the empty key passes the
    check of [Populate].  Its compare-and-swap stores the empty key over the
    empty key, so the slot never looks claimed and every presentation wins. *)

Lemma sentinel_body (input : list IdType) (i : nat) (t : ParallelHashTable) :
  input !! i = Some kEmptyKey ->
  kEmptyKey < _capacity t ->
  length (_o2n_table t) = N.to_nat (_capacity t) ->
  length (_n2o_table t) = N.to_nat (_capacity t) ->
  Forall (fun b => id b = kEmptyKey) (_o2n_table t) ->
  _num_items t < _capacity t ->
  Populate_body input i t
  = Done {| _o2n_table := <[N.to_nat kEmptyKey :=
                             {| id := kEmptyKey; local := _num_items t |}]> (_o2n_table t);
            _n2o_table := <[N.to_nat (_num_items t) :=
                             {| global := kEmptyKey |}]> (_n2o_table t);
            _num_items := (_num_items t + 1) mod IdType_modulus;
            _capacity := _capacity t |}.
Proof.
  intros Hi Hk Ho Hn Hall Hnum.
  destruct (lookup_lt_is_Some_2 (_o2n_table t) (N.to_nat kEmptyKey)) as [b Hb]; [lia|].
  apply (Populate_body_wins input i kEmptyKey t b); auto; [|lia].
  exact (Forall_lookup_1 _ _ _ _ Hall Hb).
Qed.

Lemma sentinel_loop (input : list IdType) (n j : nat) (t : ParallelHashTable) :
  (forall i, (j <= i < j + n)%nat -> input !! i = Some kEmptyKey) ->
  kEmptyKey < _capacity t ->
  length (_o2n_table t) = N.to_nat (_capacity t) ->
  length (_n2o_table t) = N.to_nat (_capacity t) ->
  Forall (fun b => id b = kEmptyKey) (_o2n_table t) ->
  _num_items t < IdType_modulus ->
  _num_items t + N.of_nat n <= _capacity t ->
  _num_items t + N.of_nat n <= IdType_modulus ->
  exists t',
    for_each (Populate_body input) (seq j n) t = Done t' /\
    length (_o2n_table t') = N.to_nat (_capacity t') /\
    length (_n2o_table t') = N.to_nat (_capacity t') /\
    _capacity t' = _capacity t /\
    Forall (fun b => id b = kEmptyKey) (_o2n_table t') /\
    _num_items t' = (_num_items t + N.of_nat n) mod IdType_modulus /\
    ((0 < n)%nat ->
     o2n_at t' kEmptyKey
     = Some {| id := kEmptyKey; local := _num_items t + N.of_nat n - 1 |}).
Proof.
  revert j t. induction n as [|n IH]; intros j t Hin Hk Ho Hn Hall HnM Hc HM.
  - exists t. cbn [seq for_each]. split_and!; auto.
    + rewrite N.add_0_r. symmetry. apply N.mod_small. lia.
    + lia.
  - cbn [seq for_each].
    rewrite (sentinel_body input j t) by (auto; try apply Hin; lia).
    set (t1 := {| _o2n_table := _; _n2o_table := _; _num_items := _; _capacity := _ |}).
    assert (Hall1 : Forall (fun b => id b = kEmptyKey) (_o2n_table t1)).
    { subst t1; cbn. apply Forall_insert; [done|]. done. }
    destruct n as [|n].
    + exists t1. cbn [seq for_each]. change (Done t1 ≫= Done) with (Done t1).
      subst t1; cbn. rewrite !length_insert. split_and!; auto.
      intros _. unfold o2n_at; cbn. rewrite list_lookup_insert_eq by lia.
      do 2 f_equal. lia.
    + assert (Hmod : (_num_items t + 1) mod IdType_modulus = _num_items t + 1)
        by (apply N.mod_small; lia).
      destruct (IH (S j) t1) as (t' & Hrun & Ho' & Hn' & Hc' & Hall' & Hnum' & Hat').
      * intros i Hi. apply Hin. lia.
      * done.
      * subst t1; cbn. by rewrite length_insert.
      * subst t1; cbn. by rewrite length_insert.
      * done.
      * subst t1; cbn. rewrite Hmod. lia.
      * subst t1; cbn. rewrite Hmod. lia.
      * subst t1; cbn. rewrite Hmod. lia.
      * exists t'. change (Done t1 ≫= ?f) with (f t1). cbn beta.
        rewrite Hrun. split_and!; auto.
        -- rewrite Hnum'. subst t1; cbn. rewrite Hmod. f_equal. lia.
        -- intros _. rewrite Hat' by lia. subst t1; cbn. rewrite Hmod.
           do 2 f_equal. lia.
Qed.

(** * The claims *)

(** C1 (amended).  Starting from a reset table whose capacity does not exceed
    the empty key, let a sequence of [Populate] calls present the ids of a
    duplicate-free list [S], all below the capacity, with any repeats, any
    batching and any interleaving of the iterations.  The calls can run to
    completion, and however they ran: [_num_items] is [|S|]; every id of [S]
    has a local index below [|S|] whose local slot holds the id back; every
    index below [|S|] belongs to an id of [S]; two ids of [S] never share an
    index. *)
Theorem Populate_bijection (t0 : ParallelHashTable) (batches : list (list IdType))
    (S : list IdType) :
  kEmptyKey < IdType_modulus -> _capacity t0 <= kEmptyKey ->
  is_reset t0 ->
  Forall (Forall (fun x => x < _capacity t0)) batches ->
  NoDup S -> (forall x, x ∈ S <-> x ∈ concat batches) ->
  (exists t, Populate_all t0 batches = Done t /\ Populate_calls t0 batches t) /\
  forall t, Populate_calls t0 batches t ->
    _num_items t = N.of_nat (length S) /\
    (forall x, x ∈ S ->
       exists l, l < N.of_nat (length S) /\
         o2n_at t x = Some {| id := x; local := l |} /\
         n2o_at t l = Some {| global := x |}) /\
    (forall l, l < N.of_nat (length S) ->
       exists x, x ∈ S /\
         o2n_at t x = Some {| id := x; local := l |} /\
         n2o_at t l = Some {| global := x |}) /\
    (forall x y bx by_, x ∈ S -> y ∈ S ->
       o2n_at t x = Some bx -> o2n_at t y = Some by_ ->
       local bx = local by_ -> x = y).
Proof.
  intros HkM Hck Hreset Hin HS Hmem.
  pose proof (is_reset_compacted t0 Hreset) as Hc0.
  split; [by eapply Populate_all_total|].
  intros t Hcalls.
  destruct (Populate_calls_compacted [] t0 t batches HkM Hck Hin Hc0 Hcalls)
    as (alloc & (_ & Hnum & Hnd & Hcl & Hal) & _ & Halloc & _).
  assert (Hperm : alloc ≡ₚ S).
  { apply NoDup_Permutation; auto. intros x. rewrite Halloc, Hmem.
    split; [intros [H|H]; [by apply elem_of_nil in H|done]|by right]. }
  rewrite <- (Permutation_length Hperm).
  assert (Hat : forall x, x ∈ alloc ->
            exists l, l < N.of_nat (length alloc) /\
              o2n_at t x = Some {| id := x; local := l |} /\
              n2o_at t l = Some {| global := x |}).
  { intros x Hx. apply list_elem_of_lookup_1 in Hx as [l Hl].
    destruct (Hal l x Hl) as [H1 H2]. exists (N.of_nat l). split_and!; auto.
    - apply lookup_lt_Some in Hl. lia.
    - unfold n2o_at. by rewrite Nat2N.id. }
  split_and!; auto.
  - intros x Hx. apply Hat. by rewrite Hperm.
  - intros l Hl. destruct (lookup_lt_is_Some_2 alloc (N.to_nat l)) as [x Hx]; [lia|].
    destruct (Hal _ x Hx) as [H1 H2]. rewrite N2Nat.id in H1.
    exists x. split_and!; auto.
    rewrite <- Hperm. by eapply list_elem_of_lookup_2.
  - intros x y bx by_ Hx Hy Hbx Hby Hl.
    rewrite <- Hperm in Hx, Hy.
    destruct (Hat x Hx) as (lx & _ & Hox & Hnx).
    destruct (Hat y Hy) as (ly & _ & Hoy & Hny).
    simplify_eq. cbn in Hl. subst ly. by simplify_eq.
Qed.

(** C2 (amended).  On a table that was reset and whose capacity does not
    exceed the empty key: once the calls [batches1] have returned, every id
    they presented has a local index, and no later call, whatever ids it
    presents again and however its iterations interleave, changes that
    index; the later calls [batches2] add to [_num_items] exactly one per
    distinct id that had not been presented before, so a repeat within a
    call or across calls adds nothing. *)
Theorem Populate_repeat (t0 t1 t2 : ParallelHashTable)
    (batches1 batches2 : list (list IdType)) :
  kEmptyKey < IdType_modulus -> _capacity t0 <= kEmptyKey ->
  is_reset t0 ->
  Forall (Forall (fun x => x < _capacity t0)) batches1 ->
  Forall (Forall (fun x => x < _capacity t0)) batches2 ->
  Populate_calls t0 batches1 t1 ->
  Populate_calls t1 batches2 t2 ->
  (forall x, x ∈ concat batches1 ->
     exists l, o2n_at t1 x = Some {| id := x; local := l |} /\
               o2n_at t2 x = Some {| id := x; local := l |}) /\
  (forall S, NoDup S ->
     (forall x, x ∈ S <-> x ∈ concat batches2 /\ x ∉ concat batches1) ->
     _num_items t2 = _num_items t1 + N.of_nat (length S)).
Proof.
  intros HkM Hck Hreset Hin1 Hin2 Hcalls1 Hcalls2.
  pose proof (is_reset_compacted t0 Hreset) as Hc0.
  destruct (Populate_calls_compacted [] t0 t1 batches1 HkM Hck Hin1 Hc0 Hcalls1)
    as (alloc1 & Hc1 & _ & Hmem1 & Hcap1).
  rewrite <- Hcap1 in Hck, Hin2.
  destruct (Populate_calls_compacted alloc1 t1 t2 batches2 HkM Hck Hin2 Hc1 Hcalls2)
    as (alloc2 & Hc2 & [ext ->] & Hmem2 & Hcap2).
  destruct Hc1 as (_ & Hnum1 & Hnd1 & _ & Hal1).
  destruct Hc2 as (_ & Hnum2 & Hnd2 & _ & Hal2).
  split.
  - intros x Hx.
    assert (x ∈ alloc1) as Hx1 by (apply Hmem1; by right).
    apply list_elem_of_lookup_1 in Hx1 as [l Hl].
    exists (N.of_nat l). split; [by apply Hal1|].
    apply Hal2. by apply lookup_app_l_Some.
  - intros S HS Hmem.
    assert (Hperm : ext ≡ₚ S).
    { apply NoDup_app in Hnd2 as (_ & Hdisj & Hnde).
      apply NoDup_Permutation; auto. intros x. rewrite Hmem. split.
      - intros Hx. assert (x ∉ alloc1) as Hx1 by (intros ?; by eapply Hdisj).
        assert (x ∈ alloc1 ++ ext) as Hx2 by (apply elem_of_app; by right).
        apply Hmem2 in Hx2 as [?|?]; [done|]. split; [done|].
        intros Hb. apply Hx1, Hmem1. by right.
      - intros [Hx2 Hx1].
        assert (x ∈ alloc1 ++ ext) as Hx by (apply Hmem2; by right).
        apply elem_of_app in Hx as [Hx|Hx]; [|done].
        apply Hmem1 in Hx as [?%elem_of_nil|?]; done. }
    rewrite Hnum2, Hnum1, length_app, (Permutation_length Hperm). lia.
Qed.

(** ** The counter and the claimed slots *)

Lemma safe_start (input : list IdType) (g : N) (t : ParallelHashTable) :
  counted g t -> safe input g (Populate_start t (N.of_nat (length input))).
Proof.
  intros (Ho & Hn & Hcnt). unfold safe, Populate_start. cbn [fst snd].
  rewrite Nat2N.id, winners_start. split_and!; auto.
  - simpl. lia.
  - apply Forall_fmap, Forall_forall. intros i Hi. simpl.
    apply elem_of_seq in Hi. lia.
Qed.

Lemma safe_end (input : list IdType) (g : N) (t : ParallelHashTable) (ps : list pc) :
  safe input g (t, ps) -> all_ended ps -> counted g t.
Proof.
  intros (Ho & Hn & Hcnt & _) Hend. cbn [fst snd] in *.
  rewrite (winners_ended ps Hend) in Hcnt. unfold counted. split_and!; auto.
  simpl in Hcnt. lia.
Qed.

Lemma Populate_returns_counted (g : N) (t t' : ParallelHashTable) (input : list IdType) :
  kEmptyKey < IdType_modulus -> _capacity t <= kEmptyKey ->
  Forall (fun x => x < _capacity t) input ->
  counted g t ->
  Populate_returns t input (N.of_nat (length input)) t' ->
  counted g t' /\ _capacity t' = _capacity t /\ _num_items t <= _num_items t'.
Proof.
  intros HkM Hck Hin Hc (sched & ps & Hrun & Hend).
  pose proof (safe_run input g sched (Populate_start t (N.of_nat (length input)))
                HkM Hck Hin (safe_start input g t Hc)) as H.
  rewrite Hrun in H. destruct H as (Hs & Hcap & Hnum). cbn [fst] in *.
  split; [by eapply safe_end|done].
Qed.

Lemma Populate_total_counted (g : N) (t : ParallelHashTable) (input : list IdType) :
  kEmptyKey < IdType_modulus -> _capacity t <= kEmptyKey ->
  Forall (fun x => x < _capacity t) input ->
  counted g t ->
  exists t', Populate t input (N.of_nat (length input)) = Done t'.
Proof.
  intros HkM Hck Hin Hc.
  pose proof (safe_run input g (in_order (N.of_nat (length input)))
                (Populate_start t (N.of_nat (length input)))
                HkM Hck Hin (safe_start input g t Hc)) as H.
  rewrite Populate_in_order in H.
  destruct (Populate t input (N.of_nat (length input))) as [t'| |]; [|done..].
  by exists t'.
Qed.

(** [MapNodes] and [MapEdges] hand the table back as they got it. *)
Lemma MapNodes_table (t t' : ParallelHashTable) (output out : list IdType) (n : N) :
  MapNodes t output n = Done (t', out) -> t' = t.
Proof.
  unfold MapNodes. destruct (n <=? _num_items t); [|done].
  destruct (for_loop n (MapNodes_body t) output); cbn; congruence.
Qed.

Lemma MapEdges_table (t t' : ParallelHashTable) (src dst new_src new_dst : list IdType)
    (len : N) (out : list IdType * list IdType) :
  MapEdges t src dst len new_src new_dst = Done (t', out) -> t' = t.
Proof.
  unfold MapEdges.
  destruct (for_loop len (MapEdges_body t src dst) (new_src, new_dst)); cbn; congruence.
Qed.

(** C7 (amended).  On a table whose two arrays have [_capacity] buckets:
    [Reset] leaves [_num_items] equal to the number of origin slots whose tag
    is not the empty key; and when the two are equal, they are equal again
    after [MapNodes], after [MapEdges], and, if the capacity does not exceed
    the empty key, after every [Populate] that presents ids below the
    capacity, however its iterations interleave. *)
Theorem num_items_counts_claimed (t : ParallelHashTable) :
  kEmptyKey < IdType_modulus ->
  length (_o2n_table t) = N.to_nat (_capacity t) ->
  length (_n2o_table t) = N.to_nat (_capacity t) ->
  (forall t', Reset t = Done t' -> _num_items t' = num_claimed t') /\
  (_num_items t = num_claimed t ->
   (forall input t',
      _capacity t <= kEmptyKey -> Forall (fun x => x < _capacity t) input ->
      Populate_returns t input (N.of_nat (length input)) t' ->
      _num_items t' = num_claimed t' /\
      length (_o2n_table t') = N.to_nat (_capacity t') /\
      length (_n2o_table t') = N.to_nat (_capacity t')) /\
   (forall output num_ouput t' out,
      MapNodes t output num_ouput = Done (t', out) ->
      _num_items t' = num_claimed t') /\
   (forall src dst len new_src new_dst t' out,
      MapEdges t src dst len new_src new_dst = Done (t', out) ->
      _num_items t' = num_claimed t')).
Proof.
  intros HkM Ho Hn. split; [|intros Hcnt; split_and!].
  - intros t' Hr. destruct (Reset_is_reset t t' Ho Hn Hr) as [Hreset _].
    destruct (is_reset_compacted t' Hreset) as ((_ & _ & Hc) & _). lia.
  - intros input t' Hck Hin Hret.
    destruct (Populate_returns_counted 0 t t' input HkM Hck Hin) as ((? & ? & ?) & _);
      auto; [|split_and!; auto; lia].
    unfold counted. split_and!; auto. lia.
  - intros output n t' out H. by rewrite (MapNodes_table _ _ _ _ _ H).
  - intros src dst len ns nd t' out H. by rewrite (MapEdges_table _ _ _ _ _ _ _ _ H).
Qed.

Lemma run_no_threads (input : list IdType) (sched : list nat) (t : ParallelHashTable) :
  run input sched (t, []) = Done (t, []).
Proof.
  induction sched as [|i sched IH]; [done|].
  unfold run in *. cbn [for_each].
  rewrite (sched_step_none input t [] i) by done. exact IH.
Qed.

(** C10 (amended).  On a table whose arrays have [_capacity] buckets, whose
    counter plus some number [g] of foreign tags equals its claimed slots,
    and whose capacity does not exceed the empty key: a [Populate] of ids
    below the capacity returns, and however its iterations interleave
    [_num_items] does not decrease.  With [num_input = 0] the call returns
    the table it was given, on every table and under every schedule. *)
Theorem Populate_num_items_monotone (g : N) (t : ParallelHashTable)
    (input : list IdType) :
  kEmptyKey < IdType_modulus -> _capacity t <= kEmptyKey ->
  Forall (fun x => x < _capacity t) input ->
  counted g t ->
  (exists t', Populate t input (N.of_nat (length input)) = Done t') /\
  (forall t', Populate_returns t input (N.of_nat (length input)) t' ->
     _num_items t <= _num_items t') /\
  (forall (u : ParallelHashTable) ids,
     Populate u ids 0 = Done u /\
     forall u', Populate_returns u ids 0 u' -> u' = u).
Proof.
  intros HkM Hck Hin Hc. split_and!.
  - by eapply Populate_total_counted.
  - intros t' Hret.
    by destruct (Populate_returns_counted g t t' input HkM Hck Hin Hc Hret) as (_ & _ & ?).
  - intros u ids. split; [reflexivity|].
    intros u' (sched & ps & Hrun & _). unfold Populate_start in Hrun.
    change (AtStart <$> seq 0 (N.to_nat 0)) with (@nil pc) in Hrun.
    rewrite run_no_threads in Hrun. by simplify_eq.
Qed.

(** ** MapNodes and MapEdges *)

Lemma MapNodes_body_at (t : ParallelHashTable) (i : nat) (output : list IdType)
    (b : BucketN2O) :
  _n2o_table t !! i = Some b -> (i < length output)%nat ->
  MapNodes_body t i output = Done (<[i:=global b]> output).
Proof. intros Hb Hi. unfold MapNodes_body. by rewrite Hb, decide_True. Qed.

Lemma MapEdges_body_at (t : ParallelHashTable) (src dst : list IdType) (i : nat)
    (out : list IdType * list IdType) (s d : IdType) (bucket0 bucket1 : BukcetO2N) :
  src !! i = Some s -> dst !! i = Some d ->
  s < _capacity t -> d < _capacity t ->
  o2n_at t s = Some bucket0 -> o2n_at t d = Some bucket1 ->
  (i < length (fst out))%nat -> (i < length (snd out))%nat ->
  MapEdges_body t src dst i out
  = Done (<[i:=local bucket0]> (fst out), <[i:=local bucket1]> (snd out)).
Proof.
  unfold o2n_at. intros Hs Hd Hsc Hdc Hb0 Hb1 H1 H2. unfold MapEdges_body.
  rewrite Hs, Hd, Hb0, Hb1.
  rewrite (proj2 (N.ltb_lt _ _) Hsc), (proj2 (N.ltb_lt _ _) Hdc).
  by rewrite decide_True.
Qed.

Lemma MapNodes_loop (t : ParallelHashTable) (m j : nat) (output : list IdType) :
  (j + m <= length output)%nat -> (j + m <= length (_n2o_table t))%nat ->
  exists out,
    for_each (MapNodes_body t) (seq j m) output = Done out /\
    length out = length output /\
    (forall i, (j <= i < j + m)%nat -> out !! i = global <$> _n2o_table t !! i) /\
    (forall i, ~ (j <= i < j + m)%nat -> out !! i = output !! i).
Proof.
  revert j output. induction m as [|m IH]; intros j output Hout Hn2o.
  - exists output. cbn. split_and!; auto. intros i Hi. lia.
  - cbn [seq for_each].
    destruct (lookup_lt_is_Some_2 (_n2o_table t) j) as [b Hb]; [lia|].
    rewrite (MapNodes_body_at t j output b Hb) by lia.
    destruct (IH (S j) (<[j:=global b]> output)) as (out & Hrun & Hlen & Hin & Hout');
      rewrite ?length_insert; try lia.
    exists out. change (Done ?x ≫= ?f) with (f x). cbn beta.
    rewrite Hrun. rewrite length_insert in Hlen. split_and!; auto.
    + intros i Hi. destruct (decide (i = j)) as [->|Hne].
      * rewrite Hout' by lia. rewrite list_lookup_insert_eq by lia. by rewrite Hb.
      * apply Hin. lia.
    + intros i Hi. rewrite Hout' by lia. apply list_lookup_insert_ne. lia.
Qed.

Lemma MapEdges_loop (t : ParallelHashTable) (src dst : list IdType) (m j : nat)
    (new_src new_dst : list IdType) :
  length (_o2n_table t) = N.to_nat (_capacity t) ->
  (j + m <= length src)%nat -> (j + m <= length dst)%nat ->
  (j + m <= length new_src)%nat -> (j + m <= length new_dst)%nat ->
  (forall i s, (j <= i < j + m)%nat -> src !! i = Some s -> s < _capacity t) ->
  (forall i d, (j <= i < j + m)%nat -> dst !! i = Some d -> d < _capacity t) ->
  exists out_src out_dst,
    for_each (MapEdges_body t src dst) (seq j m) (new_src, new_dst)
    = Done (out_src, out_dst) /\
    length out_src = length new_src /\ length out_dst = length new_dst /\
    (forall i, (j <= i < j + m)%nat ->
       exists s d bucket0 bucket1,
         src !! i = Some s /\ dst !! i = Some d /\
         o2n_at t s = Some bucket0 /\ o2n_at t d = Some bucket1 /\
         out_src !! i = Some (local bucket0) /\
         out_dst !! i = Some (local bucket1)) /\
    (forall i, ~ (j <= i < j + m)%nat ->
       out_src !! i = new_src !! i /\ out_dst !! i = new_dst !! i).
Proof.
  intros Ho. revert j new_src new_dst.
  induction m as [|m IH]; intros j ns nd Hs Hd Hns Hnd Hsc Hdc.
  - exists ns, nd. cbn. split_and!; auto. intros i Hi. lia.
  - cbn [seq for_each].
    destruct (lookup_lt_is_Some_2 src j) as [s Hsj]; [lia|].
    destruct (lookup_lt_is_Some_2 dst j) as [d Hdj]; [lia|].
    pose proof (Hsc j s ltac:(lia) Hsj) as Hs1.
    pose proof (Hdc j d ltac:(lia) Hdj) as Hd1.
    destruct (lookup_lt_is_Some_2 (_o2n_table t) (N.to_nat s)) as [b0 Hb0]; [lia|].
    destruct (lookup_lt_is_Some_2 (_o2n_table t) (N.to_nat d)) as [b1 Hb1]; [lia|].
    rewrite (MapEdges_body_at t src dst j (ns, nd) s d b0 b1) by (auto; simpl; lia).
    cbn [fst snd].
    destruct (IH (S j) (<[j:=local b0]> ns) (<[j:=local b1]> nd))
      as (os & od & Hrun & Hlen1 & Hlen2 & Hin & Hout);
      rewrite ?length_insert; try lia.
    { intros i s' Hi. apply Hsc. lia. }
    { intros i d' Hi. apply Hdc. lia. }
    exists os, od. change (Done ?x ≫= ?f) with (f x). cbn beta.
    rewrite Hrun. rewrite length_insert in Hlen1, Hlen2. split_and!; auto.
    + intros i Hi. destruct (decide (i = j)) as [->|Hne].
      * exists s, d, b0, b1. destruct (Hout j ltac:(lia)) as [H1 H2].
        rewrite H1, H2, !list_lookup_insert_eq by lia. split_and!; auto.
      * apply Hin. lia.
    + intros i Hi. destruct (Hout i ltac:(lia)) as [H1 H2].
      rewrite H1, H2, !list_lookup_insert_ne by lia. done.
Qed.

(** C3.  [MapNodes] on a well-formed table, with an output array that has
    room for [num_ouput] entries.  If [num_ouput <= _num_items] it returns,
    the table is the one it was given, and [output[i]] is
    [_n2o_table[i].global] for every [i < num_ouput], the rest of the array
    being left as it was.  If [num_ouput > _num_items] the check fails before
    the loop: the outcome is [Fatal] whatever the output array is, even one
    with no room at all, so no entry is written. *)
Theorem MapNodes_contract (t : ParallelHashTable) (output : list IdType) (num_ouput : N) :
  well_formed t -> (N.to_nat num_ouput <= length output)%nat ->
  (num_ouput <= _num_items t ->
   exists out,
     MapNodes t output num_ouput = Done (t, out) /\
     length out = length output /\
     (forall i, (i < N.to_nat num_ouput)%nat ->
        out !! i = global <$> _n2o_table t !! i /\ is_Some (out !! i)) /\
     (forall i, (N.to_nat num_ouput <= i)%nat -> out !! i = output !! i)) /\
  (_num_items t < num_ouput ->
   forall buffer, MapNodes t buffer num_ouput = Fatal).
Proof.
  intros (Ho & Hn & Hnum) Hout. split.
  - intros Hle. unfold MapNodes, for_loop.
    rewrite (proj2 (N.leb_le _ _) Hle).
    destruct (MapNodes_loop t (N.to_nat num_ouput) 0 output)
      as (out & Hrun & Hlen & Hin & Hrest); [lia..|].
    exists out. rewrite Hrun. split_and!; auto.
    + intros i Hi. split; [apply Hin; lia|].
      apply lookup_lt_is_Some_2. lia.
    + intros i Hi. apply Hrest. lia.
  - intros Hlt buffer. unfold MapNodes.
    by rewrite (proj2 (N.leb_gt _ _) Hlt).
Qed.

(** C4.  [MapEdges] on a table whose origin array has [_capacity] buckets,
    for [len] edges whose ids are all below [_capacity] and output arrays
    with room for [len] entries: the call returns, and for every [i < len]
    the outputs hold [_o2n_table[src[i]].local] and
    [_o2n_table[dst[i]].local]. *)
Theorem MapEdges_correct (t : ParallelHashTable) (src dst : list IdType) (len : N)
    (new_src new_dst : list IdType) :
  length (_o2n_table t) = N.to_nat (_capacity t) ->
  length src = N.to_nat len -> length dst = N.to_nat len ->
  (N.to_nat len <= length new_src)%nat -> (N.to_nat len <= length new_dst)%nat ->
  Forall (fun x => x < _capacity t) src -> Forall (fun x => x < _capacity t) dst ->
  exists out_src out_dst,
    MapEdges t src dst len new_src new_dst = Done (t, (out_src, out_dst)) /\
    forall i, (i < N.to_nat len)%nat ->
      exists s d bucket0 bucket1,
        src !! i = Some s /\ dst !! i = Some d /\
        o2n_at t s = Some bucket0 /\ o2n_at t d = Some bucket1 /\
        out_src !! i = Some (local bucket0) /\
        out_dst !! i = Some (local bucket1).
Proof.
  intros Ho Hs Hd Hns Hnd Hsc Hdc. unfold MapEdges, for_loop.
  destruct (MapEdges_loop t src dst (N.to_nat len) 0 new_src new_dst)
    as (os & od & Hrun & _ & _ & Hin & _); auto; try lia.
  { intros i s _ Hi. by apply (Forall_lookup_1 _ _ _ _ Hsc Hi). }
  { intros i d _ Hi. by apply (Forall_lookup_1 _ _ _ _ Hdc Hi). }
  exists os, od. rewrite Hrun. split; [done|].
  intros i Hi. apply Hin. lia.
Qed.

(** C9.  [MapEdges] never changes the table.  Whenever it returns, the table
    it hands back is the one it was given, field by field; and with ids below
    [_capacity] and output arrays with room for [len] entries it does return,
    the output arrays keep their lengths and every entry from [len] on. *)
Theorem MapEdges_frame (t : ParallelHashTable) (src dst : list IdType) (len : N)
    (new_src new_dst : list IdType) :
  length (_o2n_table t) = N.to_nat (_capacity t) ->
  length src = N.to_nat len -> length dst = N.to_nat len ->
  (N.to_nat len <= length new_src)%nat -> (N.to_nat len <= length new_dst)%nat ->
  Forall (fun x => x < _capacity t) src -> Forall (fun x => x < _capacity t) dst ->
  exists t' out_src out_dst,
    MapEdges t src dst len new_src new_dst = Done (t', (out_src, out_dst)) /\
    _o2n_table t' = _o2n_table t /\ _n2o_table t' = _n2o_table t /\
    _num_items t' = _num_items t /\ _capacity t' = _capacity t /\
    length out_src = length new_src /\ length out_dst = length new_dst /\
    forall i, (N.to_nat len <= i)%nat ->
      out_src !! i = new_src !! i /\ out_dst !! i = new_dst !! i.
Proof.
  intros Ho Hs Hd Hns Hnd Hsc Hdc. unfold MapEdges, for_loop.
  destruct (MapEdges_loop t src dst (N.to_nat len) 0 new_src new_dst)
    as (os & od & Hrun & Hl1 & Hl2 & _ & Hout); auto; try lia.
  { intros i s _ Hi. by apply (Forall_lookup_1 _ _ _ _ Hsc Hi). }
  { intros i d _ Hi. by apply (Forall_lookup_1 _ _ _ _ Hdc Hi). }
  exists t, os, od. rewrite Hrun. split_and!; auto.
  intros i Hi. apply Hout. lia.
Qed.

(** ** Two runs of the same loop *)


Lemma agree_Permutation (ps ps' : list pc) (t1 t2 : ParallelHashTable) :
  ps ≡ₚ ps' -> agree ps t1 t2 -> agree ps' t1 t2.
Proof.
  intros H (Hc & Ho & Hn & Hnum & Htag & Hb). unfold agree. split_and!; auto.
  intros x b Hx Hcl. destruct (Hb x b Hx Hcl) as [?|[?|[l ?]]]; auto.
  - right. left. by rewrite <- H.
  - right. right. exists l. by rewrite <- H.
Qed.

Lemma agree_focus (input : list IdType) (t1 t2 t1' : ParallelHashTable) (p p' : pc)
    (rest : list pc) :
  agree (p :: rest) t1 t2 ->
  thread_step input t1 p = Done (t1', p') ->
  exists t2', thread_step input t2 p = Done (t2', p') /\ agree (p' :: rest) t1' t2'.
Proof.
  intros (Hc & Ho & Hn & Hnum & Htag & Hb) Hstep.
  assert (Hrest : forall x b, o2n_at t1 x = Some b -> claimed b ->
            p <> AtFetchAdd x -> (forall l, p <> AtStoreLocal x l) ->
            o2n_at t2 x = Some b \/ AtFetchAdd x ∈ p' :: rest \/
            exists l, AtStoreLocal x l ∈ p' :: rest).
  { intros x b Hx Hcl Hp1 Hp2. destruct (Hb x b Hx Hcl) as [?|[H|[l H]]]; auto.
    - apply elem_of_cons in H as [H|H]; [congruence|]. right. left. set_solver.
    - apply elem_of_cons in H as [H|H]; [by destruct (Hp2 l)|].
      right. right. exists l. set_solver. }
  destruct p as [i|x|x|x l|x l|]; cbn [thread_step] in *.
  - destruct (input !! i) as [x|]; [|done]. rewrite <- Hc.
    destruct (x <? _capacity t1); [|done]. simplify_eq.
    exists t2. split; [done|]. unfold agree. split_and!; auto.
  - unfold sync_val_compare_and_swap_id in *.
    pose proof (Htag x) as Hx. unfold o2n_at in Hx.
    destruct (_o2n_table t1 !! N.to_nat x) as [b1|] eqn:Hb1; [|done].
    destruct (_o2n_table t2 !! N.to_nat x) as [b2|] eqn:Hb2; [|done].
    cbn in Hx. injection Hx as Hx. rewrite <- Hx. cbn in Hstep |- *.
    destruct (id b1 =? kEmptyKey) eqn:Hkey; cbn in Hstep |- *;
      rewrite ?Hkey in Hstep |- *; simplify_eq.
    + eexists. split; [done|]. unfold agree. split_and!; auto.
      * cbn. by rewrite !length_insert.
      * intros y. rewrite !o2n_at_insert. case_decide; [|done].
        repeat case_decide; try done; apply lookup_lt_Some in Hb1, Hb2; lia.
      * intros y b. rewrite !o2n_at_insert. case_decide as Hxy.
        -- subst y. intros _ _. right. left. set_solver.
        -- intros Hy Hcl. by apply Hrest.
    + eexists. split; [done|]. unfold agree. split_and!; auto.
      all: intros y b Hy Hcl; by apply Hrest.
  - unfold sync_fetch_and_add_num_items in *. simplify_eq. rewrite <- Hnum.
    eexists. split; [done|]. unfold agree. split_and!; auto.
    intros y b Hy Hcl. destruct (decide (y = x)) as [->|Hne].
    + right. right. exists (_num_items t1). set_solver.
    + apply Hrest; auto. congruence.
  - unfold store_local in *.
    pose proof (Htag x) as Hx. unfold o2n_at in Hx.
    destruct (_o2n_table t1 !! N.to_nat x) as [b1|] eqn:Hb1; [|done].
    destruct (_o2n_table t2 !! N.to_nat x) as [b2|] eqn:Hb2; [|done].
    cbn in Hx. injection Hx as Hx. rewrite <- Hx. cbn in Hstep |- *. simplify_eq.
    eexists. split; [done|]. unfold agree. split_and!; auto.
    + cbn. by rewrite !length_insert.
    + intros y. rewrite !o2n_at_insert. case_decide; [|done].
      repeat case_decide; try done; apply lookup_lt_Some in Hb1, Hb2; lia.
    + intros y b. rewrite !o2n_at_insert. case_decide as Hxy.
      * subst y. apply lookup_lt_Some in Hb1, Hb2.
        rewrite !decide_True by lia. intros [= <-] _. by left.
      * intros Hy Hcl. apply Hrest; auto. congruence.
  - unfold store_global in *. rewrite <- Hn.
    case_decide; [|done]. cbn in Hstep |- *. simplify_eq.
    eexists. split; [done|]. unfold agree. split_and!; auto.
    + cbn. by rewrite !length_insert.
    + intros y b Hy Hcl. by apply Hrest.
  - simplify_eq. exists t2. split; [done|]. unfold agree. split_and!; auto.
Qed.

Lemma agree_run (input : list IdType) (sched : list nat) (t1 t2 t1' : ParallelHashTable)
    (ps ps' : list pc) :
  agree ps t1 t2 ->
  run input sched (t1, ps) = Done (t1', ps') ->
  exists t2', run input sched (t2, ps) = Done (t2', ps') /\ agree ps' t1' t2'.
Proof.
  revert t1 t2 ps. induction sched as [|i sched IH]; intros t1 t2 ps Ha Hrun.
  - cbn in *. simplify_eq. by exists t2.
  - unfold run in *. cbn [for_each] in *.
    destruct (ps !! i) as [p|] eqn:Hp.
    + rewrite (sched_step_at input t1 ps i p Hp) in Hrun.
      rewrite (sched_step_at input t2 ps i p Hp).
      destruct (thread_step input t1 p) as [[u1 p1]| |] eqn:Hts; try done.
      destruct (insert_Permutation ps i p Hp) as (rest & H1 & H2).
      destruct (agree_focus input t1 t2 u1 p p1 rest
                  (agree_Permutation _ _ _ _ H1 Ha) Hts) as (u2 & Hts2 & Ha2).
      rewrite Hts2. cbn in Hrun |- *. eapply IH; [|exact Hrun].
      eapply agree_Permutation; [|exact Ha2]. symmetry. apply H2.
    + rewrite (sched_step_none input t1 ps i Hp) in Hrun.
      rewrite (sched_step_none input t2 ps i Hp).
      cbn in Hrun |- *. by eapply IH.
Qed.

(** C6.  On a table whose origin array has [_capacity] buckets, [Reset]
    returns; afterwards [_num_items] is 0 and every origin tag is the empty
    key, while the local field of every origin slot, the whole local array
    and the capacity are as before.  A [Populate] of a single id [x] right
    after it gives [x] the index 0, whatever index [x] had.  More generally
    the indices handed out after a [Reset] do not depend on what the table
    held before: a table [u] of the same size, reset and run through the same
    schedule of the same call, ends with the same counter and the same bucket
    in every claimed slot. *)
Theorem Reset_clears (t : ParallelHashTable) :
  length (_o2n_table t) = N.to_nat (_capacity t) ->
  exists t',
    Reset t = Done t' /\
    _num_items t' = 0 /\
    Forall (fun b => id b = kEmptyKey) (_o2n_table t') /\
    (forall i b, _o2n_table t !! i = Some b ->
       _o2n_table t' !! i = Some {| id := kEmptyKey; local := local b |}) /\
    length (_o2n_table t') = length (_o2n_table t) /\
    _n2o_table t' = _n2o_table t /\
    _capacity t' = _capacity t /\
    (forall x, x < _capacity t ->
       length (_n2o_table t) = N.to_nat (_capacity t) ->
       exists t'',
         Populate t' [x] 1 = Done t'' /\
         o2n_at t'' x = Some {| id := x; local := 0 |} /\
         n2o_at t'' 0 = Some {| global := x |}) /\
    (forall u u' input num_input sched t'' ps,
       length (_o2n_table u) = N.to_nat (_capacity u) ->
       _capacity u = _capacity t ->
       length (_n2o_table u) = length (_n2o_table t) ->
       Reset u = Done u' ->
       run input sched (Populate_start t' num_input) = Done (t'', ps) ->
       all_ended ps ->
       exists u'',
         run input sched (Populate_start u' num_input) = Done (u'', ps) /\
         _num_items u'' = _num_items t'' /\
         forall x b, o2n_at t'' x = Some b -> id b <> kEmptyKey ->
           o2n_at u'' x = Some b).
Proof.
  intros Ho. eexists. split; [by apply Reset_Done|]. cbn.
  assert (Hempty : forall l : list BukcetO2N,
            Forall (fun b => id b = kEmptyKey) (emptied <$> l)).
  { intros l. apply Forall_fmap, Forall_forall. done. }
  split_and!; auto.
  - intros i b Hb. by rewrite list_lookup_fmap, Hb.
  - by rewrite length_fmap.
  - intros x Hx Hn.
    destruct (lookup_lt_is_Some_2 (_o2n_table t) (N.to_nat x)) as [b Hb]; [lia|].
    eexists. unfold Populate, for_loop.
    change (N.to_nat 1) with 1%nat. cbn [seq for_each].
    rewrite (Populate_body_wins [x] 0 x _ (emptied b)); cbn; auto; try lia.
    + split; [done|]. unfold o2n_at, n2o_at. cbn.
      rewrite !list_lookup_insert_eq; auto; rewrite ?length_fmap; lia.
    + unfold o2n_at. cbn. by rewrite list_lookup_fmap, Hb.
  - intros u u' input n sched t'' ps Hou Hcu Hnu Hru Hrun Hend.
    rewrite (Reset_Done u Hou) in Hru. simplify_eq.
    unfold Populate_start in *.
    edestruct (agree_run input sched) as (u'' & Hrun2 & Ha); [|exact Hrun|].
    2:{ exists u''. split; [exact Hrun2|].
        destruct Ha as (_ & _ & _ & Hnum & _ & Hb). split; [done|].
        intros x b Hx Hcl. destruct (Hb x b Hx Hcl) as [?|[H|[l H]]]; auto.
        - by apply (proj1 (Forall_forall _ _) Hend) in H.
        - by apply (proj1 (Forall_forall _ _) Hend) in H. }
    unfold agree. cbn. split_and!; auto.
    + rewrite !length_fmap. lia.
    + intros x. unfold o2n_at; cbn. rewrite !list_lookup_fmap.
      destruct (_o2n_table t !! N.to_nat x) eqn:H1;
        destruct (_o2n_table u !! N.to_nat x) eqn:H2; cbn; auto;
        apply lookup_lt_Some in H1 || apply lookup_lt_Some in H2;
        apply lookup_ge_None in H1 || apply lookup_ge_None in H2; lia.
    + intros x b. unfold o2n_at; cbn. rewrite list_lookup_fmap.
      destruct (_o2n_table t !! N.to_nat x); cbn; [|done].
      intros [= <-] Hcl. by destruct Hcl.
Qed.

(** An iteration that finds its slot claimed changes nothing. *)
Lemma Populate_body_loses (input : list IdType) (i : nat) (x : IdType)
    (t : ParallelHashTable) (b : BukcetO2N) :
  input !! i = Some x -> x < _capacity t ->
  o2n_at t x = Some b -> id b <> kEmptyKey ->
  Populate_body input i t = Done t.
Proof.
  unfold o2n_at. intros Hi Hx Hb Hid. unfold Populate_body. rewrite Hi.
  rewrite (proj2 (N.ltb_lt _ _) Hx).
  unfold sync_val_compare_and_swap_id. rewrite Hb.
  apply N.eqb_neq in Hid. rewrite Hid. cbn. by rewrite Hid.
Qed.

(** C8 (amended).  For a capacity [sz] whose origin array fits the range of
    [size_t] in bytes, the constructor asks the device layer for exactly
    [sz * sizeof(BukcetO2N)] and [sz * sizeof(BucketN2O)] bytes, and when the
    two calls return it returns the table that holds the two blocks as they
    were handed back, with [_num_items] 0 and [_capacity] [sz].  With a
    device layer that hands back blocks of the size asked for, each array
    has [sz] buckets and the table is well formed.  No origin tag is
    written: a slot whose tag the allocator left different from the empty
    key is taken as claimed by a [Populate] that follows without a [Reset],
    which then returns the table unchanged.  The constructor fails only when
    a call of the device layer does. *)
Theorem constructor_state (sizeof_IdType size_t_modulus : N) (dev : Device) (sz : N) :
  0 < sizeof_IdType ->
  sz * sizeof_BukcetO2N sizeof_IdType < size_t_modulus ->
  alloc_bytes size_t_modulus sz (sizeof_BukcetO2N sizeof_IdType)
  = sz * sizeof_BukcetO2N sizeof_IdType /\
  alloc_bytes size_t_modulus sz (sizeof_BucketN2O sizeof_IdType)
  = sz * sizeof_BucketN2O sizeof_IdType /\
  (forall o2n_mem n2o_mem,
     AllocDataSpace_o2n dev (sz * sizeof_BukcetO2N sizeof_IdType) = Done o2n_mem ->
     AllocDataSpace_n2o dev (sz * sizeof_BucketN2O sizeof_IdType) = Done n2o_mem ->
     new_ParallelHashTable sizeof_IdType size_t_modulus dev sz
     = Done {| _o2n_table := o2n_mem; _n2o_table := n2o_mem;
               _num_items := 0; _capacity := sz |}) /\
  (forall t,
     new_ParallelHashTable sizeof_IdType size_t_modulus dev sz = Done t ->
     AllocDataSpace_o2n dev (sz * sizeof_BukcetO2N sizeof_IdType)
     = Done (_o2n_table t) /\
     AllocDataSpace_n2o dev (sz * sizeof_BucketN2O sizeof_IdType)
     = Done (_n2o_table t) /\
     _num_items t = 0 /\ _capacity t = sz /\
     (allocates_request sizeof_IdType dev ->
        length (_o2n_table t) = N.to_nat sz /\
        length (_n2o_table t) = N.to_nat sz /\
        well_formed t /\ counted (num_claimed t) t) /\
     (forall x b, x < sz -> o2n_at t x = Some b -> id b <> kEmptyKey ->
        Populate t [x] 1 = Done t)) /\
  ((forall o2n_mem,
      AllocDataSpace_o2n dev (sz * sizeof_BukcetO2N sizeof_IdType) <> Done o2n_mem) \/
   (forall n2o_mem,
      AllocDataSpace_n2o dev (sz * sizeof_BucketN2O sizeof_IdType) <> Done n2o_mem) ->
   forall t, new_ParallelHashTable sizeof_IdType size_t_modulus dev sz <> Done t).
Proof.
  intros Hsize Hfit. unfold sizeof_BukcetO2N, sizeof_BucketN2O in *.
  assert (E1 : alloc_bytes size_t_modulus sz (2 * sizeof_IdType)
               = sz * (2 * sizeof_IdType)).
  { unfold alloc_bytes. apply N.mod_small. lia. }
  assert (E2 : alloc_bytes size_t_modulus sz sizeof_IdType = sz * sizeof_IdType).
  { unfold alloc_bytes. apply N.mod_small. nia. }
  unfold new_ParallelHashTable, sizeof_BukcetO2N, sizeof_BucketN2O.
  rewrite E1, E2. split_and!; [done|done|..].
  - intros o2n_mem n2o_mem -> ->. done.
  - intros t Ht.
    destruct (AllocDataSpace_o2n dev _) as [o2n_mem| |] eqn:Ho; [|done..].
    destruct (AllocDataSpace_n2o dev _) as [n2o_mem| |] eqn:Hn; [|done..].
    cbn in Ht. simplify_eq. cbn [_o2n_table _n2o_table _num_items _capacity].
    split_and!; [done..| |].
    + intros [Halo Haln]. unfold sizeof_BukcetO2N, sizeof_BucketN2O in *.
      assert (Hlo : length o2n_mem = N.to_nat sz).
      { rewrite (Halo _ _ Ho), N.div_mul by lia. done. }
      assert (Hln : length n2o_mem = N.to_nat sz).
      { rewrite (Haln _ _ Hn), N.div_mul by lia. done. }
      unfold well_formed, counted. cbn. split_and!; auto; lia.
    + intros x b Hx Hb Hid. unfold Populate, for_loop.
      change (N.to_nat 1) with 1%nat. cbn [seq for_each].
      by rewrite (Populate_body_loses [x] 0 x _ b).
  - intros [Hfail|Hfail] t Ht.
    + destruct (AllocDataSpace_o2n dev _) as [o2n_mem| |] eqn:Ho; [|done..].
      by destruct (Hfail o2n_mem).
    + destruct (AllocDataSpace_o2n dev _) as [o2n_mem| |] eqn:Ho; [|done..].
      destruct (AllocDataSpace_n2o dev _) as [n2o_mem| |] eqn:Hn; [|done..].
      by destruct (Hfail n2o_mem).
Qed.

(** ** The bounds checks *)

Lemma thread_step_capacity (input : list IdType) (t t' : ParallelHashTable) (p p' : pc) :
  thread_step input t p = Done (t', p') -> _capacity t' = _capacity t.
Proof.
  intros Hstep. destruct p as [i|x|x|x l|x l|]; cbn [thread_step] in Hstep.
  - destruct (input !! i) as [x|]; [|done].
    destruct (x <? _capacity t); by simplify_eq.
  - unfold sync_val_compare_and_swap_id in Hstep.
    destruct (_o2n_table t !! N.to_nat x) as [b|]; [|done].
    destruct (id b =? kEmptyKey); cbn in Hstep; by simplify_eq.
  - unfold sync_fetch_and_add_num_items in Hstep. by simplify_eq.
  - unfold store_local in Hstep.
    destruct (_o2n_table t !! N.to_nat x) as [b|]; cbn in Hstep; by simplify_eq.
  - unfold store_global in Hstep. case_decide; cbn in Hstep; by simplify_eq.
  - by simplify_eq.
Qed.

(** The check of an iteration fails exactly when its id is not below the
    capacity; the id is compared as it is. *)
Lemma thread_step_Fatal (input : list IdType) (t : ParallelHashTable) (p : pc) :
  thread_step input t p = Fatal <->
  exists i x, p = AtStart i /\ input !! i = Some x /\ _capacity t <= x.
Proof.
  split.
  - intros Hstep. destruct p as [i|x|x|x l|x l|]; cbn [thread_step] in Hstep.
    + destruct (input !! i) as [x|] eqn:Hx; [|done].
      destruct (N.ltb_spec x (_capacity t)); [done|]. eauto.
    + unfold sync_val_compare_and_swap_id in Hstep.
      destruct (_o2n_table t !! N.to_nat x) as [b|]; [|done].
      destruct (id b =? kEmptyKey); cbn in Hstep; done.
    + unfold sync_fetch_and_add_num_items in Hstep. done.
    + unfold store_local in Hstep.
      destruct (_o2n_table t !! N.to_nat x) as [b|]; cbn in Hstep; done.
    + unfold store_global in Hstep. case_decide; cbn in Hstep; done.
    + done.
  - intros (i & x & -> & Hx & Hc). cbn [thread_step]. rewrite Hx.
    by rewrite (proj2 (N.ltb_ge _ _) Hc).
Qed.

Lemma run_no_Fatal (input : list IdType) (sched : list nat) (c : config) :
  Forall (fun x => x < _capacity (fst c)) input -> run input sched c <> Fatal.
Proof.
  revert c. induction sched as [|i sched IH]; intros [t ps] Hin; [done|].
  unfold run in *. cbn [for_each fst] in *.
  destruct (ps !! i) as [p|] eqn:Hp.
  - rewrite (sched_step_at input t ps i p Hp).
    destruct (thread_step input t p) as [[t' p']| |] eqn:Hts; cbn; [| |done].
    + apply IH. cbn [fst]. by rewrite (thread_step_capacity _ _ _ _ _ Hts).
    + apply thread_step_Fatal in Hts as (j & x & _ & Hx & Hc).
      pose proof (Forall_lookup_1 _ _ _ _ Hin Hx) as Hlt. cbn in Hlt. lia.
  - rewrite (sched_step_none input t ps i Hp). cbn. by apply IH.
Qed.

(** An iteration whose id is not below the capacity never gets past its
    check. *)
Lemma run_stuck (input : list IdType) (sched : list nat) (c c' : config)
    (i : nat) (x : IdType) :
  input !! i = Some x -> _capacity (fst c) <= x ->
  snd c !! i = Some (AtStart i) ->
  run input sched c = Done c' ->
  snd c' !! i = Some (AtStart i) /\ _capacity (fst c') = _capacity (fst c).
Proof.
  intros Hx. revert c. induction sched as [|j sched IH]; intros [t ps] Hc Hi Hrun.
  - cbn in Hrun. by simplify_eq.
  - unfold run in *. cbn [for_each fst snd] in *.
    destruct (ps !! j) as [p|] eqn:Hp.
    + rewrite (sched_step_at input t ps j p Hp) in Hrun.
      destruct (thread_step input t p) as [[t' p']| |] eqn:Hts; cbn in Hrun; try done.
      pose proof (thread_step_capacity _ _ _ _ _ Hts) as Hcap.
      destruct (decide (j = i)) as [->|Hne].
      * simplify_eq. cbn [thread_step] in Hts. rewrite Hx in Hts.
        by rewrite (proj2 (N.ltb_ge _ _) Hc) in Hts.
      * destruct (IH (t', <[j:=p']> ps)) as [H1 H2]; cbn [fst snd]; auto.
        -- by rewrite Hcap.
        -- by rewrite list_lookup_insert_ne.
        -- split; [done|]. cbn [fst] in H2. congruence.
    + rewrite (sched_step_none input t ps j Hp) in Hrun. cbn in Hrun.
      by apply (IH (t, ps)).
Qed.

Lemma Populate_body_ext (input : list IdType) (i : nat) (x : IdType)
    (t : ParallelHashTable) :
  input !! i = Some x -> Populate_body input i t = Populate_body [x] 0 t.
Proof. intros Hi. unfold Populate_body. by rewrite Hi. Qed.

Lemma Populate_body_Fatal (input : list IdType) (i : nat) (x : IdType)
    (t : ParallelHashTable) :
  input !! i = Some x -> _capacity t <= x -> Populate_body input i t = Fatal.
Proof.
  intros Hi Hx. unfold Populate_body. by rewrite Hi, (proj2 (N.ltb_ge _ _) Hx).
Qed.

Lemma MapEdges_body_Fatal_src (t : ParallelHashTable) (src dst : list IdType) (i : nat)
    (out : list IdType * list IdType) (s : IdType) :
  src !! i = Some s -> _capacity t <= s -> MapEdges_body t src dst i out = Fatal.
Proof.
  intros Hi Hx. unfold MapEdges_body. by rewrite Hi, (proj2 (N.ltb_ge _ _) Hx).
Qed.

Lemma MapEdges_body_Fatal_dst (t : ParallelHashTable) (src dst : list IdType) (i : nat)
    (out : list IdType * list IdType) (s d : IdType) :
  src !! i = Some s -> s < _capacity t ->
  dst !! i = Some d -> _capacity t <= d -> MapEdges_body t src dst i out = Fatal.
Proof.
  intros Hs Hsc Hd Hdc. unfold MapEdges_body.
  by rewrite Hs, Hd, (proj2 (N.ltb_lt _ _) Hsc), (proj2 (N.ltb_ge _ _) Hdc).
Qed.

Lemma Populate_body_counted (g : N) (input : list IdType) (i : nat) (x : IdType)
    (t : ParallelHashTable) :
  kEmptyKey < IdType_modulus -> _capacity t <= kEmptyKey ->
  counted g t -> input !! i = Some x -> x < _capacity t ->
  exists t', Populate_body input i t = Done t' /\ counted g t' /\
             _capacity t' = _capacity t.
Proof.
  intros HkM Hck Hc Hi Hx. rewrite (Populate_body_ext input i x t Hi).
  assert (Hin : Forall (fun y => y < _capacity t) [x]) by (by apply Forall_singleton).
  destruct (Populate_total_counted g t [x] HkM Hck Hin Hc) as [t' Ht'].
  destruct (Populate_returns_counted g t t' [x] HkM Hck Hin Hc
              (Populate_Done_returns _ _ _ _ Ht')) as (Hc' & Hcap & _).
  exists t'. split; [|done]. unfold Populate, for_loop in Ht'.
  change (N.to_nat (N.of_nat (length [x]))) with 1%nat in Ht'.
  cbn [seq for_each] in Ht'.
  by destruct (Populate_body [x] 0 t) as [t1| |]; cbn in Ht'; simplify_eq.
Qed.

Lemma Populate_loop_Fatal (g : N) (input : list IdType) (m j : nat)
    (t : ParallelHashTable) :
  kEmptyKey < IdType_modulus -> _capacity t <= kEmptyKey ->
  counted g t ->
  (j + m <= length input)%nat ->
  (exists i x, (j <= i < j + m)%nat /\ input !! i = Some x /\ _capacity t <= x) ->
  for_each (Populate_body input) (seq j m) t = Fatal.
Proof.
  intros HkM. revert j t. induction m as [|m IH]; intros j t Hck Hc Hlen Hbad.
  - destruct Hbad as (i & x & Hi & _). lia.
  - cbn [seq for_each].
    destruct (lookup_lt_is_Some_2 input j) as [y Hy]; [lia|].
    destruct (N.ltb_spec y (_capacity t)) as [Hlt|Hge].
    + destruct (Populate_body_counted g input j y t HkM Hck Hc Hy Hlt)
        as (t1 & Hb & Hc1 & Hcap1).
      rewrite Hb. change (Done t1 ≫= ?f) with (f t1). cbn beta.
      apply IH; rewrite ?Hcap1; auto; [lia|].
      destruct Hbad as (i & x & Hi & Hx & Hcx). exists i, x. split; [|done].
      destruct (decide (i = j)) as [->|?]; [|lia]. simplify_eq. lia.
    + by rewrite (Populate_body_Fatal input j y t Hy Hge).
Qed.

Lemma MapEdges_loop_Fatal (t : ParallelHashTable) (src dst : list IdType) (m j : nat)
    (new_src new_dst : list IdType) :
  length (_o2n_table t) = N.to_nat (_capacity t) ->
  (j + m <= length src)%nat -> (j + m <= length dst)%nat ->
  (j + m <= length new_src)%nat -> (j + m <= length new_dst)%nat ->
  (exists i, (j <= i < j + m)%nat /\
     ((exists s, src !! i = Some s /\ _capacity t <= s) \/
      (exists d, dst !! i = Some d /\ _capacity t <= d))) ->
  for_each (MapEdges_body t src dst) (seq j m) (new_src, new_dst) = Fatal.
Proof.
  intros Ho. revert j new_src new_dst.
  induction m as [|m IH]; intros j ns nd Hs Hd Hns Hnd Hbad.
  - destruct Hbad as (i & Hi & _). lia.
  - cbn [seq for_each].
    destruct (lookup_lt_is_Some_2 src j) as [s Hsj]; [lia|].
    destruct (lookup_lt_is_Some_2 dst j) as [d Hdj]; [lia|].
    destruct (N.ltb_spec s (_capacity t)) as [Hs1|Hs1];
      [destruct (N.ltb_spec d (_capacity t)) as [Hd1|Hd1]|].
    + destruct (lookup_lt_is_Some_2 (_o2n_table t) (N.to_nat s)) as [b0 Hb0]; [lia|].
      destruct (lookup_lt_is_Some_2 (_o2n_table t) (N.to_nat d)) as [b1 Hb1]; [lia|].
      rewrite (MapEdges_body_at t src dst j (ns, nd) s d b0 b1) by (auto; simpl; lia).
      change (Done ?x ≫= ?f) with (f x). cbn beta. cbn [fst snd].
      apply IH; rewrite ?length_insert; try lia.
      destruct Hbad as (i & Hi & Hb). exists i. split; [|done].
      destruct (decide (i = j)) as [->|?]; [|lia].
      destruct Hb as [(s' & ? & ?)|(d' & ? & ?)]; simplify_eq; lia.
    + by rewrite (MapEdges_body_Fatal_dst t src dst j (ns, nd) s d).
    + by rewrite (MapEdges_body_Fatal_src t src dst j (ns, nd) s).
Qed.

(** C5.  The bounds checks of [Populate] and [MapEdges] compare the id as it
    is with [_capacity].

    [Populate]: if every id is below the capacity, no schedule of the loop
    and not the loop in index order ends in [Fatal].  If some [input[i]] is
    equal to the capacity or larger, then whatever the table holds the
    iteration [i] never gets past its check: at every point any schedule
    reaches, its next step is [Fatal]; the call never returns; and on a
    table that satisfies the counting invariant and whose capacity does not
    exceed the empty key the loop in index order ends in [Fatal].

    [MapEdges], on a table whose origin array has [_capacity] buckets, with
    [len] edges and room for [len] outputs: the outcome is [Fatal] exactly
    when some source or destination id is equal to the capacity or larger,
    and the call returns otherwise. *)
Theorem bounds_enforced (t : ParallelHashTable) :
  (forall input,
     Forall (fun x => x < _capacity t) input ->
     Populate t input (N.of_nat (length input)) <> Fatal /\
     forall sched,
       run input sched (Populate_start t (N.of_nat (length input))) <> Fatal) /\
  (forall input i x,
     input !! i = Some x -> _capacity t <= x ->
     (forall sched c,
        run input sched (Populate_start t (N.of_nat (length input))) = Done c ->
        sched_step input i c = Fatal) /\
     (forall t', ~ Populate_returns t input (N.of_nat (length input)) t') /\
     (forall t', Populate t input (N.of_nat (length input)) <> Done t') /\
     (forall g, kEmptyKey < IdType_modulus -> _capacity t <= kEmptyKey ->
        counted g t -> Populate t input (N.of_nat (length input)) = Fatal)) /\
  (forall src dst len new_src new_dst,
     length (_o2n_table t) = N.to_nat (_capacity t) ->
     length src = N.to_nat len -> length dst = N.to_nat len ->
     (N.to_nat len <= length new_src)%nat -> (N.to_nat len <= length new_dst)%nat ->
     (MapEdges t src dst len new_src new_dst = Fatal <->
      (exists i s, src !! i = Some s /\ _capacity t <= s) \/
      (exists i d, dst !! i = Some d /\ _capacity t <= d)) /\
     (MapEdges t src dst len new_src new_dst <> Fatal ->
      exists out, MapEdges t src dst len new_src new_dst = Done (t, out))).
Proof.
  split_and!.
  - intros input Hin.
    assert (Hrun : forall sched,
              run input sched (Populate_start t (N.of_nat (length input))) <> Fatal).
    { intros sched. by apply run_no_Fatal. }
    split; [|done]. intros HF.
    apply (Hrun (in_order (N.of_nat (length input)))).
    by rewrite Populate_in_order, HF.
  - intros input i x Hx Hc.
    assert (Hi : snd (Populate_start t (N.of_nat (length input))) !! i
                 = Some (AtStart i)).
    { unfold Populate_start. cbn [snd]. rewrite Nat2N.id, list_lookup_fmap.
      rewrite lookup_seq_lt by (by eapply lookup_lt_Some). done. }
    assert (Hstuck : forall sched c,
              run input sched (Populate_start t (N.of_nat (length input))) = Done c ->
              snd c !! i = Some (AtStart i) /\ _capacity (fst c) = _capacity t).
    { intros sched c Hrun.
      exact (run_stuck input sched (Populate_start t (N.of_nat (length input))) c
               i x Hx Hc Hi Hrun). }
    assert (Hnot : forall t', ~ Populate_returns t input (N.of_nat (length input)) t').
    { intros t' (sched & ps & Hrun & Hend).
      destruct (Hstuck sched _ Hrun) as [Hps _]. cbn [snd] in Hps.
      by pose proof (Forall_lookup_1 _ _ _ _ Hend Hps). }
    split_and!; auto.
    + intros sched [t' ps] Hrun. destruct (Hstuck sched _ Hrun) as [Hps Hcap].
      cbn [fst snd] in *. rewrite (sched_step_at input t' ps i _ Hps).
      cbn [thread_step]. rewrite Hx, Hcap. by rewrite (proj2 (N.ltb_ge _ _) Hc).
    + intros t' Hp. by apply (Hnot t'), Populate_Done_returns.
    + intros g HkM Hck Hcnt. unfold Populate, for_loop. rewrite Nat2N.id.
      apply (Populate_loop_Fatal g); auto. exists i, x. split_and!; auto; [lia|].
      by eapply lookup_lt_Some.
  - intros src dst len ns nd Ho Hs Hd Hns Hnd.
    assert (Hbad : (exists i s, src !! i = Some s /\ _capacity t <= s) \/
                   (exists i d, dst !! i = Some d /\ _capacity t <= d) ->
                   MapEdges t src dst len ns nd = Fatal).
    { intros Hb. unfold MapEdges, for_loop.
      rewrite (MapEdges_loop_Fatal t src dst (N.to_nat len) 0 ns nd); auto; try lia.
      destruct Hb as [(i & s & Hi & Hc)|(i & d & Hi & Hc)]; exists i;
        (split; [apply lookup_lt_Some in Hi; lia|]); eauto. }
    assert (Hgood : Forall (fun x => x < _capacity t) src ->
                    Forall (fun x => x < _capacity t) dst ->
                    exists out, MapEdges t src dst len ns nd = Done (t, out)).
    { intros H1 H2. unfold MapEdges, for_loop.
      destruct (MapEdges_loop t src dst (N.to_nat len) 0 ns nd)
        as (os & od & Hrun & _); auto; try lia.
      - intros i s _ Hi. by apply (Forall_lookup_1 _ _ _ _ H1 Hi).
      - intros i d _ Hi. by apply (Forall_lookup_1 _ _ _ _ H2 Hi).
      - exists (os, od). by rewrite Hrun. }
    assert (Hcases : ((exists i s, src !! i = Some s /\ _capacity t <= s) \/
                      (exists i d, dst !! i = Some d /\ _capacity t <= d)) \/
                     (Forall (fun x => x < _capacity t) src /\
                      Forall (fun x => x < _capacity t) dst)).
    { destruct (decide (Forall (fun x => x < _capacity t) src)) as [H1|H1];
        [destruct (decide (Forall (fun x => x < _capacity t) dst)) as [H2|H2]|].
      - by right.
      - left. right. apply not_Forall_Exists in H2; [|apply _].
        apply Exists_exists in H2 as (d & Hd1 & Hd2).
        apply list_elem_of_lookup_1 in Hd1 as [i Hi]. exists i, d. split; [done|].
        cbn in Hd2. lia.
      - left. left. apply not_Forall_Exists in H1; [|apply _].
        apply Exists_exists in H1 as (s & Hs1 & Hs2).
        apply list_elem_of_lookup_1 in Hs1 as [i Hi]. exists i, s. split; [done|].
        cbn in Hs2. lia. }
    split.
    + split; [|done]. intros HF. destruct Hcases as [?|[H1 H2]]; [done|].
      destruct (Hgood H1 H2) as [out Hout]. congruence.
    + intros HF. destruct Hcases as [Hb|[H1 H2]]; [by apply Hbad in Hb|].
      by apply Hgood.
Qed.

(** ** The loops of MapNodes, MapEdges and Reset in any order

    The iterations of these loops touch different entries, so the order in
    which a team of threads gets through them does not show in the outcome. *)

Lemma for_each_Permutation {S : Type} (P : S -> Prop) (body : nat -> S -> outcome S)
    (l l' : list nat) :
  (forall i s s', P s -> body i s = Done s' -> P s') ->
  (forall i j s, i ∈ l -> j ∈ l -> P s ->
     (s1 ← body i s; body j s1) = (s1 ← body j s; body i s1)) ->
  l ≡ₚ l' -> forall s, P s -> for_each body l s = for_each body l' s.
Proof.
  intros Hkeep Hcomm Hperm. revert Hcomm.
  induction Hperm as [|x l l' Hperm IH|x y l|l1 l2 l3 H12 IH12 H23 IH23];
    intros Hcomm s Hs.
  - done.
  - cbn [for_each]. destruct (body x s) as [s'| |] eqn:Hx; [|done..]. cbn.
    apply IH; [|by eapply Hkeep].
    intros i j s0 Hi Hj. apply Hcomm; by apply list_elem_of_further.
  - cbn [for_each].
    assert (Hxy : (s1 ← body y s; body x s1) = (s1 ← body x s; body y s1)).
    { apply Hcomm; auto; rewrite !elem_of_cons; auto. }
    destruct (body y s) as [sy| |] eqn:Hy; destruct (body x s) as [sx| |] eqn:Hx;
      cbn in Hxy |- *; try done.
    + destruct (body x sy); destruct (body y sx); cbn in Hxy |- *; by simplify_eq.
    + by destruct (body x sy).
    + by destruct (body x sy).
    + by destruct (body y sx).
    + by destruct (body y sx).
  - rewrite IH12 by done. apply IH23; [|done].
    intros i j s0 Hi Hj. apply Hcomm; by rewrite H12.
Qed.

Lemma Reset_body_commute (i j : nat) (t : ParallelHashTable) :
  (t1 ← Reset_body i t; Reset_body j t1) = (t1 ← Reset_body j t; Reset_body i t1).
Proof.
  destruct (decide (i = j)) as [->|Hij]; [done|].
  unfold Reset_body.
  destruct (_o2n_table t !! i) as [bi|] eqn:Hi;
    destruct (_o2n_table t !! j) as [bj|] eqn:Hj; cbn.
  - rewrite !list_lookup_insert_ne, Hi, Hj by done. cbn.
    unfold set_o2n_table; cbn. by rewrite list_insert_insert_ne.
  - rewrite list_lookup_insert_ne, Hj by done. done.
  - rewrite list_lookup_insert_ne, Hi by done. done.
  - done.
Qed.

(** [Reset] with its iterations in any order. *)
Lemma Reset_any_order (t : ParallelHashTable) (order : list nat) :
  order ≡ₚ seq 0 (N.to_nat (_capacity t)) ->
  for_each Reset_body order (set_num_items t 0) = Reset t.
Proof.
  intros Hperm. unfold Reset, for_loop.
  apply (for_each_Permutation (fun _ => True)); auto.
  intros i j s _ _ _. apply Reset_body_commute.
Qed.

Lemma MapNodes_body_commute (t : ParallelHashTable) (i j : nat) (output : list IdType) :
  (o1 ← MapNodes_body t i output; MapNodes_body t j o1)
  = (o1 ← MapNodes_body t j output; MapNodes_body t i o1).
Proof.
  destruct (decide (i = j)) as [->|Hij]; [done|].
  unfold MapNodes_body.
  destruct (_n2o_table t !! i) as [bi|]; destruct (_n2o_table t !! j) as [bj|];
    cbn; try done.
  - repeat case_decide; cbn; rewrite ?length_insert;
      repeat case_decide; try done; try lia.
    by rewrite list_insert_insert_ne.
  - by case_decide.
  - by case_decide.
Qed.

(** [MapNodes] with the iterations of its loop in any order. *)
Lemma MapNodes_any_order (t : ParallelHashTable) (output : list IdType) (num_ouput : N)
    (order : list nat) :
  order ≡ₚ seq 0 (N.to_nat num_ouput) ->
  (if num_ouput <=? _num_items t then
     out ← for_each (MapNodes_body t) order output; Done (t, out)
   else Fatal)
  = MapNodes t output num_ouput.
Proof.
  intros Hperm. unfold MapNodes, for_loop.
  destruct (num_ouput <=? _num_items t); [|done].
  rewrite (for_each_Permutation (fun _ => True) (MapNodes_body t) order
             (seq 0 (N.to_nat num_ouput))); auto.
  intros i j s _ _ _. apply MapNodes_body_commute.
Qed.

(** An iteration of [MapEdges] within the arrays either fails its check or
    stores its two indices. *)
Lemma MapEdges_body_cases (t : ParallelHashTable) (src dst : list IdType) (i : nat)
    (out : list IdType * list IdType) :
  length (_o2n_table t) = N.to_nat (_capacity t) ->
  (i < length src)%nat -> (i < length dst)%nat ->
  (i < length (fst out))%nat -> (i < length (snd out))%nat ->
  MapEdges_body t src dst i out = Fatal \/
  exists a b, forall o : list IdType * list IdType,
    (i < length (fst o))%nat -> (i < length (snd o))%nat ->
    MapEdges_body t src dst i o = Done (<[i:=a]> (fst o), <[i:=b]> (snd o)).
Proof.
  intros Ho Hs Hd H1 H2.
  destruct (lookup_lt_is_Some_2 src i Hs) as [s Hsi].
  destruct (lookup_lt_is_Some_2 dst i Hd) as [d Hdi].
  destruct (N.ltb_spec s (_capacity t)) as [Hs1|Hs1];
    [destruct (N.ltb_spec d (_capacity t)) as [Hd1|Hd1]|].
  - destruct (lookup_lt_is_Some_2 (_o2n_table t) (N.to_nat s)) as [b0 Hb0]; [lia|].
    destruct (lookup_lt_is_Some_2 (_o2n_table t) (N.to_nat d)) as [b1 Hb1]; [lia|].
    right. exists (local b0), (local b1). intros o Ho1 Ho2.
    by apply (MapEdges_body_at t src dst i o s d b0 b1).
  - left. by apply (MapEdges_body_Fatal_dst t src dst i out s d).
  - left. by apply (MapEdges_body_Fatal_src t src dst i out s).
Qed.

Lemma MapEdges_body_Fatal_any (t : ParallelHashTable) (src dst : list IdType) (i : nat)
    (out out' : list IdType * list IdType) :
  MapEdges_body t src dst i out = Fatal -> MapEdges_body t src dst i out' = Fatal.
Proof.
  unfold MapEdges_body.
  destruct (src !! i) as [s|]; [|done]. destruct (s <? _capacity t); [|done].
  destruct (dst !! i) as [d|]; [|done]. destruct (d <? _capacity t); [|done].
  destruct (_o2n_table t !! N.to_nat s); [|done].
  destruct (_o2n_table t !! N.to_nat d); [|done].
  by case_decide.
Qed.

(** [MapEdges] with the iterations of its loop in any order. *)
Lemma MapEdges_any_order (t : ParallelHashTable) (src dst : list IdType) (len : N)
    (new_src new_dst : list IdType) (order : list nat) :
  length (_o2n_table t) = N.to_nat (_capacity t) ->
  length src = N.to_nat len -> length dst = N.to_nat len ->
  (N.to_nat len <= length new_src)%nat -> (N.to_nat len <= length new_dst)%nat ->
  order ≡ₚ seq 0 (N.to_nat len) ->
  (out ← for_each (MapEdges_body t src dst) order (new_src, new_dst); Done (t, out))
  = MapEdges t src dst len new_src new_dst.
Proof.
  intros Ho Hs Hd Hns Hnd Hperm. unfold MapEdges, for_loop.
  rewrite (for_each_Permutation
             (fun o => length (fst o) = length new_src /\ length (snd o) = length new_dst)
             (MapEdges_body t src dst) order (seq 0 (N.to_nat len))); auto.
  - intros i o o' [H1 H2] Hb. unfold MapEdges_body in Hb.
    destruct (src !! i) as [s|]; [|done]. destruct (s <? _capacity t); [|done].
    destruct (dst !! i) as [d|]; [|done]. destruct (d <? _capacity t); [|done].
    destruct (_o2n_table t !! N.to_nat s); [|done].
    destruct (_o2n_table t !! N.to_nat d); [|done].
    case_decide; [|done]. simplify_eq. cbn. by rewrite !length_insert.
  - intros i j o Hi Hj [H1 H2].
    rewrite Hperm in Hi, Hj. apply elem_of_seq in Hi, Hj.
    destruct (decide (i = j)) as [->|Hij]; [done|].
    destruct (MapEdges_body_cases t src dst i o) as [Fi|(a & b & Di)]; try lia;
      destruct (MapEdges_body_cases t src dst j o) as [Fj|(c & d & Dj)]; try lia.
    + by rewrite Fi, Fj.
    + rewrite Fi, Dj by lia. cbn.
      symmetry. by apply (MapEdges_body_Fatal_any t src dst i o).
    + rewrite Fj, Di by lia. cbn.
      by apply (MapEdges_body_Fatal_any t src dst j o).
    + rewrite Di, Dj by lia. cbn.
      rewrite Di, Dj by (cbn; rewrite length_insert; lia). cbn.
      by rewrite (list_insert_insert_ne _ i j), (list_insert_insert_ne _ i j).
Qed.

(** ** Further properties of Populate and MapNodes *)

(** The loop of [Populate] in index order is one of the schedules of the
    parallel loop: the schedule [in_order] has the outcome of the sequential
    loop, so what the sequential loop returns the parallel loop can return. *)
Theorem Populate_sequential_is_a_schedule (t : ParallelHashTable)
    (input : list IdType) (num_input : N) :
  run input (in_order num_input) (Populate_start t num_input)
  = (t' ← Populate t input num_input;
     Done (t', replicate (N.to_nat num_input) AtEnd)) /\
  forall t', Populate t input num_input = Done t' ->
    Populate_returns t input num_input t'.
Proof.
  split; [apply Populate_in_order|].
  intros t' H. by apply Populate_Done_returns.
Qed.

(** No store of [Populate] leaves the arrays and no check fails: on a table
    that satisfies the counting invariant and whose capacity does not exceed
    the empty key, every schedule of a call with ids below the capacity goes
    through. *)
Theorem Populate_never_fails (g : N) (t : ParallelHashTable) (input : list IdType)
    (sched : list nat) :
  kEmptyKey < IdType_modulus -> _capacity t <= kEmptyKey ->
  Forall (fun x => x < _capacity t) input ->
  counted g t ->
  exists c, run input sched (Populate_start t (N.of_nat (length input))) = Done c.
Proof.
  intros HkM Hck Hin Hc.
  pose proof (safe_run input g sched (Populate_start t (N.of_nat (length input)))
                HkM Hck Hin (safe_start input g t Hc)) as H.
  destruct (run input sched _) as [c| |]; [|done..]. by exists c.
Qed.

Lemma thread_step_remaining (input : list IdType) (t t' : ParallelHashTable) (p p' : pc) :
  thread_step input t p = Done (t', p') -> (remaining p' <= pred (remaining p))%nat.
Proof.
  intros Hstep. destruct p as [i|x|x|x l|x l|]; cbn [thread_step] in Hstep.
  - destruct (input !! i) as [x|]; [|done].
    destruct (x <? _capacity t); simplify_eq. cbn. lia.
  - unfold sync_val_compare_and_swap_id in Hstep.
    destruct (_o2n_table t !! N.to_nat x) as [b|]; [|done].
    destruct (id b =? kEmptyKey) eqn:Hk; cbn in Hstep; rewrite ?Hk in Hstep;
      simplify_eq; cbn; lia.
  - unfold sync_fetch_and_add_num_items in Hstep. simplify_eq. cbn. lia.
  - unfold store_local in Hstep.
    destruct (_o2n_table t !! N.to_nat x) as [b|]; cbn in Hstep; simplify_eq.
    cbn. lia.
  - unfold store_global in Hstep. case_decide; cbn in Hstep; simplify_eq. cbn. lia.
  - simplify_eq. cbn. lia.
Qed.

Lemma run_remaining (input : list IdType) (sched : list nat) (c c' : config) :
  run input sched c = Done c' ->
  length (snd c') = length (snd c) /\
  forall i p p', snd c !! i = Some p -> snd c' !! i = Some p' ->
    (remaining p' <= remaining p - count_occ Nat.eq_dec sched i)%nat.
Proof.
  revert c. induction sched as [|j sched IH]; intros [t ps] Hrun.
  - cbn in Hrun. simplify_eq. split; [done|]. intros i p p' Hp Hp'.
    cbn in *. simplify_eq. lia.
  - unfold run in *. cbn [for_each snd] in *.
    destruct (ps !! j) as [q|] eqn:Hq.
    + rewrite (sched_step_at input t ps j q Hq) in Hrun.
      destruct (thread_step input t q) as [[t1 q1]| |] eqn:Hts; cbn in Hrun; try done.
      destruct (IH _ Hrun) as [Hlen Hrem]. cbn [snd] in *.
      rewrite length_insert in Hlen. split; [done|].
      intros i p p' Hp Hp'. cbn [count_occ].
      pose proof (thread_step_remaining _ _ _ _ _ Hts) as Hdec.
      destruct (Nat.eq_dec j i) as [->|Hne].
      * simplify_eq.
        specialize (Hrem i q1 p').
        rewrite list_lookup_insert_eq in Hrem by (by eapply lookup_lt_Some).
        specialize (Hrem eq_refl Hp'). lia.
      * specialize (Hrem i p p').
        rewrite list_lookup_insert_ne in Hrem by done. auto.
    + rewrite (sched_step_none input t ps j Hq) in Hrun. cbn in Hrun.
      destruct (IH _ Hrun) as [Hlen Hrem]. cbn [snd] in *. split; [done|].
      intros i p p' Hp Hp'. cbn [count_occ].
      destruct (Nat.eq_dec j i) as [->|Hne]; [congruence|]. auto.
Qed.

(** An iteration needs at most five steps: on such a table every schedule
    that lets each iteration move five times takes the call to its end. *)
Theorem Populate_fair_schedule_returns (g : N) (t : ParallelHashTable)
    (input : list IdType) (sched : list nat) :
  kEmptyKey < IdType_modulus -> _capacity t <= kEmptyKey ->
  Forall (fun x => x < _capacity t) input ->
  counted g t ->
  (forall i, (i < length input)%nat -> (5 <= count_occ Nat.eq_dec sched i)%nat) ->
  exists t' ps,
    run input sched (Populate_start t (N.of_nat (length input))) = Done (t', ps) /\
    all_ended ps.
Proof.
  intros HkM Hck Hin Hc Hfair.
  pose proof (safe_run input g sched (Populate_start t (N.of_nat (length input)))
                HkM Hck Hin (safe_start input g t Hc)) as Hsafe.
  destruct (run input sched _) as [[t' ps]| |] eqn:Hrun; [|done..].
  exists t', ps. split; [done|].
  destruct (run_remaining input sched _ _ Hrun) as [Hlen Hrem].
  unfold Populate_start in Hlen, Hrem. cbn [snd] in Hlen, Hrem.
  rewrite Nat2N.id in Hlen, Hrem. rewrite length_fmap, length_seq in Hlen.
  apply Forall_lookup_2. intros i p Hp.
  assert (Hi : (i < length input)%nat) by (rewrite <- Hlen; by eapply lookup_lt_Some).
  specialize (Hrem i (AtStart i) p).
  rewrite list_lookup_fmap, lookup_seq_lt in Hrem by done.
  specialize (Hrem eq_refl Hp). specialize (Hfair i Hi).
  destruct p; cbn in Hrem; try lia. done.
Qed.

(** The round trip of the specification: after [Reset] and calls of
    [Populate], [MapNodes] writes at every position [i] an id that was
    presented, and the origin slot of that id holds [i]. *)
Theorem MapNodes_round_trip (t0 t : ParallelHashTable) (batches : list (list IdType))
    (output : list IdType) (num_ouput : N) :
  kEmptyKey < IdType_modulus -> _capacity t0 <= kEmptyKey ->
  is_reset t0 ->
  Forall (Forall (fun x => x < _capacity t0)) batches ->
  Populate_calls t0 batches t ->
  num_ouput <= _num_items t -> (N.to_nat num_ouput <= length output)%nat ->
  exists out,
    MapNodes t output num_ouput = Done (t, out) /\
    forall i, (i < N.to_nat num_ouput)%nat ->
      exists x, out !! i = Some x /\ x ∈ concat batches /\
                o2n_at t x = Some {| id := x; local := N.of_nat i |}.
Proof.
  intros HkM Hck Hreset Hin Hcalls Hle Hout.
  destruct (Populate_calls_compacted [] t0 t batches HkM Hck Hin
              (is_reset_compacted t0 Hreset) Hcalls)
    as (alloc & ((Ho & Hn & Hcnt) & Hnum & Hnd & Hcl & Hal) & _ & Halloc & _).
  unfold MapNodes, for_loop. rewrite (proj2 (N.leb_le _ _) Hle).
  pose proof (num_claimed_le t) as Hcl_le.
  destruct (MapNodes_loop t (N.to_nat num_ouput) 0 output)
    as (out & Hrun & _ & Hget & _); [lia..|].
  exists out. rewrite Hrun. split; [done|].
  intros i Hi.
  destruct (lookup_lt_is_Some_2 alloc i) as [x Hx]; [lia|].
  destruct (Hal i x Hx) as [H1 H2]. exists x. split_and!; auto.
  - rewrite Hget by lia. by rewrite H2.
  - apply list_elem_of_lookup_2 in Hx. apply Halloc in Hx as [?%elem_of_nil|?]; done.
Qed.

(** The empty key below the capacity: on a reset table it wins at every
    presentation, is counted every time, and never looks claimed. *)
Theorem empty_key_always_wins (t : ParallelHashTable) (n : nat) :
  kEmptyKey < IdType_modulus ->
  is_reset t -> kEmptyKey < _capacity t ->
  N.of_nat n <= _capacity t -> N.of_nat n <= IdType_modulus ->
  exists t',
    Populate t (replicate n kEmptyKey) (N.of_nat n) = Done t' /\
    _num_items t' = N.of_nat n mod IdType_modulus /\
    num_claimed t' = 0.
Proof.
  intros HkM (Ho & Hn & Hnum & Hall) Hk Hc HM.
  destruct (sentinel_loop (replicate n kEmptyKey) n 0 t)
    as (t' & Hrun & _ & _ & _ & Hall' & Hnum' & _); auto; try lia.
  - intros i Hi. apply lookup_replicate_2. lia.
  - exists t'. unfold Populate, for_loop. rewrite Nat2N.id, Hrun.
    split_and!; auto.
    + rewrite Hnum', Hnum. f_equal.
    + unfold num_claimed. by rewrite (filter_claimed_reset _ Hall').
Qed.

(** ** What Populate leaves alone *)

Lemma o2n_framed_thread_step (input : list IdType) (t0 t t' : ParallelHashTable)
    (p p' : pc) :
  o2n_framed input t0 t -> thread_framed input t0 p ->
  thread_step input t p = Done (t', p') ->
  o2n_framed input t0 t' /\ thread_framed input t0 p'.
Proof.
  intros (Hc & Hlen & Hout & Hcl) Hp Hstep.
  destruct p as [i|x|x|x l|x l|]; cbn in Hstep, Hp.
  - destruct (input !! i) as [x|] eqn:Hi; [|done].
    destruct (x <? _capacity t); [|done]. simplify_eq. split; [done|].
    cbn. by eapply list_elem_of_lookup_2.
  - unfold sync_val_compare_and_swap_id in Hstep.
    destruct (_o2n_table t !! N.to_nat x) as [b|] eqn:Hb; [|done].
    destruct (id b =? kEmptyKey) eqn:Hkey; cbn in Hstep; rewrite Hkey in Hstep;
      simplify_eq; [|done].
    apply N.eqb_eq in Hkey.
    assert (Hfree : forall b0, o2n_at t0 x = Some b0 -> id b0 = kEmptyKey).
    { intros b0 Hb0. destruct (decide (id b0 = kEmptyKey)) as [|Hne]; [done|].
      specialize (Hcl x b0 Hb0 Hne). unfold o2n_at in Hcl. congruence. }
    split; [|done]. split_and!; [done|by cbn; rewrite length_insert|..].
    + intros y Hy. rewrite o2n_at_insert, decide_False by (intros ->; done). auto.
    + intros y b0 Hb0 Hne. rewrite o2n_at_insert.
      case_decide as Hxy; [subst y; by specialize (Hfree b0 Hb0)|auto].
  - simplify_eq. done.
  - unfold store_local in Hstep.
    destruct (_o2n_table t !! N.to_nat x) as [b|] eqn:Hb; [|done].
    cbn in Hstep. simplify_eq. destruct Hp as [Hx Hfree].
    split; [|done]. split_and!; [done|by cbn; rewrite length_insert|..].
    + intros y Hy. rewrite o2n_at_insert, decide_False by (intros ->; done). auto.
    + intros y b0 Hb0 Hne. rewrite o2n_at_insert.
      case_decide as Hxy; [subst y; by specialize (Hfree b0 Hb0)|auto].
  - unfold store_global in Hstep. case_decide; [|done]. cbn in Hstep. simplify_eq.
    done.
  - simplify_eq. done.
Qed.

Lemma o2n_framed_run (input : list IdType) (t0 : ParallelHashTable) (sched : list nat)
    (t t' : ParallelHashTable) (ps ps' : list pc) :
  o2n_framed input t0 t -> Forall (thread_framed input t0) ps ->
  run input sched (t, ps) = Done (t', ps') ->
  o2n_framed input t0 t' /\ Forall (thread_framed input t0) ps'.
Proof.
  revert t ps. induction sched as [|i sched IH]; intros t ps Ht Hps Hrun.
  - cbn in Hrun. by simplify_eq.
  - cbn in Hrun.
    destruct (ps !! i) as [p|] eqn:Hp.
    + rewrite (sched_step_at input t ps i p Hp) in Hrun.
      destruct (thread_step input t p) as [[t1 p1]| |] eqn:Hstep; [|done..].
      cbn in Hrun.
      destruct (o2n_framed_thread_step input t0 t t1 p p1 Ht
                  (Forall_lookup_1 _ _ _ _ Hps Hp) Hstep) as [Ht1 Hp1].
      apply (IH t1 (<[i:=p1]> ps)); [done|by apply Forall_insert|done].
    + rewrite (sched_step_none input t ps i Hp) in Hrun. cbn in Hrun.
      by apply (IH t ps).
Qed.

Lemma thread_framed_start (input : list IdType) (t : ParallelHashTable) (num_input : N) :
  o2n_framed input t t /\
  Forall (thread_framed input t) (snd (Populate_start t num_input)).
Proof.
  split; [by split_and!|].
  cbn. apply Forall_fmap, Forall_forall. intros i _. exact I.
Qed.

(** An origin slot is written only by the iteration that won it.  At every
    point of every schedule of a call, and so when the call has returned:
    the capacity and the size of the origin array are what they were, the
    slot of an id that is not in [input] is what it was, and a slot that was
    claimed when the call started is what it was, tag and local index. *)
Theorem Populate_keeps_claimed_slots (t : ParallelHashTable) (input : list IdType)
    (num_input : N) :
  (forall sched t' ps,
     run input sched (Populate_start t num_input) = Done (t', ps) ->
     _capacity t' = _capacity t /\
     length (_o2n_table t') = length (_o2n_table t) /\
     (forall y, y ∉ input -> o2n_at t' y = o2n_at t y) /\
     (forall y b, o2n_at t y = Some b -> id b <> kEmptyKey -> o2n_at t' y = Some b)) /\
  (forall t', Populate t input num_input = Done t' ->
     _capacity t' = _capacity t /\
     length (_o2n_table t') = length (_o2n_table t) /\
     (forall y, y ∉ input -> o2n_at t' y = o2n_at t y) /\
     (forall y b, o2n_at t y = Some b -> id b <> kEmptyKey -> o2n_at t' y = Some b)).
Proof.
  assert (Hall : forall sched t' ps,
            run input sched (Populate_start t num_input) = Done (t', ps) ->
            o2n_framed input t t').
  { intros sched t' ps Hrun.
    destruct (thread_framed_start input t num_input) as [H0 Hps].
    by destruct (o2n_framed_run input t sched t t' _ ps H0 Hps Hrun). }
  split; [exact Hall|].
  intros t' HP. apply (Hall (in_order num_input) t' (replicate (N.to_nat num_input) AtEnd)).
  by rewrite Populate_in_order, HP.
Qed.


(** A call that presents only ids whose slots are claimed: every iteration
    loses its compare-and-swap and ends without a store. *)
Lemma present_run (input : list IdType) (t : ParallelHashTable) (sched : list nat)
    (ps : list pc) :
  Forall (fun x => x < _capacity t /\
                   exists b, o2n_at t x = Some b /\ id b <> kEmptyKey) input ->
  Forall (fun p => (exists i, p = AtStart i /\ (i < length input)%nat) \/
                   (exists x, p = AtCas x /\ x ∈ input) \/ p = AtEnd) ps ->
  exists ps',
    run input sched (t, ps) = Done (t, ps') /\
    Forall (fun p => (exists i, p = AtStart i /\ (i < length input)%nat) \/
                     (exists x, p = AtCas x /\ x ∈ input) \/ p = AtEnd) ps'.
Proof.
  intros Hin. revert ps. induction sched as [|i sched IH]; intros ps Hps.
  - exists ps. by split.
  - cbn. destruct (ps !! i) as [p|] eqn:Hp.
    + rewrite (sched_step_at input t ps i p Hp).
      assert (Hstep : exists p',
                 thread_step input t p = Done (t, p') /\
                 ((exists i, p' = AtStart i /\ (i < length input)%nat) \/
                  (exists x, p' = AtCas x /\ x ∈ input) \/ p' = AtEnd)).
      { destruct (Forall_lookup_1 _ _ _ _ Hps Hp)
          as [(j & -> & Hj)|[(x & -> & Hx)| ->]]; cbn.
        - destruct (lookup_lt_is_Some_2 input j Hj) as [x Hx]. rewrite Hx.
          destruct (Forall_lookup_1 _ _ _ _ Hin Hx) as [Hlt _].
          rewrite (proj2 (N.ltb_lt _ _) Hlt). exists (AtCas x). split; [done|].
          right; left. exists x. split; [done|]. by eapply list_elem_of_lookup_2.
        - apply list_elem_of_lookup_1 in Hx as [j Hj].
          destruct (Forall_lookup_1 _ _ _ _ Hin Hj) as (_ & b & Hb & Hne).
          unfold sync_val_compare_and_swap_id. unfold o2n_at in Hb. rewrite Hb.
          apply N.eqb_neq in Hne. rewrite Hne. cbn. rewrite Hne.
          exists AtEnd. split; [done|]. by right; right.
        - exists AtEnd. split; [done|]. by right; right. }
      destruct Hstep as (p' & -> & Hp'). cbn.
      apply IH. by apply Forall_insert.
    + rewrite (sched_step_none input t ps i Hp). cbn. by apply IH.
Qed.

(** Populating ids that are present already changes nothing at all.  When
    the slot of every id of the array is claimed, the call returns the table
    it was given, unchanged in every field, in index order and under every
    schedule of its iterations; no schedule fails. *)
Theorem Populate_present_ids_unchanged (t : ParallelHashTable) (input : list IdType) :
  Forall (fun x => x < _capacity t /\
                   exists b, o2n_at t x = Some b /\ id b <> kEmptyKey) input ->
  Populate t input (N.of_nat (length input)) = Done t /\
  (forall sched, exists ps,
     run input sched (Populate_start t (N.of_nat (length input))) = Done (t, ps)) /\
  (forall t', Populate_returns t input (N.of_nat (length input)) t' -> t' = t).
Proof.
  intros Hin.
  assert (Hall : forall sched, exists ps,
            run input sched (Populate_start t (N.of_nat (length input))) = Done (t, ps)).
  { intros sched.
    destruct (present_run input t sched
                (snd (Populate_start t (N.of_nat (length input)))) Hin)
      as (ps & Hrun & _); [|by exists ps].
    cbn. rewrite Nat2N.id. apply Forall_fmap, Forall_forall.
    intros i Hi%elem_of_seq. left. exists i. split; [done|lia]. }
  split_and!; [|exact Hall|].
  - destruct (Hall (in_order (N.of_nat (length input)))) as [ps Hrun].
    rewrite Populate_in_order in Hrun.
    destruct (Populate t input (N.of_nat (length input))); cbn in Hrun; congruence.
  - intros t' (sched & ps & Hrun & _).
    destruct (Hall sched) as [ps' Hrun']. congruence.
Qed.


Lemma n2o_framed_thread_step (input : list IdType) (t0 t t' : ParallelHashTable)
    (p p' : pc) :
  n2o_framed t0 t -> thread_reserved t0 p -> thread_ok input t p ->
  _num_items t0 <= _num_items t -> _num_items t <= _num_items t' ->
  thread_step input t p = Done (t', p') ->
  n2o_framed t0 t' /\ thread_reserved t0 p'.
Proof.
  intros [Hlen Hfr] Hp Hok H0 Hmono Hstep.
  destruct p as [i|x|x|x l|x l|]; cbn in Hstep, Hp, Hok.
  - destruct (input !! i) as [x|]; [|done].
    destruct (x <? _capacity t); [|done]. by simplify_eq.
  - unfold sync_val_compare_and_swap_id in Hstep.
    destruct (_o2n_table t !! N.to_nat x) as [b|]; [|done].
    destruct (id b =? kEmptyKey) eqn:Hkey; cbn in Hstep; rewrite Hkey in Hstep;
      simplify_eq; by split.
  - simplify_eq. cbn in Hmono. split; [|done]. split; [done|].
    intros l Hl. apply Hfr. cbn in Hl. lia.
  - unfold store_local in Hstep.
    destruct (_o2n_table t !! N.to_nat x) as [b|]; [|done].
    cbn in Hstep. simplify_eq. by split.
  - unfold store_global in Hstep. case_decide; [|done]. cbn in Hstep. simplify_eq.
    split; [|done]. split; [by cbn; rewrite length_insert|].
    intros l' Hl'. cbn in Hl'. unfold n2o_at at 1. cbn.
    rewrite list_lookup_insert_ne by lia. by apply Hfr.
  - simplify_eq. by split.
Qed.

Lemma n2o_framed_run (input : list IdType) (g : N) (t0 : ParallelHashTable)
    (sched : list nat) (t t' : ParallelHashTable) (ps ps' : list pc) :
  kEmptyKey < IdType_modulus -> _capacity t <= kEmptyKey ->
  Forall (fun x => x < _capacity t) input ->
  safe input g (t, ps) ->
  n2o_framed t0 t -> Forall (thread_reserved t0) ps ->
  _num_items t0 <= _num_items t ->
  run input sched (t, ps) = Done (t', ps') ->
  n2o_framed t0 t' /\ _num_items t0 <= _num_items t'.
Proof.
  intros HkM. revert t ps.
  induction sched as [|i sched IH]; intros t ps Hck Hin Hsafe Hfr Hres H0 Hrun.
  - cbn in Hrun. by simplify_eq.
  - cbn in Hrun.
    pose proof (safe_sched_step input g (t, ps) i HkM Hck Hin Hsafe) as Hs.
    destruct (ps !! i) as [p|] eqn:Hp.
    + rewrite (sched_step_at input t ps i p Hp) in Hrun, Hs.
      destruct (thread_step input t p) as [[t1 p1]| |] eqn:Hstep; [|done..].
      cbn in Hrun, Hs. destruct Hs as (Hsafe1 & Hc1 & Hm1).
      destruct Hsafe as (_ & _ & _ & Hoks). cbn in Hoks.
      destruct (n2o_framed_thread_step input t0 t t1 p p1 Hfr
                  (Forall_lookup_1 _ _ _ _ Hres Hp)
                  (Forall_lookup_1 _ _ _ _ Hoks Hp) H0 Hm1 Hstep) as [Hfr1 Hp1].
      apply (IH t1 (<[i:=p1]> ps)); rewrite ?Hc1; auto; [by apply Forall_insert|lia].
    + rewrite (sched_step_none input t ps i Hp) in Hrun. cbn in Hrun.
      by apply (IH t ps).
Qed.

(** A call of [Populate] writes the local array only at the indices it
    hands out.  On a table that satisfies the counting invariant and whose
    capacity does not exceed the empty key, at every point of every schedule
    the entries below the counter the call started with and the entries from
    the current counter on are what they were, and the counter has not gone
    down. *)
Theorem Populate_keeps_local_entries (g : N) (t : ParallelHashTable)
    (input : list IdType) (sched : list nat) (t' : ParallelHashTable) (ps : list pc) :
  kEmptyKey < IdType_modulus -> _capacity t <= kEmptyKey ->
  Forall (fun x => x < _capacity t) input ->
  counted g t ->
  run input sched (Populate_start t (N.of_nat (length input))) = Done (t', ps) ->
  _num_items t <= _num_items t' /\
  length (_n2o_table t') = length (_n2o_table t) /\
  forall l, l < _num_items t \/ _num_items t' <= l -> n2o_at t' l = n2o_at t l.
Proof.
  intros HkM Hck Hin Hc Hrun.
  destruct (n2o_framed_run input g t sched t t' _ ps HkM Hck Hin
              (safe_start input g t Hc)) as [[Hlen Hfr] Hmono]; auto.
  - by split.
  - cbn. apply Forall_fmap, Forall_forall. intros i _. exact I.
Qed.


(** ** MapNodes and MapEdges after Populate *)

(** What [MapNodes] has written stays valid: a later call of [Populate]
    does not change the answer of [MapNodes] for the local indices that
    existed before it, whatever the schedule of the call. *)
Theorem MapNodes_stable_under_Populate (g : N) (t t' : ParallelHashTable)
    (input output : list IdType) (num_ouput : N) :
  kEmptyKey < IdType_modulus -> _capacity t <= kEmptyKey ->
  Forall (fun x => x < _capacity t) input ->
  counted g t ->
  Populate_returns t input (N.of_nat (length input)) t' ->
  num_ouput <= _num_items t -> (N.to_nat num_ouput <= length output)%nat ->
  exists out,
    MapNodes t output num_ouput = Done (t, out) /\
    MapNodes t' output num_ouput = Done (t', out).
Proof.
  intros HkM Hck Hin Hc (sched & ps & Hrun & _) Hle Hout.
  assert (Hsafe := safe_run input g sched (Populate_start t (N.of_nat (length input))) HkM Hck Hin (safe_start input g t Hc)).
  rewrite Hrun in Hsafe. destruct Hsafe as [_ [_ Hmono]]. cbn in Hmono.
  destruct (n2o_framed_run input g t sched t t' _ ps HkM Hck Hin
              (safe_start input g t Hc)) as [[Hlen Hfr] _]; auto.
  { by split. }
  { cbn. apply Forall_fmap, Forall_forall. intros i _. exact I. }
  destruct Hc as (Ho & Hn & Hcnt). pose proof (num_claimed_le t) as Hcl.
  destruct (MapNodes_loop t (N.to_nat num_ouput) 0 output)
    as (out & Hout1 & Hl1 & Hin1 & Hrest1); [lia..|].
  destruct (MapNodes_loop t' (N.to_nat num_ouput) 0 output)
    as (out' & Hout2 & Hl2 & Hin2 & Hrest2); [lia..|].
  assert (out' = out) as ->.
  { apply list_eq. intros i.
    destruct (decide (i < N.to_nat num_ouput)%nat) as [Hi|Hi].
    - rewrite Hin1, Hin2 by lia. f_equal.
      specialize (Hfr (N.of_nat i)). unfold n2o_at in Hfr. rewrite Nat2N.id in Hfr.
      apply Hfr. lia.
    - rewrite Hrest1, Hrest2 by lia. done. }
  exists out. unfold MapNodes, for_loop.
  rewrite (proj2 (N.leb_le _ _) Hle), Hout1.
  rewrite (proj2 (N.leb_le num_ouput (_num_items t')) ltac:(lia)), Hout2. done.
Qed.

(** [MapNodes] of the whole table lists every id exactly once.  After
    [Reset] and calls of [Populate], [MapNodes] with the counter as its
    length writes a list without repetition that holds the ids presented, in
    some order. *)
Theorem MapNodes_lists_each_id_once (t0 t : ParallelHashTable)
    (batches : list (list IdType)) (S output : list IdType) :
  kEmptyKey < IdType_modulus -> _capacity t0 <= kEmptyKey ->
  is_reset t0 ->
  Forall (Forall (fun x => x < _capacity t0)) batches ->
  Populate_calls t0 batches t ->
  NoDup S -> (forall x, x ∈ S <-> x ∈ concat batches) ->
  (N.to_nat (_num_items t) <= length output)%nat ->
  exists out,
    MapNodes t output (_num_items t) = Done (t, out) /\
    NoDup (take (N.to_nat (_num_items t)) out) /\
    take (N.to_nat (_num_items t)) out ≡ₚ S.
Proof.
  intros HkM Hck Hreset Hin Hcalls HS HSin Hout.
  destruct (Populate_calls_compacted [] t0 t batches HkM Hck Hin
              (is_reset_compacted t0 Hreset) Hcalls)
    as (alloc & ((Ho & Hn & Hcnt) & Hnum & Hnd & Hcl & Hal) & _ & Halloc & _).
  pose proof (num_claimed_le t) as Hcl_le.
  destruct (MapNodes_loop t (N.to_nat (_num_items t)) 0 output)
    as (out & Hrun & Hlen & Hget & _); [lia..|].
  exists out. unfold MapNodes, for_loop. rewrite N.leb_refl, Hrun.
  assert (take (N.to_nat (_num_items t)) out = alloc) as ->.
  { apply list_eq. intros i. rewrite Hnum, Nat2N.id.
    destruct (decide (i < length alloc)%nat) as [Hi|Hi].
    - rewrite lookup_take_lt by done. rewrite Hget by lia.
      destruct (lookup_lt_is_Some_2 alloc i Hi) as [x Hx].
      destruct (Hal i x Hx) as [_ H2]. by rewrite H2, Hx.
    - rewrite lookup_take_ge by lia. symmetry. apply lookup_ge_None_2. lia. }
  split_and!; [done|done|].
  apply NoDup_Permutation; [done|done|].
  intros x. rewrite HSin, Halloc. rewrite elem_of_nil. tauto.
Qed.

(** The round trip through [MapEdges]: after [Reset] and calls of
    [Populate], the two ends of every edge over presented ids are mapped to
    local indices below the counter, the local array at such an index holds
    the id of that end, and two ends get the same index only when they are
    the same id. *)
Theorem MapEdges_round_trip (t0 t : ParallelHashTable) (batches : list (list IdType))
    (src dst : list IdType) (len : N) (new_src new_dst : list IdType) :
  kEmptyKey < IdType_modulus -> _capacity t0 <= kEmptyKey ->
  is_reset t0 ->
  Forall (Forall (fun x => x < _capacity t0)) batches ->
  Populate_calls t0 batches t ->
  length src = N.to_nat len -> length dst = N.to_nat len ->
  (N.to_nat len <= length new_src)%nat -> (N.to_nat len <= length new_dst)%nat ->
  Forall (fun x => x ∈ concat batches) src ->
  Forall (fun x => x ∈ concat batches) dst ->
  exists out_src out_dst,
    MapEdges t src dst len new_src new_dst = Done (t, (out_src, out_dst)) /\
    forall i s d, src !! i = Some s -> dst !! i = Some d ->
      exists ls ld,
        out_src !! i = Some ls /\ out_dst !! i = Some ld /\
        ls < _num_items t /\ ld < _num_items t /\
        n2o_at t ls = Some {| global := s |} /\
        n2o_at t ld = Some {| global := d |} /\
        (ls = ld <-> s = d).
Proof.
  intros HkM Hck Hreset Hin Hcalls Hsrc Hdst Hns Hnd Hs Hd.
  destruct (Populate_calls_compacted [] t0 t batches HkM Hck Hin
              (is_reset_compacted t0 Hreset) Hcalls)
    as (alloc & ((Ho & Hn & Hcnt) & Hnum & Hndup & Hcl & Hal) & _ & Halloc & Hcap).
  assert (Hrange : forall x, x ∈ concat batches -> x < _capacity t).
  { rewrite Hcap. clear -Hin.
    induction Hin as [|input rest Hi _ IH]; intros x; cbn [concat].
    - by intros ?%elem_of_nil.
    - rewrite elem_of_app. intros [Hx|Hx]; [|by apply IH].
      apply list_elem_of_lookup_1 in Hx as [k Hk].
      exact (Forall_lookup_1 _ _ _ _ Hi Hk). }
  assert (Hidx : forall x, x ∈ concat batches ->
            exists l, alloc !! l = Some x /\
              o2n_at t x = Some {| id := x; local := N.of_nat l |} /\
              _n2o_table t !! l = Some {| global := x |}).
  { intros x Hx. assert (Hxa : x ∈ alloc) by (apply Halloc; by right).
    apply list_elem_of_lookup_1 in Hxa as [l Hl]. exists l.
    destruct (Hal l x Hl). done. }
  destruct (MapEdges_loop t src dst (N.to_nat len) 0 new_src new_dst)
    as (out_src & out_dst & Hrun & _ & _ & Hget & _); try lia; try done.
  { intros i s _ Hi. apply Hrange. exact (Forall_lookup_1 _ _ _ _ Hs Hi). }
  { intros i d _ Hi. apply Hrange. exact (Forall_lookup_1 _ _ _ _ Hd Hi). }
  exists out_src, out_dst. unfold MapEdges, for_loop. rewrite Hrun.
  split; [done|]. intros i s d Hsi Hdi.
  destruct (Hget i) as (s' & d' & b0 & b1 & Hs' & Hd' & Hb0 & Hb1 & Ho0 & Ho1).
  { apply lookup_lt_Some in Hsi. lia. }
  simplify_eq.
  destruct (Hidx s) as (ls & Hls & Hos & Hns'); [exact (Forall_lookup_1 _ _ _ _ Hs Hsi)|].
  destruct (Hidx d) as (ld & Hld & Hod & Hnd'); [exact (Forall_lookup_1 _ _ _ _ Hd Hdi)|].
  simplify_eq. cbn in Ho0, Ho1.
  exists (N.of_nat ls), (N.of_nat ld).
  pose proof (lookup_lt_Some _ _ _ Hls). pose proof (lookup_lt_Some _ _ _ Hld).
  unfold n2o_at. rewrite !Nat2N.id.
  split_and!; [done|done|lia|lia|done|done|].
  split.
  - intros Heq%Nat2N.inj. subst ld. congruence.
  - intros ->. f_equal. eapply NoDup_lookup; eauto.
Qed.


(** ** The order of the local indices when the loop runs in index order *)

Lemma first_occurrences_app (seen xs ys : list IdType) :
  first_occurrences seen (xs ++ ys)
  = first_occurrences seen xs
    ++ first_occurrences (seen ++ first_occurrences seen xs) ys.
Proof.
  revert seen. induction xs as [|x xs IH]; intros seen; cbn.
  - by rewrite app_nil_r.
  - case_decide; [apply IH|].
    rewrite IH. cbn. by rewrite <- !app_assoc.
Qed.

Lemma Populate_body_compacted (alloc : list IdType) (t : ParallelHashTable) (x : IdType) :
  kEmptyKey < IdType_modulus -> _capacity t <= kEmptyKey ->
  x < _capacity t -> compacted alloc t ->
  exists t',
    Populate_body [x] 0 t = Done t' /\
    compacted (alloc ++ first_occurrences alloc [x]) t' /\
    _capacity t' = _capacity t.
Proof.
  intros HkM Hck Hx Hc.
  assert (Hin : Forall (fun y => y < _capacity t) [x]) by (by constructor).
  destruct (Populate_total alloc t [x] HkM Hck Hin Hc) as [t' Ht'].
  pose proof (Populate_Done_returns _ _ _ _ Ht') as Hret.
  destruct (Populate_returns_compacted alloc t t' [x] HkM Hck Hin Hc Hret)
    as (alloc' & Hc' & [r ->] & Hmem & Hcap).
  exists t'. split_and!; [|clear Ht'|done].
  - unfold Populate, for_loop in Ht'. rewrite Nat2N.id in Ht'.
    cbn [length seq for_each] in Ht'.
    destruct (Populate_body [x] 0 t); cbn in Ht'; congruence.
  - pose proof Hc' as (Hcnt & Hnum & Hnd & Hrest).
    assert (Hr : forall y, y ∈ r -> y = x /\ x ∉ alloc).
    { intros y Hy. apply NoDup_app in Hnd as (_ & Hdisj & _).
      assert (Hya : y ∉ alloc) by (intros ?; by eapply Hdisj).
      destruct (proj1 (Hmem y)) as [Hy'|Hyx]; [rewrite elem_of_app; by right| |].
      - by destruct Hya.
      - apply list_elem_of_singleton in Hyx. by subst y. }
    assert (r = first_occurrences alloc [x]) as <-; [|exact Hc'].
    cbn. case_decide as Hxa.
    + destruct r as [|y r]; [done|].
      destruct (Hr y) as [_ []]; [by left|done].
    + assert (Hxr : x ∈ r).
      { assert (Hxx : x ∈ alloc ++ r) by (apply Hmem; right; by left).
        apply elem_of_app in Hxx as [|]; done. }
      apply NoDup_app in Hnd as (_ & _ & Hndr).
      destruct r as [|y [|z r]].
      * by apply elem_of_nil in Hxr.
      * destruct (Hr y) as [-> _]; [by left|done].
      * destruct (Hr y) as [-> _]; [by left|].
        destruct (Hr z) as [-> _]; [right; by left|].
        apply NoDup_cons in Hndr as [Hn _]. destruct Hn. by left.
Qed.

Lemma Populate_loop_compacted (input : list IdType) (m j : nat) (alloc : list IdType)
    (t : ParallelHashTable) :
  kEmptyKey < IdType_modulus -> _capacity t <= kEmptyKey ->
  Forall (fun x => x < _capacity t) input ->
  (j + m = length input)%nat -> compacted alloc t ->
  exists t',
    for_each (Populate_body input) (seq j m) t = Done t' /\
    compacted (alloc ++ first_occurrences alloc (drop j input)) t' /\
    _capacity t' = _capacity t.
Proof.
  intros HkM. revert j alloc t.
  induction m as [|m IH]; intros j alloc t Hck Hin Hlen Hc.
  - exists t. rewrite drop_ge by lia. cbn. rewrite app_nil_r. done.
  - destruct (lookup_lt_is_Some_2 input j) as [x Hx]; [lia|].
    pose proof (Forall_lookup_1 _ _ _ _ Hin Hx) as Hlt.
    destruct (Populate_body_compacted alloc t x HkM Hck Hlt Hc) as (t1 & H1 & Hc1 & Hcap1).
    destruct (IH (S j) (alloc ++ first_occurrences alloc [x]) t1)
      as (t' & Hrun & Hc' & Hcap'); [by rewrite Hcap1..|lia|exact Hc1|].
    exists t'. cbn [seq for_each].
    rewrite (Populate_body_ext input j x t Hx), H1. cbn. rewrite Hrun.
    split_and!; [done| |congruence].
    rewrite (drop_S _ _ _ Hx).
    change (x :: drop (S j) input) with ([x] ++ drop (S j) input).
    rewrite first_occurrences_app, app_assoc. exact Hc'.
Qed.

Lemma Populate_all_compacted (batches : list (list IdType)) (alloc : list IdType)
    (t : ParallelHashTable) :
  kEmptyKey < IdType_modulus -> _capacity t <= kEmptyKey ->
  Forall (Forall (fun x => x < _capacity t)) batches ->
  compacted alloc t ->
  exists t',
    Populate_all t batches = Done t' /\
    compacted (alloc ++ first_occurrences alloc (concat batches)) t' /\
    _capacity t' = _capacity t.
Proof.
  intros HkM. revert alloc t.
  induction batches as [|input batches IH]; intros alloc t Hck Hin Hc.
  - exists t. cbn. by rewrite app_nil_r.
  - apply Forall_cons_iff in Hin as [Hi Hrest].
    destruct (Populate_loop_compacted input (length input) 0 alloc t)
      as (t1 & H1 & Hc1 & Hcap1); auto.
    destruct (IH (alloc ++ first_occurrences alloc (drop 0 input)) t1)
      as (t' & Hrun & Hc' & Hcap'); [by rewrite Hcap1..|exact Hc1|].
    exists t'. cbn [Populate_all concat]. unfold Populate, for_loop.
    rewrite Nat2N.id, H1. cbn. rewrite Hrun.
    split_and!; [done| |congruence].
    rewrite first_occurrences_app, app_assoc. exact Hc'.
Qed.

Lemma MapNodes_compacted (alloc : list IdType) (t : ParallelHashTable)
    (output : list IdType) :
  compacted alloc t -> (N.to_nat (_num_items t) <= length output)%nat ->
  exists out,
    MapNodes t output (_num_items t) = Done (t, out) /\
    take (N.to_nat (_num_items t)) out = alloc.
Proof.
  intros ((Ho & Hn & Hcnt) & Hnum & Hnd & Hcl & Hal) Hout.
  pose proof (num_claimed_le t) as Hcl_le.
  destruct (MapNodes_loop t (N.to_nat (_num_items t)) 0 output)
    as (out & Hrun & Hlen & Hget & _); [lia..|].
  exists out. unfold MapNodes, for_loop. rewrite N.leb_refl, Hrun.
  split; [done|].
  apply list_eq. intros i. rewrite Hnum, Nat2N.id.
  destruct (decide (i < length alloc)%nat) as [Hi|Hi].
  - rewrite lookup_take_lt by done. rewrite Hget by lia.
    destruct (lookup_lt_is_Some_2 alloc i Hi) as [x Hx].
    destruct (Hal i x Hx) as [_ H2]. by rewrite H2, Hx.
  - rewrite lookup_take_ge by lia. symmetry. apply lookup_ge_None_2. lia.
Qed.

(** With the loops run in index order (a team of one thread), the local
    indices are given in the order in which the ids first occur.  After
    [Reset] and the calls of [Populate] on [batches], the counter is the
    number of distinct ids, the id that occurs first as the [l]-th new one
    has the local index [l], and [MapNodes] of the whole table writes the
    ids in the order of their first occurrence. *)
Theorem Populate_in_order_first_occurrences (t0 : ParallelHashTable)
    (batches : list (list IdType)) (output : list IdType) :
  kEmptyKey < IdType_modulus -> _capacity t0 <= kEmptyKey ->
  is_reset t0 ->
  Forall (Forall (fun x => x < _capacity t0)) batches ->
  (length (first_occurrences [] (concat batches)) <= length output)%nat ->
  exists t out,
    Populate_all t0 batches = Done t /\
    _num_items t = N.of_nat (length (first_occurrences [] (concat batches))) /\
    (forall l x, first_occurrences [] (concat batches) !! l = Some x ->
       o2n_at t x = Some {| id := x; local := N.of_nat l |} /\
       n2o_at t (N.of_nat l) = Some {| global := x |}) /\
    MapNodes t output (_num_items t) = Done (t, out) /\
    take (N.to_nat (_num_items t)) out = first_occurrences [] (concat batches).
Proof.
  intros HkM Hck Hreset Hin Hout.
  destruct (Populate_all_compacted batches [] t0 HkM Hck Hin
              (is_reset_compacted t0 Hreset)) as (t & Hrun & Hc & _).
  cbn [app] in Hc.
  pose proof Hc as (_ & Hnum & _ & _ & Hal).
  destruct (MapNodes_compacted _ t output Hc) as (out & Hmap & Htake); [lia|].
  exists t, out. split_and!; [done|done| |done|done].
  intros l x Hl. unfold n2o_at. rewrite Nat2N.id. by apply Hal.
Qed.


(** ** One call on the whole array and calls on its parts *)

Lemma Populate_body_app_l (a b : list IdType) (i : nat) (t : ParallelHashTable) :
  (i < length a)%nat -> Populate_body (a ++ b) i t = Populate_body a i t.
Proof. intros Hi. unfold Populate_body. by rewrite lookup_app_l. Qed.

Lemma Populate_body_app_r (a b : list IdType) (i : nat) (t : ParallelHashTable) :
  Populate_body (a ++ b) (length a + i) t = Populate_body b i t.
Proof.
  unfold Populate_body. rewrite lookup_app_r by lia.
  by replace (length a + i - length a)%nat with i by lia.
Qed.

Lemma Populate_loop_app_l (a b : list IdType) (m j : nat) (t : ParallelHashTable) :
  (j + m <= length a)%nat ->
  for_each (Populate_body (a ++ b)) (seq j m) t = for_each (Populate_body a) (seq j m) t.
Proof.
  revert j t. induction m as [|m IH]; intros j t Hm; [done|].
  cbn [seq for_each]. rewrite Populate_body_app_l by lia.
  destruct (Populate_body a j t) as [t1| |]; cbn; [|done..].
  apply IH. lia.
Qed.

Lemma Populate_loop_app_r (a b : list IdType) (m j : nat) (t : ParallelHashTable) :
  for_each (Populate_body (a ++ b)) (seq (length a + j) m) t
  = for_each (Populate_body b) (seq j m) t.
Proof.
  revert j t. induction m as [|m IH]; intros j t; [done|].
  cbn [seq for_each]. rewrite Populate_body_app_r.
  destruct (Populate_body b j t) as [t1| |]; cbn; [|done..].
  rewrite <- (IH (S j) t1). by rewrite Nat.add_succ_r.
Qed.

Lemma Populate_app (a b : list IdType) (t : ParallelHashTable) :
  Populate t (a ++ b) (N.of_nat (length (a ++ b)))
  = (t1 ← Populate t a (N.of_nat (length a)); Populate t1 b (N.of_nat (length b))).
Proof.
  unfold Populate, for_loop. rewrite !Nat2N.id, length_app, seq_app, for_each_app.
  rewrite Populate_loop_app_l by lia.
  destruct (for_each (Populate_body a) (seq 0 (length a)) t) as [t1| |]; cbn; [|done..].
  rewrite <- (Populate_loop_app_r a b (length b) 0 t1). by rewrite Nat.add_0_r.
Qed.

Lemma thread_step_app_l (a b : list IdType) (t : ParallelHashTable) (p : pc) :
  (forall i, p = AtStart i -> (i < length a)%nat) ->
  thread_step (a ++ b) t p = thread_step a t p.
Proof.
  intros Hp. destruct p as [i| | | | |]; try done.
  cbn. by rewrite lookup_app_l by (by apply Hp).
Qed.

Lemma thread_step_app_r (a b : list IdType) (t : ParallelHashTable) (p : pc) :
  thread_step (a ++ b) t (shift_pc (length a) p) = thread_step b t p.
Proof.
  destruct p as [i| | | | |]; try done.
  cbn. rewrite lookup_app_r by lia.
  by replace (length a + i - length a)%nat with i by lia.
Qed.

Lemma thread_step_not_AtStart (input : list IdType) (t t' : ParallelHashTable)
    (p p' : pc) (n : nat) :
  thread_step input t p = Done (t', p') ->
  shift_pc n p' = p' /\ forall i, p' <> AtStart i.
Proof.
  intros Hstep. destruct p as [i|x|x|x l|x l|]; cbn in Hstep.
  - destruct (input !! i) as [x|]; [|done].
    destruct (x <? _capacity t); [|done]. by simplify_eq.
  - unfold sync_val_compare_and_swap_id in Hstep.
    destruct (_o2n_table t !! N.to_nat x) as [b|]; [|done].
    destruct (id b =? kEmptyKey) eqn:Hkey; cbn in Hstep; rewrite Hkey in Hstep;
      by simplify_eq.
  - by simplify_eq.
  - destruct (store_local t x l); cbn in Hstep; by simplify_eq.
  - destruct (store_global t l x); cbn in Hstep; by simplify_eq.
  - by simplify_eq.
Qed.

(** The iterations of the first part run as they do in a call on [a]; the
    steps of a schedule that name no iteration are left out. *)
Lemma run_app_l (a b : list IdType) (sched : list nat) (t t1 : ParallelHashTable)
    (ps ps1 qs : list pc) :
  Forall (fun p => forall i, p = AtStart i -> (i < length a)%nat) ps ->
  run a sched (t, ps) = Done (t1, ps1) ->
  run (a ++ b) (filter (fun i => (i < length ps)%nat) sched) (t, ps ++ qs)
  = Done (t1, ps1 ++ qs).
Proof.
  revert t ps. induction sched as [|i sched IH]; intros t ps Hps Hrun.
  - cbn in Hrun. by simplify_eq.
  - cbn in Hrun. destruct (ps !! i) as [p|] eqn:Hp.
    + pose proof (lookup_lt_Some _ _ _ Hp) as Hi.
      rewrite filter_cons_True by done. cbn [run for_each].
      rewrite (sched_step_at a t ps i p Hp) in Hrun.
      rewrite (sched_step_at (a ++ b) t (ps ++ qs) i p)
        by (by rewrite lookup_app_l).
      rewrite thread_step_app_l by exact (Forall_lookup_1 _ _ _ _ Hps Hp).
      destruct (thread_step a t p) as [[t' p']| |] eqn:Hstep; [|done..].
      cbn in Hrun |- *. rewrite insert_app_l by done.
      rewrite <- (length_insert ps i p').
      apply IH; [|done]. apply Forall_insert; [done|].
      intros j ->. by destruct (proj2 (thread_step_not_AtStart _ _ _ _ _ 0%nat Hstep) j).
    + pose proof (lookup_ge_None_1 _ _ Hp) as Hi.
      rewrite filter_cons_False by lia.
      rewrite (sched_step_none a t ps i Hp) in Hrun. by apply IH.
Qed.

(** The iterations of the second part run as they do in a call on [b]. *)
Lemma run_app_r (a b : list IdType) (sched : list nat) (t t2 : ParallelHashTable)
    (ps qs qs2 : list pc) :
  run b sched (t, qs) = Done (t2, qs2) ->
  run (a ++ b) ((fun i => length ps + i)%nat <$> sched)
    (t, ps ++ (shift_pc (length a) <$> qs))
  = Done (t2, ps ++ (shift_pc (length a) <$> qs2)).
Proof.
  revert t qs. induction sched as [|i sched IH]; intros t qs Hrun.
  - cbn in Hrun. by simplify_eq.
  - cbn in Hrun. cbn [fmap list_fmap run for_each].
    destruct (qs !! i) as [p|] eqn:Hp.
    + rewrite (sched_step_at b t qs i p Hp) in Hrun.
      rewrite (sched_step_at (a ++ b) t _ (length ps + i) (shift_pc (length a) p)).
      2:{ rewrite lookup_app_r by lia.
          replace (length ps + i - length ps)%nat with i by lia.
          by rewrite list_lookup_fmap, Hp. }
      rewrite thread_step_app_r.
      destruct (thread_step b t p) as [[t' p']| |] eqn:Hstep; [|done..].
      cbn in Hrun |- *. rewrite insert_app_r.
      destruct (thread_step_not_AtStart _ _ _ _ _ (length a) Hstep) as [Hsh _].
      rewrite <- Hsh at 1. rewrite <- list_fmap_insert.
      by apply IH.
    + rewrite (sched_step_none b t qs i Hp) in Hrun.
      rewrite (sched_step_none (a ++ b) t _ (length ps + i)).
      2:{ apply lookup_ge_None_2. apply lookup_ge_None_1 in Hp.
          rewrite length_app, length_fmap. lia. }
      cbn. by apply IH.
Qed.

Lemma Populate_returns_app (a b : list IdType) (t t1 t2 : ParallelHashTable) :
  Populate_returns t a (N.of_nat (length a)) t1 ->
  Populate_returns t1 b (N.of_nat (length b)) t2 ->
  Populate_returns t (a ++ b) (N.of_nat (length (a ++ b))) t2.
Proof.
  intros (sa & ps1 & Hra & Hea) (sb & qs2 & Hrb & Heb).
  unfold Populate_start in Hra, Hrb. rewrite Nat2N.id in Hra, Hrb.
  set (ps := AtStart <$> seq 0 (length a)) in *.
  exists (filter (fun i => (i < length ps)%nat) sa
          ++ ((fun i => length ps1 + i)%nat <$> sb)),
         (ps1 ++ (shift_pc (length a) <$> qs2)).
  split.
  - unfold Populate_start, run. rewrite Nat2N.id, length_app, seq_app, fmap_app.
    rewrite for_each_app.
    fold ps.
    assert (H1 := run_app_l a b sa t t1 ps ps1
                    (AtStart <$> seq (0 + length a) (length b))).
    unfold run in H1. rewrite H1; [|
      apply Forall_fmap, Forall_forall; intros i Hi%elem_of_seq j [= <-]; lia|done].
    cbn.
    replace (AtStart <$> seq (length a) (length b))
      with (shift_pc (length a) <$> (AtStart <$> seq 0 (length b))).
    + by apply run_app_r.
    + rewrite <- list_fmap_compose.
      replace (seq (length a) (length b)) with (seq (length a + 0) (length b))
        by (f_equal; lia).
      rewrite <- fmap_add_seq, <- list_fmap_compose. done.
  - apply Forall_app. split; [done|].
    apply Forall_fmap. eapply Forall_impl; [exact Heb|]. by intros p ->.
Qed.

Lemma Populate_all_concat (t : ParallelHashTable) (batches : list (list IdType)) :
  Populate_all t batches
  = Populate t (concat batches) (N.of_nat (length (concat batches))).
Proof.
  revert t. induction batches as [|a batches IH]; intros t; [done|].
  cbn [Populate_all concat]. rewrite Populate_app.
  destruct (Populate t a (N.of_nat (length a))) as [t1| |]; cbn; [|done..].
  apply IH.
Qed.

(** How an array is cut into calls does not matter.  With the loops in
    index order, the calls on the parts have the outcome of one call on the
    whole array; and whatever table the calls on the parts can return, under
    any schedules, one call on the whole array can return too. *)
Theorem Populate_batching (t : ParallelHashTable) (batches : list (list IdType)) :
  Populate_all t batches
  = Populate t (concat batches) (N.of_nat (length (concat batches))) /\
  forall t', Populate_calls t batches t' ->
    Populate_returns t (concat batches) (N.of_nat (length (concat batches))) t'.
Proof.
  split; [apply Populate_all_concat|].
  intros t' Hcalls. induction Hcalls as [t|t a t1 rest t2 Hret _ IH].
  - exists [], []. split; [done|constructor].
  - cbn [concat]. by eapply Populate_returns_app.
Qed.


(** ** Reset and the same calls again *)

Lemma elem_of_first_occurrences (seen input : list IdType) (x : IdType) :
  x ∈ first_occurrences seen input <-> x ∈ input /\ x ∉ seen.
Proof.
  revert seen. induction input as [|y input IH]; intros seen; cbn.
  - rewrite elem_of_nil. tauto.
  - case_decide as Hy.
    + rewrite IH, elem_of_cons. split; [tauto|]. intros [[->|?] ?]; tauto.
    + rewrite !elem_of_cons, IH, elem_of_app, list_elem_of_singleton.
      destruct (decide (x = y)) as [->|]; tauto.
Qed.

Lemma emptied_reset (b : BukcetO2N) : id b = kEmptyKey -> emptied b = b.
Proof. destruct b as [i l]. cbn. by intros ->. Qed.

(** The calls in index order on a reset table: the table they return, and
    what they have left as it was. *)
Lemma Populate_all_reset (t0 : ParallelHashTable) (batches : list (list IdType)) :
  kEmptyKey < IdType_modulus -> _capacity t0 <= kEmptyKey ->
  is_reset t0 ->
  Forall (Forall (fun x => x < _capacity t0)) batches ->
  exists t,
    Populate_all t0 batches = Done t /\
    compacted (first_occurrences [] (concat batches)) t /\
    _capacity t = _capacity t0 /\
    length (_o2n_table t) = length (_o2n_table t0) /\
    length (_n2o_table t) = length (_n2o_table t0) /\
    (forall y, y ∉ concat batches -> o2n_at t y = o2n_at t0 y) /\
    (forall l, _num_items t <= l -> n2o_at t l = n2o_at t0 l).
Proof.
  intros HkM Hck Hreset Hin.
  pose proof (is_reset_compacted t0 Hreset) as Hc0.
  destruct (Populate_all_compacted batches [] t0 HkM Hck Hin Hc0) as (t & Hrun & Hc & Hcap).
  exists t. split; [done|]. split; [done|]. split; [done|].
  rewrite Populate_all_concat in Hrun.
  set (input := concat batches) in *.
  assert (Hin' : Forall (fun x => x < _capacity t0) input).
  { subst input. clear -Hin. induction Hin as [|a rest Ha _ IH]; cbn [concat].
    - constructor.
    - by apply Forall_app. }
  pose proof (Populate_in_order t0 input (N.of_nat (length input))) as Hord.
  rewrite Hrun in Hord. cbn in Hord.
  destruct (thread_framed_start input t0 (N.of_nat (length input))) as [H0 Hps].
  destruct (o2n_framed_run input t0 _ t0 t _ _ H0 Hps Hord) as [(_ & Hlen & Hout & _) _].
  destruct Hc0 as [Hcnt0 _].
  destruct (n2o_framed_run input 0 t0 (in_order (N.of_nat (length input))) t0 t
              (snd (Populate_start t0 (N.of_nat (length input))))
              (replicate (N.to_nat (N.of_nat (length input))) AtEnd) HkM Hck Hin'
              (safe_start input 0 t0 Hcnt0)) as [[Hlen' Hfr] _]; auto.
  { by split. }
  { cbn. apply Forall_fmap, Forall_forall. intros i _. exact I. }
  split_and!; auto.
Qed.

(** [Reset] and the same calls again give the same table.  On the table
    [t] that the calls of [Populate] on [batches] return from a reset table,
    with the loops in index order: [Reset] returns a table that a further
    [Reset] leaves as it is, and the same calls on it return [t] again,
    equal in every bucket of the two arrays. *)
Theorem Reset_and_repeat (t0 t : ParallelHashTable) (batches : list (list IdType)) :
  kEmptyKey < IdType_modulus -> _capacity t0 <= kEmptyKey ->
  is_reset t0 ->
  Forall (Forall (fun x => x < _capacity t0)) batches ->
  Populate_all t0 batches = Done t ->
  exists r,
    Reset t = Done r /\ Reset r = Done r /\ Populate_all r batches = Done t.
Proof.
  intros HkM Hck Hreset Hin Hrun.
  destruct (Populate_all_reset t0 batches HkM Hck Hreset Hin)
    as (t_ & Hrun_ & Hc & Hcap & Hlo & Hln & Hout & Hfr).
  assert (t_ = t) as -> by congruence. clear Hrun_.
  pose proof Hc as ((Ho & Hn & _) & Hnum & Hnd & _ & Hal).
  pose proof (Reset_Done t Ho) as HR.
  set (r := {| _o2n_table := emptied <$> _o2n_table t; _n2o_table := _n2o_table t;
               _num_items := 0; _capacity := _capacity t |}) in *.
  destruct (Reset_is_reset t r Ho Hn HR) as [Hr _].
  exists r. split; [done|]. split.
  { rewrite (Reset_Done r) by (cbn; by rewrite length_fmap). unfold r. cbn. f_equal.
    f_equal. rewrite <- list_fmap_compose. apply list_fmap_ext. by intros _ [i l] _. }
  destruct (Populate_all_reset r batches HkM) as
    (t2 & Hrun2 & Hc2 & Hcap2 & Hlo2 & Hln2 & Hout2 & Hfr2); [cbn; lia|done|cbn; by rewrite Hcap|].
  rewrite Hrun2. f_equal.
  pose proof Hc2 as (_ & Hnum2 & _ & _ & Hal2).
  destruct Hreset as (_ & _ & _ & Hall0).
  destruct t as [o n c cap], t2 as [o2 n2 c2 cap2]. cbn in *. subst. f_equal.
  - apply list_eq. intros i.
    pose proof (Hout2 (N.of_nat i)) as Ho2. pose proof (Hout (N.of_nat i)) as Ho1.
    unfold o2n_at in Ho1, Ho2. cbn in Ho1, Ho2. rewrite Nat2N.id in Ho1, Ho2.
    destruct (decide (N.of_nat i ∈ concat batches)) as [Hi|Hi].
    + assert (Hia : N.of_nat i ∈ first_occurrences [] (concat batches)).
      { apply elem_of_first_occurrences. split; [done|apply not_elem_of_nil]. }
      apply list_elem_of_lookup_1 in Hia as [l Hl].
      destruct (Hal l _ Hl) as [H1 _]. destruct (Hal2 l _ Hl) as [H2 _].
      unfold o2n_at in H1, H2. cbn in H1, H2. rewrite Nat2N.id in H1, H2. congruence.
    + rewrite Ho2, Ho1 by done. rewrite list_lookup_fmap, Ho1 by done.
      destruct (_o2n_table t0 !! i) as [b|] eqn:Hb; [|done]. cbn. f_equal.
      apply emptied_reset. exact (Forall_lookup_1 _ _ _ _ Hall0 Hb).
  - apply list_eq. intros i.
    destruct (decide (i < length (first_occurrences [] (concat batches)))%nat) as [Hi|Hi].
    + destruct (lookup_lt_is_Some_2 _ i Hi) as [x Hx].
      destruct (Hal i x Hx) as [_ H1]. destruct (Hal2 i x Hx) as [_ H2].
      cbn in H1, H2. congruence.
    + pose proof (Hfr2 (N.of_nat i)) as H2. unfold n2o_at in H2. cbn in H2.
      rewrite Nat2N.id in H2. apply H2. lia.
Qed.


(** ** What does not depend on the schedule *)

(** The schedules decide the numbering and nothing else.  Two runs of the
    same calls of [Populate] on the same reset table, under any schedules,
    end with the same counter and the same tag in every origin slot, and
    [MapNodes] of the whole table writes the same ids, in a different
    order at most. *)
Theorem Populate_schedules_agree (t0 t1 t2 : ParallelHashTable)
    (batches : list (list IdType)) (output : list IdType) :
  kEmptyKey < IdType_modulus -> _capacity t0 <= kEmptyKey ->
  is_reset t0 ->
  Forall (Forall (fun x => x < _capacity t0)) batches ->
  Populate_calls t0 batches t1 -> Populate_calls t0 batches t2 ->
  (N.to_nat (_num_items t1) <= length output)%nat ->
  _num_items t1 = _num_items t2 /\
  (forall x, id <$> o2n_at t1 x = id <$> o2n_at t2 x) /\
  exists out1 out2,
    MapNodes t1 output (_num_items t1) = Done (t1, out1) /\
    MapNodes t2 output (_num_items t2) = Done (t2, out2) /\
    take (N.to_nat (_num_items t1)) out1 ≡ₚ take (N.to_nat (_num_items t2)) out2.
Proof.
  intros HkM Hck Hreset Hin Hc1 Hc2 Hout.
  pose proof (is_reset_compacted t0 Hreset) as Hc0.
  destruct (Populate_calls_compacted [] t0 t1 batches HkM Hck Hin Hc0 Hc1)
    as (A1 & Hcomp1 & _ & Hmem1 & Hcap1).
  destruct (Populate_calls_compacted [] t0 t2 batches HkM Hck Hin Hc0 Hc2)
    as (A2 & Hcomp2 & _ & Hmem2 & Hcap2).
  pose proof Hcomp1 as ((Ho1 & _ & _) & Hnum1 & Hnd1 & Hcl1 & Hal1).
  pose proof Hcomp2 as ((Ho2 & _ & _) & Hnum2 & Hnd2 & Hcl2 & Hal2).
  assert (HA : A1 ≡ₚ A2).
  { apply NoDup_Permutation; [done..|]. intros x. by rewrite Hmem1, Hmem2. }
  assert (Hnum : _num_items t1 = _num_items t2).
  { rewrite Hnum1, Hnum2. f_equal. by apply Permutation_length. }
  split; [done|]. split.
  - intros x.
    assert (Htag : forall (t : ParallelHashTable) (A : list IdType) (b : BukcetO2N),
              (forall y c, o2n_at t y = Some c -> claimed c <-> y ∈ A) ->
              (forall l y, A !! l = Some y ->
                 o2n_at t y = Some {| id := y; local := N.of_nat l |} /\
                 _n2o_table t !! l = Some {| global := y |}) ->
              o2n_at t x = Some b ->
              id b = if decide (x ∈ A) then x else kEmptyKey).
    { intros t A b Hcl Hal Hb. case_decide as Hx.
      - apply list_elem_of_lookup_1 in Hx as [l Hl].
        destruct (Hal l x Hl) as [H1 _]. by simplify_eq.
      - destruct (decide (id b = kEmptyKey)) as [|Hne]; [done|].
        destruct Hx. by apply (Hcl x b Hb). }
    unfold o2n_at in *.
    destruct (_o2n_table t1 !! N.to_nat x) as [b1|] eqn:H1;
      destruct (_o2n_table t2 !! N.to_nat x) as [b2|] eqn:H2; cbn.
    + f_equal. rewrite (Htag t1 A1 b1 Hcl1 Hal1 H1), (Htag t2 A2 b2 Hcl2 Hal2 H2).
      repeat case_decide; try done.
      * by rewrite <- HA in *.
      * by rewrite HA in *.
    + apply lookup_lt_Some in H1. apply lookup_ge_None_1 in H2. lia.
    + apply lookup_lt_Some in H2. apply lookup_ge_None_1 in H1. lia.
    + done.
  - destruct (MapNodes_compacted A1 t1 output Hcomp1 Hout) as (out1 & Hm1 & Ht1).
    destruct (MapNodes_compacted A2 t2 output Hcomp2) as (out2 & Hm2 & Ht2); [lia|].
    exists out1, out2. by rewrite Ht1, Ht2.
Qed.


(** ** The ids past [num_input] *)

Lemma run_app_prefix (a b : list IdType) (sched : list nat) (t : ParallelHashTable)
    (ps : list pc) :
  Forall (fun p => forall i, p = AtStart i -> (i < length a)%nat) ps ->
  run (a ++ b) sched (t, ps) = run a sched (t, ps).
Proof.
  revert t ps. induction sched as [|i sched IH]; intros t ps Hps; [done|].
  cbn [run for_each]. destruct (ps !! i) as [p|] eqn:Hp.
  - rewrite (sched_step_at (a ++ b) t ps i p Hp), (sched_step_at a t ps i p Hp).
    rewrite thread_step_app_l by exact (Forall_lookup_1 _ _ _ _ Hps Hp).
    destruct (thread_step a t p) as [[t' p']| |] eqn:Hstep; [|done..].
    cbn. apply IH. apply Forall_insert; [done|].
    intros j ->. by destruct (proj2 (thread_step_not_AtStart _ _ _ _ _ 0%nat Hstep) j).
  - rewrite !sched_step_none by done. cbn. by apply IH.
Qed.

(** [Populate] reads the first [num_input] ids of the array and nothing
    else: what comes after them has no effect on the call, in index order
    and under every schedule, also when it holds ids that are not below the
    capacity. *)
Theorem Populate_reads_num_input_ids (t : ParallelHashTable) (input : list IdType)
    (num_input : N) :
  (N.to_nat num_input <= length input)%nat ->
  Populate t input num_input
  = Populate t (take (N.to_nat num_input) input) num_input /\
  forall sched,
    run input sched (Populate_start t num_input)
    = run (take (N.to_nat num_input) input) sched (Populate_start t num_input).
Proof.
  intros Hn.
  set (a := take (N.to_nat num_input) input).
  assert (Ha : length a = N.to_nat num_input) by (unfold a; rewrite length_take; lia).
  assert (Hsplit : input = a ++ drop (N.to_nat num_input) input)
    by (symmetry; apply take_drop).
  split.
  - rewrite Hsplit at 1. unfold Populate, for_loop. apply Populate_loop_app_l. lia.
  - intros sched. rewrite Hsplit at 1. apply run_app_prefix. cbn.
    apply Forall_fmap, Forall_forall. intros i Hi%elem_of_seq j [= <-]. lia.
Qed.

End Proofs.

(** * The scenario of the specification, and the empty key as an id *)

Example fresh10_reset10 : fresh10 = Done reset10.
Proof. vm_compute. reflexivity. Qed.

Example table10_populated10 : table10 = Done populated10.
Proof. vm_compute. reflexivity. Qed.

Example table10_MapNodes :
  MapNodes populated10 [0; 0; 0] 3 = Done (populated10, [3; 7; 9]).
Proof. vm_compute. reflexivity. Qed.

Example table10_MapEdges :
  MapEdges populated10 [3] [7] 1 [50] [50] = Done (populated10, ([0], [1])).
Proof. vm_compute. reflexivity. Qed.

(** An interleaving of the four iterations: the last one claims its slot and
    takes local index 0 before the first one has started. *)
Example table10_interleaved :
  ('(t', ps) ← run kEmptyKey32 modulus32 [3; 7; 3; 9]
                 [3; 3; 3; 0; 2; 0; 2; 1; 0; 1; 1; 3; 0; 1; 3; 0; 1]%nat
                 (Populate_start reset10 4);
   '(_, out) ← MapNodes t' [0; 0; 0] 3;
   Done (_num_items t', ps, out))
  = Done (3, [AtEnd; AtEnd; AtEnd; AtEnd], [9; 3; 7]).
Proof. vm_compute. reflexivity. Qed.

(** With a 2-bit id type, empty key 3 and capacity 4, the empty key is an id
    below the capacity: presenting it twice counts it twice. *)
Example small_empty_key_twice :
  (t ← Reset 3 (constructed 4);
   t' ← Populate 3 4 t [3; 3] 2;
   Done (_num_items t', o2n_at t' 3, num_claimed 3 t'))
  = Done (2, Some {| id := 3; local := 1 |}, 0).
Proof. vm_compute. reflexivity. Qed.

(** The same on the wide table, without running it. *)
Lemma wide_reset_is_reset : is_reset kEmptyKey32 wide_reset.
Proof.
  unfold is_reset, wide_reset, wide_o2n, wide_n2o.
  cbn [_o2n_table _n2o_table _num_items _capacity].
  split_and!.
  - apply length_replicate.
  - apply length_replicate.
  - reflexivity.
  - apply Forall_replicate. reflexivity.
Qed.

Lemma wide_reset_from_Reset :
  (t ← new_ParallelHashTable sizeof_IdType32 size_t_modulus64 zero_device 4294967296;
   Reset kEmptyKey32 t)
  = Done wide_reset.
Proof.
  assert (E1 : alloc_bytes size_t_modulus64 4294967296 (sizeof_BukcetO2N sizeof_IdType32)
               / sizeof_BukcetO2N sizeof_IdType32 = 4294967296)
    by (vm_compute; reflexivity).
  assert (E2 : alloc_bytes size_t_modulus64 4294967296 (sizeof_BucketN2O sizeof_IdType32)
               / sizeof_BucketN2O sizeof_IdType32 = 4294967296)
    by (vm_compute; reflexivity).
  unfold new_ParallelHashTable, zero_device.
  cbn [AllocDataSpace_o2n AllocDataSpace_n2o mbind outcome_bind].
  rewrite E1, E2.
  rewrite Reset_Done by apply length_replicate.
  unfold wide_reset, wide_o2n, wide_n2o. cbn [_o2n_table _n2o_table _capacity].
  rewrite fmap_replicate. reflexivity.
Qed.

(** What [n] presentations of the empty key do to a table in which no slot
    looks claimed, as long as the counter stays within the arrays. *)
Lemma empty_keys_Populate (n : N) (t : ParallelHashTable) :
  _capacity t = 4294967296 ->
  length (_o2n_table t) = N.to_nat (_capacity t) ->
  length (_n2o_table t) = N.to_nat (_capacity t) ->
  Forall (fun b => id b = kEmptyKey32) (_o2n_table t) ->
  0 < n -> _num_items t + n <= 4294967296 ->
  exists t',
    Populate kEmptyKey32 modulus32 t (empty_keys n) n = Done t' /\
    _capacity t' = 4294967296 /\
    length (_o2n_table t') = N.to_nat (_capacity t') /\
    length (_n2o_table t') = N.to_nat (_capacity t') /\
    Forall (fun b => id b = kEmptyKey32) (_o2n_table t') /\
    _num_items t' = (_num_items t + n) mod modulus32 /\
    o2n_at t' kEmptyKey32
    = Some {| id := kEmptyKey32; local := _num_items t + n - 1 |}.
Proof.
  intros Hcap Ho Hn Hall Hpos Hle.
  destruct (sentinel_loop kEmptyKey32 modulus32 (empty_keys n) (N.to_nat n) 0 t)
    as (t' & Hrun & Ho' & Hn' & Hc' & Hall' & Hnum' & Hat'); auto.
  - intros i Hi. unfold empty_keys. apply lookup_replicate_2. lia.
  - rewrite Hcap. reflexivity.
  - unfold modulus32. lia.
  - rewrite N2Nat.id. lia.
  - rewrite N2Nat.id. unfold modulus32. lia.
  - exists t'. rewrite N2Nat.id in Hnum', Hat'. split_and!; auto.
    + congruence.
    + apply Hat'. lia.
Qed.

Lemma wide_reset_facts :
  _capacity wide_reset = 4294967296 /\
  length (_o2n_table wide_reset) = N.to_nat (_capacity wide_reset) /\
  length (_n2o_table wide_reset) = N.to_nat (_capacity wide_reset) /\
  Forall (fun b => id b = kEmptyKey32) (_o2n_table wide_reset) /\
  _num_items wide_reset = 0.
Proof.
  destruct wide_reset_is_reset as (Ho & Hn & Hnum & Hall). split_and!; auto.
Qed.

(** The empty key presented once to the wide table after [Reset], and then
    once more. *)
Lemma empty_key_twice :
  exists t1 t2,
    Populate kEmptyKey32 modulus32 wide_reset [kEmptyKey32] 1 = Done t1 /\
    Populate kEmptyKey32 modulus32 t1 [kEmptyKey32] 1 = Done t2 /\
    _capacity t1 = 4294967296 /\
    _num_items t1 = 1 /\ _num_items t2 = 2 /\
    o2n_at t1 kEmptyKey32 = Some {| id := kEmptyKey32; local := 0 |} /\
    o2n_at t2 kEmptyKey32 = Some {| id := kEmptyKey32; local := 1 |} /\
    num_claimed kEmptyKey32 t1 = 0 /\
    length (_o2n_table t1) = N.to_nat (_capacity t1) /\
    length (_n2o_table t1) = N.to_nat (_capacity t1) /\
    Forall (fun b => id b = kEmptyKey32) (_o2n_table t1).
Proof.
  destruct wide_reset_facts as (Hc & Ho & Hn & Hall & Hnum).
  destruct (empty_keys_Populate 1 wide_reset Hc Ho Hn Hall)
    as (t1 & Hp1 & Hc1 & Ho1 & Hn1 & Hall1 & Hnum1 & Hat1);
    [reflexivity|rewrite Hnum; discriminate|].
  assert (H1 : _num_items t1 = 1) by (rewrite Hnum1, Hnum; reflexivity).
  destruct (empty_keys_Populate 1 t1 Hc1 Ho1 Hn1 Hall1)
    as (t2 & Hp2 & Hc2 & Ho2 & Hn2 & Hall2 & Hnum2 & Hat2);
    [reflexivity|rewrite H1; discriminate|].
  exists t1, t2. rewrite Hnum in Hat1. rewrite H1 in Hnum2, Hat2.
  split_and!; auto.
  unfold num_claimed. by rewrite (filter_claimed_reset _ _ Hall1).
Qed.

(** C1, counterexample.  The wide table is reset and the two ids presented
    are below its capacity; they are one distinct id, and after the call
    [_num_items] is 2. *)
Lemma Populate_bijection_empty_key :
  is_reset kEmptyKey32 wide_reset /\
  Forall (Forall (fun x => x < _capacity wide_reset)) [[kEmptyKey32; kEmptyKey32]] /\
  NoDup [kEmptyKey32] /\
  (forall x, x ∈ [kEmptyKey32] <-> x ∈ concat [[kEmptyKey32; kEmptyKey32]]) /\
  exists t,
    Populate_calls kEmptyKey32 modulus32 wide_reset [[kEmptyKey32; kEmptyKey32]] t /\
    _num_items t = 2 /\
    _num_items t <> N.of_nat (length [kEmptyKey32]).
Proof.
  destruct wide_reset_facts as (Hc & Ho & Hn & Hall & Hnum).
  split_and!.
  - apply wide_reset_is_reset.
  - rewrite Hc. repeat constructor.
  - apply NoDup_singleton.
  - clear. intros x. cbn [concat app]. rewrite !elem_of_cons. set_solver.
  - destruct (empty_keys_Populate 2 wide_reset Hc Ho Hn Hall)
      as (t & Hp & _ & _ & _ & _ & Hnum2 & _);
      [reflexivity|rewrite Hnum; discriminate|].
    exists t. rewrite Hnum in Hnum2. split_and!.
    + econstructor; [|constructor]. apply Populate_Done_returns. exact Hp.
    + exact Hnum2.
    + rewrite Hnum2. discriminate.
Qed.

(** C2, counterexample.  The empty key is presented to the wide table in a
    first call and again in a second one: its local index goes from 0 to 1,
    and [_num_items] from 1 to 2. *)
Lemma Populate_repeat_empty_key :
  is_reset kEmptyKey32 wide_reset /\
  Forall (Forall (fun x => x < _capacity wide_reset)) [[kEmptyKey32]] /\
  exists t1 t2,
    Populate_calls kEmptyKey32 modulus32 wide_reset [[kEmptyKey32]] t1 /\
    Populate_calls kEmptyKey32 modulus32 t1 [[kEmptyKey32]] t2 /\
    o2n_at t1 kEmptyKey32 = Some {| id := kEmptyKey32; local := 0 |} /\
    o2n_at t2 kEmptyKey32 = Some {| id := kEmptyKey32; local := 1 |} /\
    _num_items t1 = 1 /\ _num_items t2 = 2.
Proof.
  destruct wide_reset_facts as (Hc & _).
  destruct empty_key_twice
    as (t1 & t2 & Hp1 & Hp2 & _ & Hn1 & Hn2 & Ha1 & Ha2 & _).
  split_and!.
  - apply wide_reset_is_reset.
  - rewrite Hc. repeat constructor.
  - exists t1, t2. split_and!; auto.
    + econstructor; [|constructor]. apply Populate_Done_returns. exact Hp1.
    + econstructor; [|constructor]. apply Populate_Done_returns. exact Hp2.
Qed.

(** C7, counterexample.  On the wide table after [Reset] the counter equals
    the number of claimed slots; after a [Populate] of the empty key it is 1,
    and still no slot has a tag other than the empty key. *)
Lemma num_items_counts_claimed_empty_key :
  is_reset kEmptyKey32 wide_reset /\
  _num_items wide_reset = num_claimed kEmptyKey32 wide_reset /\
  Forall (fun x => x < _capacity wide_reset) [kEmptyKey32] /\
  exists t,
    Populate_returns kEmptyKey32 modulus32 wide_reset [kEmptyKey32] 1 t /\
    _num_items t = 1 /\ num_claimed kEmptyKey32 t = 0.
Proof.
  destruct wide_reset_facts as (Hc & _ & _ & Hall & Hnum).
  destruct empty_key_twice
    as (t1 & t2 & Hp1 & _ & _ & Hn1 & _ & _ & _ & Hcl1 & _).
  split_and!.
  - apply wide_reset_is_reset.
  - rewrite Hnum. unfold num_claimed. by rewrite (filter_claimed_reset _ _ Hall).
  - rewrite Hc. repeat constructor.
  - exists t1. split_and!; auto. apply Populate_Done_returns. exact Hp1.
Qed.

(** C10, counterexample.  On the wide table after [Reset], one [Populate] of
    the empty key leaves [_num_items] at 1; a second call that presents the
    empty key 4294967295 times, each of them below the capacity, takes the
    32-bit counter round to 0. *)
Lemma Populate_num_items_wraps :
  exists t1 t2,
    Populate kEmptyKey32 modulus32 wide_reset [kEmptyKey32] 1 = Done t1 /\
    Forall (fun x => x < _capacity t1) (empty_keys 4294967295) /\
    Populate kEmptyKey32 modulus32 t1 (empty_keys 4294967295) 4294967295 = Done t2 /\
    _num_items t1 = 1 /\ _num_items t2 = 0 /\ _num_items t2 < _num_items t1.
Proof.
  destruct empty_key_twice
    as (t1 & _ & Hp1 & _ & Hc1 & Hn1 & _ & _ & _ & _ & Ho1 & Hl1 & Hall1).
  destruct (empty_keys_Populate 4294967295 t1 Hc1 Ho1 Hl1 Hall1)
    as (t2 & Hp2 & _ & _ & _ & _ & Hnum2 & _);
    [reflexivity|rewrite Hn1; discriminate|].
  rewrite Hn1 in Hnum2.
  assert (H2 : _num_items t2 = 0) by (rewrite Hnum2; reflexivity).
  exists t1, t2. split_and!; auto.
  - rewrite Hc1. apply Forall_replicate. reflexivity.
  - by rewrite H2, Hn1.
Qed.

(** ** The constructor at a capacity whose byte size wraps *)

Lemma garbage_device_allocates : allocates_request sizeof_IdType32 garbage_device.
Proof.
  split; intros nbytes block Hb; cbn in Hb; simplify_eq; apply length_replicate.
Qed.

(** On [garbage_device] the constructor returns [constructed sz] as long as
    the byte size of the origin array is in the range of [size_t]. *)
Lemma constructed_new (sz : N) :
  sz * sizeof_BukcetO2N sizeof_IdType32 < size_t_modulus64 ->
  new_ParallelHashTable sizeof_IdType32 size_t_modulus64 garbage_device sz
  = Done (constructed sz).
Proof.
  unfold sizeof_BukcetO2N, sizeof_IdType32, size_t_modulus64. intros Hfit.
  unfold new_ParallelHashTable, alloc_bytes, garbage_device, constructed,
    sizeof_BukcetO2N, sizeof_BucketN2O, sizeof_IdType32, size_t_modulus64.
  cbn [AllocDataSpace_o2n AllocDataSpace_n2o mbind outcome_bind].
  rewrite !N.mod_small by lia. rewrite !N.div_mul by lia. reflexivity.
Qed.

(** [Reset] on a table whose origin array is shorter than its capacity
    stores outside the array. *)
Lemma Reset_no_room (kEmptyKey : IdType) (t : ParallelHashTable) :
  _o2n_table t = [] -> 0 < _capacity t -> Reset kEmptyKey t = Undef.
Proof.
  intros Ho Hc. unfold Reset, for_loop.
  destruct (N.to_nat (_capacity t)) as [|n] eqn:Hn.
  - lia.
  - cbn [seq for_each]. unfold Reset_body, set_num_items. cbn [_o2n_table].
    rewrite Ho. reflexivity.
Qed.

(** C8, counterexample.  With 4-byte ids and a 64-bit [size_t], the capacity
    2^62 makes both products wrap to 0: the constructor asks the device
    layer for 0 bytes twice, and on a device layer that hands back blocks of
    the size asked for it returns a table of capacity 2^62 whose two arrays
    hold no bucket at all.  A [Reset] of that table stores outside the
    origin array. *)
Lemma constructor_state_wraps :
  allocates_request sizeof_IdType32 garbage_device /\
  alloc_bytes size_t_modulus64 4611686018427387904 (sizeof_BukcetO2N sizeof_IdType32)
  = 0 /\
  alloc_bytes size_t_modulus64 4611686018427387904 (sizeof_BucketN2O sizeof_IdType32)
  = 0 /\
  exists t,
    new_ParallelHashTable sizeof_IdType32 size_t_modulus64 garbage_device
      4611686018427387904 = Done t /\
    _capacity t = 4611686018427387904 /\
    _o2n_table t = [] /\ _n2o_table t = [] /\
    N.of_nat (length (_o2n_table t)) < _capacity t /\
    N.of_nat (length (_n2o_table t)) < _capacity t /\
    Reset kEmptyKey32 t = Undef.
Proof.
  split; [exact garbage_device_allocates|].
  split; [vm_compute; reflexivity|]. split; [vm_compute; reflexivity|].
  exists {| _o2n_table := []; _n2o_table := []; _num_items := 0;
            _capacity := 4611686018427387904 |}.
  split; [vm_compute; reflexivity|].
  cbn [_capacity _o2n_table _n2o_table length].
  split_and!; [reflexivity..|].
  apply Reset_no_room; reflexivity.
Qed.

(** * The theorems at the scenario of the specification *)

Lemma reset10_is_reset : is_reset kEmptyKey32 reset10.
Proof.
  unfold is_reset. split_and!; try reflexivity.
  vm_compute. repeat constructor.
Qed.

Lemma populated10_well_formed : well_formed populated10.
Proof. unfold well_formed. split_and!; try reflexivity. vm_compute. discriminate. Qed.

(** C1 at capacity 10 with the calls Populate([3,7]) and Populate([3,9]). *)
Lemma Populate_bijection_witness :
  is_reset kEmptyKey32 reset10 /\
  exists t,
    Populate_all kEmptyKey32 modulus32 reset10 [[3; 7]; [3; 9]] = Done t /\
    _num_items t = 3 /\
    exists l, l < 3 /\ o2n_at t 9 = Some {| id := 9; local := l |} /\
              n2o_at t l = Some {| global := 9 |}.
Proof.
  split; [exact reset10_is_reset|].
  destruct (Populate_bijection kEmptyKey32 modulus32 reset10 [[3; 7]; [3; 9]] [3; 7; 9])
    as [(t & Ht & Hcalls) Hall].
  - reflexivity.
  - vm_compute. discriminate.
  - exact reset10_is_reset.
  - repeat constructor.
  - apply (bool_decide_unpack _). vm_compute. exact I.
  - intros x. cbn [concat app]. rewrite !elem_of_cons. set_solver.
  - exists t. destruct (Hall t Hcalls) as (Hnum & Hin & _).
    split_and!; [exact Ht|exact Hnum|].
    apply (Hin 9). rewrite !elem_of_cons. auto.
Defined.

(** C2: Populate([3,7,3,9]), then Populate([3,5]). *)
Lemma Populate_repeat_witness :
  Populate_calls kEmptyKey32 modulus32 reset10 [[3; 7; 3; 9]] populated10 /\
  Populate_calls kEmptyKey32 modulus32 populated10 [[3; 5]] populated10_again /\
  (exists l, o2n_at populated10 3 = Some {| id := 3; local := l |} /\
             o2n_at populated10_again 3 = Some {| id := 3; local := l |}) /\
  _num_items populated10_again = _num_items populated10 + 1.
Proof.
  assert (H1 : Populate_calls kEmptyKey32 modulus32 reset10 [[3; 7; 3; 9]] populated10).
  { econstructor; [|constructor]. apply Populate_Done_returns.
    vm_compute. reflexivity. }
  assert (H2 : Populate_calls kEmptyKey32 modulus32 populated10 [[3; 5]]
                 populated10_again).
  { econstructor; [|constructor]. apply Populate_Done_returns.
    vm_compute. reflexivity. }
  destruct (Populate_repeat kEmptyKey32 modulus32 reset10 populated10 populated10_again
              [[3; 7; 3; 9]] [[3; 5]]) as [Hsame Hcount]; auto.
  - reflexivity.
  - vm_compute. discriminate.
  - exact reset10_is_reset.
  - repeat constructor.
  - repeat constructor.
  - split; [exact H1|split; [exact H2|split]].
    + apply Hsame. cbn [concat app]. rewrite !elem_of_cons. auto.
    + apply (Hcount [5]).
      * apply NoDup_singleton.
      * intros x. cbn [concat app]. rewrite !elem_of_cons, !elem_of_nil.
        split.
        -- intros [->|[]]. split; [auto|].
           intros [H|[H|[H|[H|[]]]]]; discriminate H.
        -- intros [[->|[->|[]]] Hn]; auto.
Defined.

(** C3: MapNodes(3) on the populated table, and MapNodes(4), one too many. *)
Lemma MapNodes_contract_witness :
  well_formed populated10 /\
  (exists out,
     MapNodes populated10 [0; 0; 0] 3 = Done (populated10, out) /\
     out !! 2%nat = global <$> _n2o_table populated10 !! 2%nat) /\
  MapNodes populated10 [] 4 = Fatal.
Proof.
  split; [exact populated10_well_formed|].
  destruct (MapNodes_contract populated10 [0; 0; 0] 3 populated10_well_formed)
    as [Hle _]; [vm_compute; lia|].
  destruct (MapNodes_contract populated10 [0; 0; 0; 0] 4 populated10_well_formed)
    as [_ Hgt]; [vm_compute; lia|].
  split.
  - destruct Hle as (out & Hrun & _ & Hin & _); [vm_compute; discriminate|].
    exists out. split; [exact Hrun|]. apply Hin. vm_compute. lia.
  - apply Hgt. reflexivity.
Defined.

(** C4: MapEdges([3],[7]) on the populated table. *)
Lemma MapEdges_correct_witness :
  exists out_src out_dst,
    MapEdges populated10 [3] [7] 1 [50] [50] = Done (populated10, (out_src, out_dst)) /\
    exists s d bucket0 bucket1,
      [3] !! 0%nat = Some s /\ [7] !! 0%nat = Some d /\
      o2n_at populated10 s = Some bucket0 /\ o2n_at populated10 d = Some bucket1 /\
      out_src !! 0%nat = Some (local bucket0) /\
      out_dst !! 0%nat = Some (local bucket1).
Proof.
  destruct (MapEdges_correct populated10 [3] [7] 1 [50] [50])
    as (os & od & Hrun & Hin); try reflexivity; try (repeat constructor).
  exists os, od. split; [exact Hrun|]. apply Hin. vm_compute. lia.
Defined.

(** C8: the constructor at capacity 10, and Populate([3]) right after it. *)
Lemma constructor_state_witness :
  allocates_request sizeof_IdType32 garbage_device /\
  new_ParallelHashTable sizeof_IdType32 size_t_modulus64 garbage_device 10
  = Done (constructed 10) /\
  length (_o2n_table (constructed 10)) = 10%nat /\
  length (_n2o_table (constructed 10)) = 10%nat /\
  well_formed (constructed 10) /\
  Populate kEmptyKey32 modulus32 (constructed 10) [3] 1 = Done (constructed 10).
Proof.
  destruct (constructor_state kEmptyKey32 modulus32 sizeof_IdType32 size_t_modulus64
              garbage_device 10) as (_ & _ & Hnew & Hstate & _);
    [reflexivity|vm_compute; reflexivity|].
  specialize (Hnew (garbage_o2n 10) (garbage_n2o 10) eq_refl eq_refl).
  destruct (Hstate _ Hnew) as (_ & _ & _ & _ & Hsized & Hpop).
  destruct (Hsized garbage_device_allocates) as (Ho & Hn & Hwf & _).
  split; [exact garbage_device_allocates|].
  split; [exact Hnew|]. split; [exact Ho|]. split; [exact Hn|]. split; [exact Hwf|].
  apply (Hpop 3 {| id := 5; local := 77 |}); [reflexivity..|discriminate].
Defined.

(** C9: the same call leaves the table as it was. *)
Lemma MapEdges_frame_witness :
  exists t' out_src out_dst,
    MapEdges populated10 [3] [7] 1 [50; 60] [50; 60]
    = Done (t', (out_src, out_dst)) /\
    t' = populated10 /\
    out_src !! 1%nat = Some 60 /\ out_dst !! 1%nat = Some 60.
Proof.
  destruct (MapEdges_frame populated10 [3] [7] 1 [50; 60] [50; 60])
    as (t' & os & od & Hrun & Ho & Hn & Hnum & Hc & _ & _ & Hrest);
    try reflexivity; try (repeat constructor).
  exists t', os, od. split; [exact Hrun|].
  destruct (Hrest 1%nat) as [H1 H2]; [vm_compute; lia|].
  split_and!; auto.
  destruct t' as [o n k c]. cbn in Ho, Hn, Hnum, Hc. subst. reflexivity.
Defined.

(** C6: Reset of the constructed table of capacity 10. *)
Lemma Reset_clears_witness :
  exists t',
    Reset kEmptyKey32 (constructed 10) = Done t' /\
    _num_items t' = 0 /\
    exists t'',
      Populate kEmptyKey32 modulus32 t' [9] 1 = Done t'' /\
      o2n_at t'' 9 = Some {| id := 9; local := 0 |}.
Proof.
  destruct (Reset_clears kEmptyKey32 modulus32 (constructed 10))
    as (t' & Hr & Hnum & _ & _ & _ & _ & _ & Hfresh & _); [reflexivity|].
  exists t'. split_and!; auto.
  destruct (Hfresh 9) as (t'' & Hp & Ho & _); [reflexivity..|].
  exists t''. auto.
Defined.

(** C7: the counter and the claimed slots over Reset and Populate([3,7,3,9]). *)
Lemma num_items_counts_claimed_witness :
  _num_items reset10 = num_claimed kEmptyKey32 reset10 /\
  _num_items populated10 = num_claimed kEmptyKey32 populated10.
Proof.
  destruct (num_items_counts_claimed kEmptyKey32 modulus32 reset10)
    as [_ Hkeep]; try reflexivity.
  assert (H0 : _num_items reset10 = num_claimed kEmptyKey32 reset10)
    by (vm_compute; reflexivity).
  split; [exact H0|].
  destruct (Hkeep H0) as (Hpop & _).
  apply (Hpop [3; 7; 3; 9] populated10).
  - vm_compute. discriminate.
  - repeat constructor.
  - apply Populate_Done_returns. vm_compute. reflexivity.
Defined.

(** C10: Populate([3,7,3,9]) on the reset table. *)
Lemma Populate_num_items_monotone_witness :
  counted kEmptyKey32 0 reset10 /\
  (exists t', Populate kEmptyKey32 modulus32 reset10 [3; 7; 3; 9] 4 = Done t') /\
  _num_items reset10 <= _num_items populated10.
Proof.
  assert (Hc : counted kEmptyKey32 0 reset10).
  { unfold counted. split_and!; try reflexivity. }
  destruct (Populate_num_items_monotone kEmptyKey32 modulus32 0 reset10 [3; 7; 3; 9])
    as (Htot & Hmono & _); auto.
  - reflexivity.
  - vm_compute. discriminate.
  - repeat constructor.
  - split_and!; auto. apply Hmono.
    apply Populate_Done_returns. vm_compute. reflexivity.
Defined.

(** * Further properties at the scenario *)

(** The boundary id 10 on the table of capacity 10. *)
Example Populate_boundary_id :
  Populate kEmptyKey32 modulus32 reset10 [3; 10; 7] 3 = Fatal /\
  Populate kEmptyKey32 modulus32 reset10 [3; 9; 7] 3 <> Fatal /\
  MapEdges populated10 [3; 10] [7; 9] 2 [0; 0] [0; 0] = Fatal /\
  MapEdges populated10 [3; 9] [7; 10] 2 [0; 0] [0; 0] = Fatal /\
  MapEdges populated10 [3; 9] [7; 9] 2 [0; 0] [0; 0]
  = Done (populated10, ([0; 2], [1; 2])).
Proof. split_and!; try (vm_compute; reflexivity). vm_compute. discriminate. Qed.

Lemma reset10_counted : counted kEmptyKey32 0 reset10.
Proof. unfold counted. split_and!; reflexivity. Qed.

Lemma Populate_never_fails_witness :
  exists c,
    run kEmptyKey32 modulus32 [3; 7; 3; 9] [0; 2; 2; 0; 1; 3; 0]%nat
      (Populate_start reset10 4) = Done c.
Proof.
  apply (Populate_never_fails kEmptyKey32 modulus32 0 reset10 [3; 7; 3; 9]).
  - reflexivity.
  - vm_compute. discriminate.
  - repeat constructor.
  - exact reset10_counted.
Defined.

Lemma Populate_fair_schedule_returns_witness :
  exists t' ps,
    run kEmptyKey32 modulus32 [3; 3]
      [1; 0; 1; 0; 0; 1; 0; 1; 1; 0; 0]%nat (Populate_start reset10 2)
    = Done (t', ps) /\ all_ended ps.
Proof.
  apply (Populate_fair_schedule_returns kEmptyKey32 modulus32 0 reset10 [3; 3]).
  - reflexivity.
  - vm_compute. discriminate.
  - repeat constructor.
  - exact reset10_counted.
  - intros [|[|i]] Hi; vm_compute; [lia|lia|]. cbn in Hi. lia.
Defined.

Lemma MapNodes_round_trip_witness :
  exists out,
    MapNodes populated10 [0; 0; 0] 3 = Done (populated10, out) /\
    exists x, out !! 1%nat = Some x /\
              o2n_at populated10 x = Some {| id := x; local := 1 |}.
Proof.
  destruct (MapNodes_round_trip kEmptyKey32 modulus32 reset10 populated10
              [[3; 7; 3; 9]] [0; 0; 0] 3) as (out & Hrun & Hback).
  - reflexivity.
  - vm_compute. discriminate.
  - exact reset10_is_reset.
  - repeat constructor.
  - econstructor; [|constructor]. apply Populate_Done_returns.
    vm_compute. reflexivity.
  - vm_compute. discriminate.
  - vm_compute. lia.
  - exists out. split; [exact Hrun|].
    destruct (Hback 1%nat) as (x & Hx & _ & Ho); [vm_compute; lia|].
    exists x. auto.
Defined.

(** A 2-bit id type with empty key 3 and capacity 4: four presentations of
    the empty key take the counter round to 0. *)
Lemma empty_key_always_wins_witness :
  exists t',
    Populate 3 4 {| _o2n_table := replicate 4 {| id := 3; local := 0 |};
                    _n2o_table := garbage_n2o 4;
                    _num_items := 0;
                    _capacity := 4 |} [3; 3; 3; 3] 4 = Done t' /\
    _num_items t' = 0 /\ num_claimed 3 t' = 0.
Proof.
  apply (empty_key_always_wins 3 4 _ 4).
  - reflexivity.
  - unfold is_reset. split_and!; try reflexivity. repeat constructor.
  - reflexivity.
  - vm_compute. discriminate.
  - vm_compute. discriminate.
Defined.

Lemma Reset_any_order_witness :
  for_each (Reset_body kEmptyKey32) [2; 0; 1]%nat
    (set_num_items (constructed 3) 0)
  = Reset kEmptyKey32 (constructed 3).
Proof.
  apply (Reset_any_order kEmptyKey32).
  change (seq 0 (N.to_nat 3)) with [0; 1; 2]%nat.
  apply (bool_decide_unpack _). vm_compute. exact I.
Defined.

Lemma MapNodes_any_order_witness :
  (out ← for_each (MapNodes_body populated10) [2; 0; 1]%nat [0; 0; 0];
   Done (populated10, out))
  = MapNodes populated10 [0; 0; 0] 3.
Proof.
  apply (MapNodes_any_order populated10 [0; 0; 0] 3 [2; 0; 1]%nat).
  change (seq 0 (N.to_nat 3)) with [0; 1; 2]%nat.
  apply (bool_decide_unpack _). vm_compute. exact I.
Defined.

Lemma MapEdges_any_order_witness :
  (out ← for_each (MapEdges_body populated10 [3; 9] [7; 9]) [1; 0]%nat ([0; 0], [0; 0]);
   Done (populated10, out))
  = MapEdges populated10 [3; 9] [7; 9] 2 [0; 0] [0; 0].
Proof.
  apply (MapEdges_any_order populated10 [3; 9] [7; 9] 2 [0; 0] [0; 0] [1; 0]%nat);
    try reflexivity; try (vm_compute; lia).
  change (seq 0 (N.to_nat 2)) with [0; 1]%nat.
  apply (bool_decide_unpack _). vm_compute. exact I.
Defined.

(** * Frames, round trips and schedules at the scenario *)

Lemma populated10_counted : counted kEmptyKey32 0 populated10.
Proof. unfold counted. split_and!; reflexivity. Qed.

Lemma populated10_calls :
  Populate_calls kEmptyKey32 modulus32 reset10 [[3; 7; 3; 9]] populated10.
Proof.
  econstructor; [|constructor]. apply Populate_Done_returns. vm_compute. reflexivity.
Qed.

Lemma populated10_again_returns :
  Populate_returns kEmptyKey32 modulus32 populated10 [3; 5] 2 populated10_again.
Proof. apply Populate_Done_returns. vm_compute. reflexivity. Qed.

Lemma interleaved10_calls :
  Populate_calls kEmptyKey32 modulus32 reset10 [[3; 7; 3; 9]] interleaved10.
Proof.
  econstructor; [|constructor].
  exists interleaved_schedule, [AtEnd; AtEnd; AtEnd; AtEnd].
  split; [vm_compute; reflexivity|repeat constructor].
Qed.

(** Populate([3,7,3]) on the populated table, in index order and under a
    schedule that starts with the last iteration. *)
Lemma Populate_present_ids_unchanged_witness :
  Populate kEmptyKey32 modulus32 populated10 [3; 7; 3] 3 = Done populated10 /\
  exists ps,
    run kEmptyKey32 modulus32 [3; 7; 3] [2; 0; 2; 1; 0; 1]%nat
      (Populate_start populated10 3) = Done (populated10, ps).
Proof.
  destruct (Populate_present_ids_unchanged kEmptyKey32 modulus32 populated10 [3; 7; 3])
    as (Hseq & Hall & _).
  - repeat (constructor;
      [split; [reflexivity|eexists; split; [vm_compute; reflexivity|]];
       vm_compute; discriminate|]).
    constructor.
  - split; [exact Hseq|]. apply Hall.
Defined.

(** Populate([3,5]) on the populated table: the entries 0, 1, 2 and 4 of
    the local array are as they were. *)
Lemma Populate_keeps_local_entries_witness :
  _num_items populated10 <= _num_items populated10_again /\
  n2o_at populated10_again 1 = n2o_at populated10 1 /\
  n2o_at populated10_again 4 = n2o_at populated10 4.
Proof.
  destruct (Populate_keeps_local_entries kEmptyKey32 modulus32 0 populated10 [3; 5]
              (in_order 2) populated10_again [AtEnd; AtEnd])
    as (Hmono & _ & Hfr).
  - reflexivity.
  - vm_compute. discriminate.
  - repeat constructor.
  - exact populated10_counted.
  - vm_compute. reflexivity.
  - split_and!; [exact Hmono|apply Hfr; left; reflexivity|apply Hfr; right].
    vm_compute. discriminate.
Defined.

Lemma MapNodes_stable_under_Populate_witness :
  exists out,
    MapNodes populated10 [0; 0; 0] 3 = Done (populated10, out) /\
    MapNodes populated10_again [0; 0; 0] 3 = Done (populated10_again, out).
Proof.
  apply (MapNodes_stable_under_Populate kEmptyKey32 modulus32 0 populated10
           populated10_again [3; 5] [0; 0; 0] 3).
  - reflexivity.
  - vm_compute. discriminate.
  - repeat constructor.
  - exact populated10_counted.
  - exact populated10_again_returns.
  - vm_compute. discriminate.
  - vm_compute. lia.
Defined.

Lemma MapNodes_lists_each_id_once_witness :
  exists out,
    MapNodes populated10 [0; 0; 0] (_num_items populated10) = Done (populated10, out) /\
    NoDup (take (N.to_nat (_num_items populated10)) out) /\
    take (N.to_nat (_num_items populated10)) out ≡ₚ [9; 7; 3].
Proof.
  apply (MapNodes_lists_each_id_once kEmptyKey32 modulus32 reset10 populated10
           [[3; 7; 3; 9]] [9; 7; 3] [0; 0; 0]).
  - reflexivity.
  - vm_compute. discriminate.
  - exact reset10_is_reset.
  - repeat constructor.
  - exact populated10_calls.
  - apply (bool_decide_unpack _). vm_compute. exact I.
  - intros x. cbn [concat app]. rewrite !elem_of_cons. set_solver.
  - vm_compute. lia.
Defined.

(** The edges (3,7) and (9,9) on the populated table. *)
Lemma MapEdges_round_trip_witness :
  exists out_src out_dst,
    MapEdges populated10 [3; 9] [7; 9] 2 [0; 0] [0; 0]
    = Done (populated10, (out_src, out_dst)) /\
    exists ls ld,
      out_src !! 0%nat = Some ls /\ out_dst !! 0%nat = Some ld /\
      n2o_at populated10 ls = Some {| global := 3 |} /\
      n2o_at populated10 ld = Some {| global := 7 |} /\
      ls <> ld.
Proof.
  destruct (MapEdges_round_trip kEmptyKey32 modulus32 reset10 populated10
              [[3; 7; 3; 9]] [3; 9] [7; 9] 2 [0; 0] [0; 0])
    as (os & od & Hrun & Hback).
  - reflexivity.
  - vm_compute. discriminate.
  - exact reset10_is_reset.
  - repeat constructor.
  - exact populated10_calls.
  - reflexivity.
  - reflexivity.
  - vm_compute. lia.
  - vm_compute. lia.
  - repeat constructor; cbn [concat app]; rewrite !elem_of_cons; auto.
  - repeat constructor; cbn [concat app]; rewrite !elem_of_cons; auto.
  - exists os, od. split; [exact Hrun|].
    destruct (Hback 0%nat 3 7) as (ls & ld & H1 & H2 & _ & _ & H3 & H4 & Hiff);
      [reflexivity..|].
    exists ls, ld. split_and!; auto.
    intros Heq. apply Hiff in Heq. discriminate Heq.
Defined.

(** Populate([3,7]) and Populate([3,9]) in index order. *)
Lemma Populate_in_order_first_occurrences_witness :
  exists t out,
    Populate_all kEmptyKey32 modulus32 reset10 [[3; 7]; [3; 9]] = Done t /\
    _num_items t = 3 /\
    MapNodes t [0; 0; 0] (_num_items t) = Done (t, out) /\
    take (N.to_nat (_num_items t)) out = [3; 7; 9].
Proof.
  destruct (Populate_in_order_first_occurrences kEmptyKey32 modulus32 reset10
              [[3; 7]; [3; 9]] [0; 0; 0])
    as (t & out & Hrun & Hnum & _ & Hmap & Htake).
  - reflexivity.
  - vm_compute. discriminate.
  - exact reset10_is_reset.
  - repeat constructor.
  - vm_compute. lia.
  - exists t, out. split_and!; auto.
Defined.

Lemma Reset_and_repeat_witness :
  exists r,
    Reset kEmptyKey32 populated10 = Done r /\
    Reset kEmptyKey32 r = Done r /\
    Populate_all kEmptyKey32 modulus32 r [[3; 7; 3; 9]] = Done populated10.
Proof.
  apply (Reset_and_repeat kEmptyKey32 modulus32 reset10 populated10 [[3; 7; 3; 9]]).
  - reflexivity.
  - vm_compute. discriminate.
  - exact reset10_is_reset.
  - repeat constructor.
  - vm_compute. reflexivity.
Defined.

(** Populate([3,7,3,9]) in index order and under [interleaved_schedule]. *)
Lemma Populate_schedules_agree_witness :
  _num_items populated10 = _num_items interleaved10 /\
  id <$> o2n_at populated10 7 = id <$> o2n_at interleaved10 7 /\
  exists out1 out2,
    MapNodes populated10 [0; 0; 0] (_num_items populated10) = Done (populated10, out1) /\
    MapNodes interleaved10 [0; 0; 0] (_num_items interleaved10)
    = Done (interleaved10, out2) /\
    take (N.to_nat (_num_items populated10)) out1
    ≡ₚ take (N.to_nat (_num_items interleaved10)) out2.
Proof.
  destruct (Populate_schedules_agree kEmptyKey32 modulus32 reset10 populated10
              interleaved10 [[3; 7; 3; 9]] [0; 0; 0]) as (Hnum & Htag & Hout).
  - reflexivity.
  - vm_compute. discriminate.
  - exact reset10_is_reset.
  - repeat constructor.
  - exact populated10_calls.
  - exact interleaved10_calls.
  - vm_compute. lia.
  - split_and!; auto.
Defined.

Example first_occurrences_scenario :
  first_occurrences [] [3; 7; 3; 9; 7; 5] = [3; 7; 9; 5] /\
  first_occurrences [3; 7; 9] [3; 5] = [5].
Proof. split; reflexivity. Qed.

(** Populate of the first two ids of [3, 7, 10, 99] on the table of
    capacity 10. *)
Lemma Populate_reads_num_input_ids_witness :
  Populate kEmptyKey32 modulus32 reset10 [3; 7; 10; 99] 2
  = Populate kEmptyKey32 modulus32 reset10 [3; 7] 2 /\
  Populate kEmptyKey32 modulus32 reset10 [3; 7; 10; 99] 2 <> Fatal.
Proof.
  destruct (Populate_reads_num_input_ids kEmptyKey32 modulus32 reset10
              [3; 7; 10; 99] 2) as [Hseq _]; [vm_compute; lia|].
  split; [exact Hseq|]. vm_compute. discriminate.
Defined.
